(** * MicrosoftDemangle: a shallow embedding of the MSVC symbol demangler

    The development follows [MicrosoftDemangle.cpp]: the non-owning
    [String] cursor, the [Type] node, the recursive-descent readers of the
    [Demangler] class, and the two-pass printer.  Member functions of
    [Demangler] become computations in a state monad over the record of
    its data members. *)

From Stdlib Require Import ZArith List String Ascii Bool Lia DecimalString.
Import ListNotations.

Local Open Scope string_scope.
Local Open Scope Z_scope.

(** ** Bytes and integers *)

(** The code of a byte, as an unsigned value. *)
Definition chr (c : ascii) : Z := Z.of_N (N_of_ascii c).

(** [int32_t] arithmetic: results are reduced to the two's-complement range. *)
Definition wrap32 (z : Z) : Z := (z + 2 ^ 31) mod 2 ^ 32 - 2 ^ 31.

(** [std::to_string(int)] and [os << int]. *)
Definition to_string (z : Z) : string := NilZero.string_of_int (Z.to_int z).

(** [isalpha] in the "C" locale. *)
Definition isalpha (c : ascii) : bool :=
  ((chr "A" <=? chr c) && (chr c <=? chr "Z")) ||
  ((chr "a" <=? chr c) && (chr c <=? chr "z")).

Definition is_digit (c : ascii) : bool :=
  (chr "0" <=? chr c) && (chr c <=? chr "9").

Definition is_hex (c : ascii) : bool :=
  (chr "A" <=? chr c) && (chr c <=? chr "P").

(** [switch c cases]: the first case label equal to [c], as in a C++
    [switch] over character constants. *)
Fixpoint switch {A : Type} (c : Z) (cases : list (ascii * A)) : option A :=
  match cases with
  | [] => None
  | (k, v) :: rest => if c =? chr k then Some v else switch c rest
  end.

(** ** Enumerations *)

(** Storage classes *)
Definition Const : Z := 1.
Definition Volatile : Z := 2.
Definition Far : Z := 4.
Definition Huge : Z := 8.
Definition Unaligned : Z := 16.
Definition Restrict : Z := 32.

(** Calling conventions *)
Inductive CallingConv : Set :=
  Cdecl | Pascal | Thiscall | Stdcall | Fastcall | Regcall.

(** Types.  [None_] is the enumerator [None]. *)
Inductive PrimTy : Set :=
  | Unknown | None_ | Function | Ptr | Ref | Array
  | Struct | Union | Class | Enum
  | Void | Bool | Char | Schar | Uchar | Short | Ushort | Int | Uint
  | Long | Ulong | Llong | Ullong | Wchar | Float | Double | Ldouble.

(** Function classes *)
Definition Public : Z := 1.
Definition Protected : Z := 2.
Definition Private : Z := 4.
Definition Global : Z := 8.
Definition Static : Z := 16.
Definition Virtual : Z := 32.
Definition FFar : Z := 64.

(** ** The type node

    [struct Type].  A [Type *] that the parser obtained from [alloc] is
    stored in exactly one [ptr] or [params] slot, so the nodes form a tree
    and a pointer is modelled by the node it points to ([None] is
    [nullptr]).  The name slices ([String]) are modelled by their
    contents. *)
#[warnings="-register-all"]
Inductive TypeNode : Type := mkType {
  prim : PrimTy;
  sclass : Z;
  ptr : option TypeNode;
  calling_conv : CallingConv;
  func_class : Z;
  len : Z;
  name : list string;
  params : list TypeNode
}.

(** A default-initialised node: [sclass = 0], [ptr = nullptr], empty
    vectors.  The members without an initialiser ([prim], [calling_conv],
    [func_class], [len]) are indeterminate in C++; the embedding gives
    them the first enumerator and zero. *)
Definition fresh : TypeNode := mkType Unknown 0 None Cdecl 0 0 [] [].

Definition set_prim (ty : TypeNode) (p : PrimTy) : TypeNode :=
  mkType p (sclass ty) (ptr ty) (calling_conv ty) (func_class ty) (len ty)
    (name ty) (params ty).
Definition set_sclass (ty : TypeNode) (s : Z) : TypeNode :=
  mkType (prim ty) s (ptr ty) (calling_conv ty) (func_class ty) (len ty)
    (name ty) (params ty).
Definition set_ptr (ty : TypeNode) (p : TypeNode) : TypeNode :=
  mkType (prim ty) (sclass ty) (Some p) (calling_conv ty) (func_class ty)
    (len ty) (name ty) (params ty).
Definition set_calling_conv (ty : TypeNode) (c : CallingConv) : TypeNode :=
  mkType (prim ty) (sclass ty) (ptr ty) c (func_class ty) (len ty)
    (name ty) (params ty).
Definition set_func_class (ty : TypeNode) (f : Z) : TypeNode :=
  mkType (prim ty) (sclass ty) (ptr ty) (calling_conv ty) f (len ty)
    (name ty) (params ty).
Definition set_len (ty : TypeNode) (n : Z) : TypeNode :=
  mkType (prim ty) (sclass ty) (ptr ty) (calling_conv ty) (func_class ty) n
    (name ty) (params ty).
Definition set_name (ty : TypeNode) (n : list string) : TypeNode :=
  mkType (prim ty) (sclass ty) (ptr ty) (calling_conv ty) (func_class ty)
    (len ty) n (params ty).
Definition push_param (ty : TypeNode) (p : TypeNode) : TypeNode :=
  mkType (prim ty) (sclass ty) (ptr ty) (calling_conv ty) (func_class ty)
    (len ty) (name ty) (params ty ++ [p]).

(** ** The demangler state

    The data members of [class Demangler] that the parser uses.  [input]
    is the part of the mangled symbol not yet read; [error] is empty while
    there is no error. *)
Record Demangler : Type := mkDemangler {
  input : string;
  type : TypeNode;
  symbol : list string;
  type_index : nat;
  type_buffer2 : list TypeNode;
  repeated_names : list string;
  error : string
}.

Definition set_input (d : Demangler) (s : string) : Demangler :=
  mkDemangler s (type d) (symbol d) (type_index d) (type_buffer2 d)
    (repeated_names d) (error d).
Definition set_type (d : Demangler) (t : TypeNode) : Demangler :=
  mkDemangler (input d) t (symbol d) (type_index d) (type_buffer2 d)
    (repeated_names d) (error d).
Definition set_symbol (d : Demangler) (v : list string) : Demangler :=
  mkDemangler (input d) (type d) v (type_index d) (type_buffer2 d)
    (repeated_names d) (error d).
Definition set_type_index (d : Demangler) (n : nat) : Demangler :=
  mkDemangler (input d) (type d) (symbol d) n (type_buffer2 d)
    (repeated_names d) (error d).
Definition set_repeated_names (d : Demangler) (v : list string) : Demangler :=
  mkDemangler (input d) (type d) (symbol d) (type_index d) (type_buffer2 d)
    v (error d).
Definition set_error (d : Demangler) (e : string) : Demangler :=
  mkDemangler (input d) (type d) (symbol d) (type_index d) (type_buffer2 d)
    (repeated_names d) e.

(** [Demangler(String s) : input(s) {}] *)
Definition init (s : string) : Demangler :=
  mkDemangler s fresh [] 0 [] [] "".

(** The size of [Type type_buffer[20]]. *)
Definition type_buffer_size : nat := 20.

(** ** Outcomes and the parser monad

    A member function either returns, or runs on after the fuel given to
    its loops and recursive calls is used up, or takes a node outside
    [type_buffer] (undefined behaviour in C++). *)
Inductive outcome (A : Type) : Type :=
  | Done (a : A)
  | OutOfFuel
  | PoolOverrun.
Arguments Done {A} a.
Arguments OutOfFuel {A}.
Arguments PoolOverrun {A}.

Definition M (A : Type) : Type := Demangler -> outcome (A * Demangler).

Definition ret {A : Type} (a : A) : M A := fun d => Done (a, d).

Definition bind {A B : Type} (m : M A) (k : A -> M B) : M B :=
  fun d =>
    match m d with
    | Done (a, d') => k a d'
    | OutOfFuel => OutOfFuel
    | PoolOverrun => PoolOverrun
    end.

Notation "x <- m ;; k" := (bind m (fun x => k))
  (at level 61, m at next level, right associativity).
Notation "m ;;; k" := (bind m (fun _ => k))
  (at level 61, right associativity).

Definition out_of_fuel {A : Type} : M A := fun _ => OutOfFuel.
Definition gets {A : Type} (f : Demangler -> A) : M A := fun d => Done (f d, d).
Definition modify (f : Demangler -> Demangler) : M unit :=
  fun d => Done (tt, f d).

(** [error = msg] *)
Definition fail (msg : string) : M unit := modify (fun d => set_error d msg).

(** [error.empty()] *)
Definition error_empty : M bool :=
  gets (fun d => match error d with "" => true | _ => false end).

(** A [while (cond) body] loop over a value [a] that the body updates. *)
Fixpoint while {A : Type} (fuel : nat) (cond : M bool) (body : A -> M A)
    (a : A) : M A :=
  match fuel with
  | O => out_of_fuel
  | S fuel' =>
      b <- cond ;;
      if b : bool then a' <- body a ;; while fuel' cond body a' else ret a
  end.

(** ** The [String] cursor *)

Fixpoint drop (n : nat) (s : string) : string :=
  match n, s with
  | O, _ => s
  | S n', String _ s' => drop n' s'
  | S _, EmptyString => EmptyString
  end.

Fixpoint take (n : nat) (s : string) : string :=
  match n, s with
  | S n', String c s' => String c (take n' s')
  | _, _ => EmptyString
  end.

(** [String::startswith(const std::string &)]: the literal is not longer
    than the string and equal to its first bytes. *)
Fixpoint startswith (s : string) (lit : string) {struct lit} : bool :=
  match lit with
  | EmptyString => true
  | String a lit' =>
      match s with
      | EmptyString => false
      | String b s' => Ascii.eqb b a && startswith s' lit'
      end
  end.

(** [String::startswith(char)] *)
Definition startswith_char (s : string) (c : ascii) : bool :=
  match s with
  | String c' _ => Ascii.eqb c' c
  | EmptyString => false
  end.

(** [input.trim(n)], called with [n <= input.len]. *)
Definition trim (n : nat) : M unit :=
  modify (fun d => set_input d (drop n (input d))).

(** [Demangler::consume(const std::string &)] *)
Definition consume (lit : string) : M bool :=
  s <- gets input ;;
  if startswith s lit then trim (String.length lit) ;;; ret true
  else ret false.

(** [Demangler::consume(char)] *)
Definition consume_char (c : ascii) : M bool :=
  s <- gets input ;;
  if startswith_char s c then trim 1 ;;; ret true else ret false.

Section Readers.

(** Whether plain [char] is a signed type is implementation-defined; it
    decides the [int] that [String::get] returns for a byte above 127. *)
Variable char_is_signed : bool.

Definition char_to_int (c : ascii) : Z :=
  if 128 <=? chr c then (if char_is_signed then chr c - 256 else chr c)
  else chr c.

Definition int_to_char (z : Z) : ascii := ascii_of_N (Z.to_N (z mod 256)).

(** [input.get()]: -1 at the end of the input, else the next byte. *)
Definition get : M Z :=
  s <- gets input ;;
  match s with
  | EmptyString => ret (-1)
  | String c s' => modify (fun d => set_input d s') ;;; ret (char_to_int c)
  end.

(** [input.unget(c)] steps the cursor back by one byte unless [c] is -1.
    Every call passes the value that the preceding [get] returned, so
    the byte stepped over is the one with that value. *)
Definition unget (c : Z) : M unit :=
  if c =? -1 then ret tt
  else modify (fun d => set_input d (String (int_to_char c) (input d))).

(** [0 < input.len && '0' <= input.p[0] && input.p[0] <= '9'] *)
Definition starts_with_digit (s : string) : bool :=
  match s with
  | String c _ => is_digit c
  | EmptyString => false
  end.

(** [input.p[0] - '0'], read under the guard above. *)
Definition front_digit (s : string) : Z :=
  match s with
  | String c _ => chr c - chr "0"
  | EmptyString => 0
  end.

(** ** Numbers

    The loop of [read_number] over [input.p[i]]: the index of the
    terminating '@' and the value accumulated, or nothing when the loop
    breaks or runs off the end of the input. *)
Fixpoint scan_number (s : string) (i : nat) (ret : Z) : option (nat * Z) :=
  match s with
  | EmptyString => None
  | String c s' =>
      if Ascii.eqb c "@" then Some (i, ret)
      else if is_hex c
      then scan_number s' (S i) (wrap32 (Z.shiftl ret 4 + (chr c - chr "A")))
      else None
  end.

Definition bad_number : string := "bad number".

Definition read_number : M Z :=
  neg <- consume "?" ;;
  s <- gets input ;;
  if starts_with_digit s then
    let ret_ := front_digit s + 1 in
    trim 1 ;;; ret (if neg : bool then - ret_ else ret_)
  else
    match scan_number s 0 0 with
    | Some (i, ret_) =>
        trim (i + 1) ;;; ret (if neg : bool then wrap32 (- ret_) else ret_)
    | None => fail bad_number ;;; ret 0
    end.

(** The value of a run of hex digits 'A'..'P' read in base 16, as an
    unbounded integer. *)
Fixpoint hex_value_from (acc : Z) (s : string) : Z :=
  match s with
  | EmptyString => acc
  | String c s' => hex_value_from (acc * 16 + (chr c - chr "A")) s'
  end.

Definition hex_value (s : string) : Z := hex_value_from 0 s.

Fixpoint all_hex (s : string) : bool :=
  match s with
  | EmptyString => true
  | String c s' => is_hex c && all_hex s'
  end.

(** ** Strings and names *)

(** The first index [i] with [input.p[i] == '@']. *)
Fixpoint find_at (s : string) : option nat :=
  match s with
  | EmptyString => None
  | String c s' =>
      if Ascii.eqb c "@" then Some O
      else match find_at s' with Some i => Some (S i) | None => None end
  end.

Definition read_string : M string :=
  s <- gets input ;;
  match find_at s with
  | Some i => trim (i + 1) ;;; ret (take i s)
  | None => fail ("read_string: missing '@': " ++ s) ;;; ret ""
  end.

(** [if (repeated_names.size() < 10) repeated_names.push_back(s);] *)
Definition record_name (s : string) : M unit :=
  rn <- gets repeated_names ;;
  if (List.length rn <? 10)%nat
  then modify (fun d => set_repeated_names d (rn ++ [s])%list)
  else ret tt.

(** The body of the loop of [read_name]; [v] is the vector built so far.
    The early [return {}] is the [inl] of the result. *)
Definition read_name_body (v : list string) : M (list string + list string) :=
  s <- gets input ;;
  if starts_with_digit s then
    let i := front_digit s in
    rn <- gets repeated_names ;;
    if Z.of_nat (List.length rn) <=? i then
      fail ("name reference too large: " ++ s) ;;; ret (inl [])
    else
      trim 1 ;;; ret (inr (v ++ [nth (Z.to_nat i) rn ""])%list)
  else
    s' <- read_string ;;
    record_name s' ;;;
    ret (inr (v ++ [s'])%list).

Fixpoint read_name_loop (fuel : nat) (v : list string) : M (list string) :=
  match fuel with
  | O => out_of_fuel
  | S fuel' =>
      b <- consume "@" ;;
      if b : bool then ret v
      else
        r <- read_name_body v ;;
        match r with
        | inl early => ret early
        | inr v' => read_name_loop fuel' v'
        end
  end.

Definition read_name (fuel : nat) : M (list string) := read_name_loop fuel [].

(** ** Single-byte tables *)

(** [alloc] hands out [type_buffer + type_index++] without comparing
    [type_index] with the size of [type_buffer]; nothing in the class
    ever adds to [type_buffer2].  A node past the last slot of
    [type_buffer] is not an object of the program: the embedding stops
    there with [PoolOverrun]. *)
Definition alloc : M TypeNode :=
  fun d =>
    if (type_index d <? type_buffer_size)%nat
    then Done (fresh, set_type_index d (S (type_index d)))
    else PoolOverrun.

Definition func_class_table : list (ascii * Z) :=
  [ ("A", Private); ("B", Z.lor Private FFar);
    ("C", Z.lor Private Static); ("D", Z.lor Private Static);
    ("E", Z.lor Private Virtual); ("F", Z.lor Private Virtual);
    ("I", Protected); ("J", Z.lor Protected FFar);
    ("K", Z.lor Protected Static);
    ("L", Z.lor (Z.lor Protected Static) FFar);
    ("M", Z.lor Protected Virtual);
    ("N", Z.lor (Z.lor Protected Virtual) FFar);
    ("Q", Public); ("R", Z.lor Public FFar);
    ("S", Z.lor Public Static); ("T", Z.lor (Z.lor Public Static) FFar);
    ("U", Z.lor Public Virtual); ("V", Z.lor (Z.lor Public Virtual) FFar);
    ("Y", Global); ("Z", Z.lor Global FFar) ]%char.

Definition read_func_class : M Z :=
  c <- get ;;
  match switch c func_class_table with
  | Some fc => ret fc
  | None =>
      unget c ;;;
      s <- gets input ;;
      fail ("unknown func class: " ++ s) ;;; ret 0
  end.

Definition calling_conv_table : list (ascii * CallingConv) :=
  [ ("A", Cdecl); ("C", Pascal); ("E", Thiscall); ("G", Stdcall);
    ("I", Fastcall) ]%char.

Definition read_calling_conv : M CallingConv :=
  c <- get ;;
  match switch c calling_conv_table with
  | Some cc => ret cc
  | None =>
      unget c ;;;
      s <- gets input ;;
      fail ("unknown calling convention: " ++ s) ;;; ret Cdecl
  end.

Definition storage_class_table : list (ascii * Z) :=
  [ ("A", 0); ("B", Const); ("C", Volatile); ("D", Z.lor Const Volatile);
    ("E", Far); ("F", Z.lor Const Far); ("G", Z.lor Volatile Far);
    ("H", Z.lor (Z.lor Const Volatile) Far) ]%char.

Definition read_storage_class : M Z :=
  c <- get ;;
  match switch c storage_class_table with
  | Some sc => ret sc
  | None => unget c ;;; ret 0
  end.

Definition read_storage_class_for_return : M Z :=
  a <- consume "?A" ;;
  if a : bool then ret 0 else
  b <- consume "?B" ;;
  if b : bool then ret Const else
  c <- consume "?C" ;;
  if c : bool then ret Volatile else
  d <- consume "?D" ;;
  if d : bool then ret (Z.lor Const Volatile) else ret 0.

Definition prim_type_table : list (ascii * PrimTy) :=
  [ ("X", Void); ("D", Char); ("C", Schar); ("E", Uchar); ("F", Short);
    ("G", Ushort); ("H", Int); ("I", Uint); ("J", Long); ("K", Ulong);
    ("M", Float); ("N", Double); ("O", Ldouble) ]%char.

(** The [default] case of [read_prim_type], after [input.unget(c)]. *)
Definition read_prim_type_default : M PrimTy :=
  n <- consume "_N" ;;
  if n : bool then ret Bool else
  j <- consume "_J" ;;
  if j : bool then ret Llong else
  k <- consume "_K" ;;
  if k : bool then ret Ullong else
  w <- consume "_W" ;;
  if w : bool then ret Wchar else
  s <- gets input ;;
  fail ("unknown primitive type: " ++ s) ;;; ret Unknown.

(** Reads a primitive type. *)
Definition read_prim_type : M PrimTy :=
  c <- get ;;
  match switch c prim_type_table with
  | Some p => ret p
  | None => unget c ;;; read_prim_type_default
  end.

(** ** Types *)

(** The [for] loop of the array case of [read_var_type]: each level
    reads a length and allocates the next node of the chain. *)
Fixpoint read_array_lens (n : nat) : M (list Z) :=
  match n with
  | O => ret []
  | S n' =>
      l <- read_number ;;
      alloc ;;;
      ls <- read_array_lens n' ;;
      ret (l :: ls)
  end.

(** The chain that the loop builds from [tp = &ty]: one [Array] node per
    length, each pointing to the node allocated for the next level; the
    last node allocated is the one the element type is read into. *)
Fixpoint array_chain (tp : TypeNode) (lens : list Z) (elem : TypeNode)
    : TypeNode :=
  match lens with
  | [] => elem
  | l :: ls =>
      set_ptr (set_len (set_prim tp Array) l) (array_chain fresh ls elem)
  end.

(** The [$$C] block of the array case: the value assigned to
    [ty.sclass], if any.  [read_array_qualifier_letter] is the chain of
    tests on the byte after "$$C". *)
Definition read_array_qualifier_letter : M (option Z) :=
  b <- consume "B" ;;
  if b : bool then ret (Some Const) else
  c <- consume "C" ;;
  if c : bool then ret (Some (Z.lor Const Volatile)) else
  d <- consume "D" ;;
  if d : bool then ret (Some (Z.lor Const Volatile)) else
  a <- consume "A" ;;
  if a : bool then ret None else
  s <- gets input ;;
  fail ("unkonwn storage class: " ++ s) ;;; ret None.

Definition read_array_qualifier : M (option Z) :=
  q <- consume "$$C" ;;
  if q : bool then read_array_qualifier_letter else ret None.

(** [read_var_type(ty)] and [read_class(prim, ty)] take the node by
    reference: the embedding takes the node as it is on entry and
    returns it as it is on exit.  The bodies of three cases of
    [read_var_type] are given first, over the function [read] that the
    case calls for the types inside it. *)

(** The cases "A", "P" and "Q", after the tag: a pointer or reference
    [ty] to the type that follows. *)
Definition read_pointee (read : TypeNode -> M TypeNode) (ty : TypeNode)
    : M TypeNode :=
  consume "E" ;;; (* if 64 bit *)
  p <- alloc ;;
  sc <- read_storage_class ;;
  p' <- read (set_sclass p sc) ;;
  ret (set_ptr ty p').

(** The case "P6A", after the tag: a pointer to a function. *)
Definition read_function_pointer (read : TypeNode -> M TypeNode) (fuel : nat)
    (ty : TypeNode) : M TypeNode :=
  fn <- alloc ;;
  r <- alloc ;;
  r' <- read r ;;
  fn' <- while fuel
           (e <- error_empty ;;
            if e : bool then
              a <- consume "@Z" ;;
              if a : bool then ret false else
              z <- consume "Z" ;;
              ret (negb z)
            else ret false)
           (fun fn =>
              tp <- alloc ;;
              tp' <- read tp ;;
              ret (push_param fn tp'))
           (set_ptr (set_prim fn Function) r') ;;
  ret (set_ptr (set_prim ty Ptr) fn').

(** The case "Y", after the tag: an array. *)
Definition read_array (read : TypeNode -> M TypeNode) (ty : TypeNode)
    : M TypeNode :=
  dimension <- read_number ;;
  if dimension <=? 0 then
    fail ("invalid array dimension: " ++ to_string dimension) ;;;
    ret ty
  else
    lens <- read_array_lens (Z.to_nat dimension) ;;
    sc <- read_array_qualifier ;;
    elem <- read fresh ;;
    let ty' := match sc with Some c => set_sclass ty c | None => ty end in
    ret (array_chain ty' lens elem).

Fixpoint read_var_type (fuel : nat) (ty : TypeNode) {struct fuel}
    : M TypeNode :=
  match fuel with
  | O => out_of_fuel
  | S fuel' =>
      t <- consume "T" ;;
      if t : bool then read_class fuel' Union ty else
      u <- consume "U" ;;
      if u : bool then read_class fuel' Struct ty else
      v <- consume "V" ;;
      if v : bool then read_class fuel' Class ty else
      w <- consume "W4" ;;
      if w : bool then
        n <- read_name fuel' ;;
        ret (set_name (set_prim ty Enum) n)
      else
      pf <- consume "P6A" ;;
      if pf : bool then
        read_function_pointer (read_var_type fuel') fuel' ty
      else
      a <- consume "A" ;;
      if a : bool then read_pointee (read_var_type fuel') (set_prim ty Ref)
      else
      p <- consume "P" ;;
      if p : bool then read_pointee (read_var_type fuel') (set_prim ty Ptr)
      else
      q <- consume "Q" ;;
      if q : bool then
        read_pointee (read_var_type fuel') (set_sclass (set_prim ty Ptr) Const)
      else
      y <- consume "Y" ;;
      if y : bool then read_array (read_var_type fuel') ty else
      pr <- read_prim_type ;;
      ret (set_prim ty pr)
  end

with read_class (fuel : nat) (prim : PrimTy) (ty : TypeNode) {struct fuel}
    : M TypeNode :=
  match fuel with
  | O => out_of_fuel
  | S fuel' =>
      let ty := set_prim ty prim in
      t <- consume "?$" ;;
      if t : bool then
        s <- read_string ;;
        while fuel'
          (e <- error_empty ;;
           if e : bool then a <- consume "@" ;; ret (negb a) else ret false)
          (fun ty =>
             tp <- alloc ;;
             tp' <- read_var_type fuel' tp ;;
             ret (push_param ty tp'))
          (set_name ty (name ty ++ [s])%list)
      else
        n <- read_name fuel' ;;
        ret (set_name ty n)
  end.

(** <return-type> ::= <type>
                  ::= @ # structors (they have no declared return type) *)
Definition read_func_return_type (fuel : nat) (ty : TypeNode) : M TypeNode :=
  a <- consume "@" ;;
  if a : bool then ret (set_prim ty None_)
  else
    ty' <- read_var_type fuel ty ;;
    consume "@" ;;;
    ret ty'.

(** ** The parser entry point *)

Definition modify_type (f : TypeNode -> TypeNode) : M unit :=
  modify (fun d => set_type d (f (type d))).

(** The parameter loops of [parse]: they stop at the end of the input
    or before the byte [stop], which they leave unread. *)
Definition read_params (fuel : nat) (stop : ascii) : M unit :=
  while fuel
    (e <- error_empty ;;
     s <- gets input ;;
     ret (e && negb (String.eqb s "") && negb (startswith_char s stop)))
    (fun _ =>
       tp <- alloc ;;
       tp' <- read_var_type fuel tp ;;
       modify_type (fun t => push_param t tp'))
    tt.

(** The first statements of [parse], up to [symbol = read_name()].
    The branch for a symbol without the leading '?' has no [return]:
    control goes on to [read_name]. *)
Definition parse_name (fuel : nat) : M unit :=
  (* MSVC-style mangled symbols must start with '?'. *)
  q <- consume "?" ;;
  (if q : bool then ret tt
   else
     modify (fun d => set_symbol d (symbol d ++ [input d])%list) ;;;
     modify_type (fun t => set_prim t Unknown)) ;;;
  (* What follows is a main symbol name. *)
  v <- read_name fuel ;;
  modify (fun d => set_symbol d v).

(** The rest of [parse]. *)
Definition parse (fuel : nat) : M unit :=
  parse_name fuel ;;;
  (* Read a variable. *)
  var <- consume "3" ;;
  if var : bool then
    t <- gets type ;;
    t' <- read_var_type fuel t ;;
    modify_type (fun _ => t')
  else
  (* Read a non-member function. *)
  y <- consume "Y" ;;
  if y : bool then
    modify_type (fun t => set_prim t Function) ;;;
    cc <- read_calling_conv ;;
    modify_type (fun t => set_calling_conv t cc) ;;;
    r <- alloc ;;
    sc <- read_storage_class_for_return ;;
    r' <- read_var_type fuel (set_sclass r sc) ;;
    modify_type (fun t => set_ptr t r') ;;;
    read_params fuel "@"
  else
  (* Read a member function. *)
  modify_type (fun t => set_prim t Function) ;;;
  fc <- read_func_class ;;
  modify_type (fun t => set_func_class t fc) ;;;
  consume "E" ;;;
  cc <- read_calling_conv ;;
  modify_type (fun t => set_calling_conv t cc) ;;;
  r <- alloc ;;
  sc <- read_storage_class ;;
  r' <- read_func_return_type fuel (set_sclass r sc) ;;
  modify_type (fun t => set_ptr t r') ;;;
  read_params fuel "Z".

End Readers.

(** ** The printer

    The functions that convert a [Type] to a string write to the stream
    [os]; here they take the text written so far and return the text
    after the call.  Following a null [ptr] gives [None]. *)

Fixpoint last_char (s : string) : option ascii :=
  match s with
  | EmptyString => None
  | String c EmptyString => Some c
  | String _ s' => last_char s'
  end.

(** Writes a space if the last token does not end with a punctuation. *)
Definition write_space (os : string) : string :=
  match last_char os with
  | Some c => if isalpha c then os ++ " " else os
  | None => os
  end.

(** The loop of [write_name] over [name[size - 1]] down to [name[1]]:
    the scopes of a name, outermost first, each followed by "::". *)
Definition write_scopes (outer : list string) (os : string) : string :=
  fold_left (fun os n => os ++ n ++ "::") (rev outer) os.

(** Write a name read by [read_name]. *)
Definition write_name (name : list string) (os : string) : string :=
  match name with
  | [] => os
  | n0 :: outer =>
      let os := write_space os in
      let os := write_scopes outer os in
      (* ?0 and ?1 are special names for ctors and dtors. *)
      if startswith n0 "?0" then os ++ drop 2 n0 ++ "::" ++ drop 2 n0
      else if startswith n0 "?1" then os ++ drop 2 n0 ++ "::~" ++ drop 2 n0
      else os ++ n0
  end.

Definition obind {A B : Type} (o : option A) (k : A -> option B) : option B :=
  match o with
  | Some a => k a
  | None => None
  end.

(** The loop of [write_params], over the functions that write the two
    halves of a parameter. *)
Definition write_params_with (pre post : TypeNode -> string -> option string)
    : list TypeNode -> bool -> string -> option string :=
  fix go (ps : list TypeNode) (first : bool) (os : string) : option string :=
    match ps with
    | [] => Some os
    | t :: ps' =>
        let os := if first then os else os ++ "," in
        obind (pre t os) (fun os =>
        obind (post t os) (fun os =>
        go ps' false os))
    end.

Definition needs_paren (p : PrimTy) : bool :=
  match p with
  | Function | Array => true
  | _ => false
  end.

Definition prim_keyword (p : PrimTy) : string :=
  match p with
  | Void => "void"
  | Bool => "bool"
  | Char => "char"
  | Schar => "signed char"
  | Uchar => "unsigned char"
  | Short => "short"
  | Ushort => "unsigned short"
  | Int => "int"
  | Uint => "unsigned int"
  | Long => "long"
  | Ulong => "unsigned long"
  | Llong => "long long"
  | Ullong => "unsigned long long"
  | Wchar => "wchar_t"
  | Float => "float"
  | Double => "double"
  | Ldouble => "long double"
  | Struct => "struct"
  | Union => "union"
  | Class => "class"
  | _ => ""
  end.

(** [write_pre] writes the first half of a type, [write_post] the second
    half. *)
Fixpoint write_pre (ty : TypeNode) (os : string) {struct ty} : option string :=
  match ty with
  | mkType pr sc p _ _ _ nm ps =>
      let const_ (os : string) : option string :=
        if Z.land sc Const =? 0 then Some os
        else Some (write_space os ++ "const") in
      let write_class (os : string) : option string :=
        let os := os ++ prim_keyword pr ++ " " in
        let os := write_name nm os in
        match ps with
        | [] => Some os
        | _ :: _ =>
            obind (write_params_with write_pre write_post ps true (os ++ "<"))
              (fun os => Some (os ++ ">"))
        end in
      match pr with
      | Unknown | None_ => const_ os
      | Function =>
          match p with
          | Some t => write_pre t os
          | None => None
          end
      | Ptr | Ref =>
          match p with
          | Some t =>
              obind (write_pre t os) (fun os =>
              let os := if needs_paren (prim t) then os ++ "(" else os in
              let os := match pr with
                        | Ptr => os ++ "*"
                        | _ => os ++ "&"
                        end in
              const_ os)
          | None => None
          end
      | Array =>
          match p with
          | Some t => obind (write_pre t os) const_
          | None => None
          end
      | Struct | Union | Class => obind (write_class os) const_
      | Enum => const_ (write_name nm (os ++ "enum "))
      | _ => const_ (os ++ prim_keyword pr)
      end
  end

with write_post (ty : TypeNode) (os : string) {struct ty} : option string :=
  match ty with
  | mkType pr _ p _ _ l _ ps =>
      match pr with
      | Function =>
          obind (write_params_with write_pre write_post ps true (os ++ "("))
            (fun os => Some (os ++ ")"))
      | Ptr | Ref =>
          match p with
          | Some t =>
              let os := if needs_paren (prim t) then os ++ ")" else os in
              write_post t os
          | None => None
          end
      | Array =>
          match p with
          | Some t => write_post t (os ++ "[" ++ to_string l ++ "]")
          | None => None
          end
      | _ => Some os
      end
  end.

(** Write a function or template parameter list. *)
Definition write_params (ty : TypeNode) (os : string) : option string :=
  write_params_with write_pre write_post (params ty) true os.

(** [Demangler::str()] *)
Definition str (d : Demangler) : option string :=
  obind (write_pre (type d) "") (fun os =>
  write_post (type d) (write_name (symbol d) os)).

(** ** The entry point

    [main] without its input and output: the symbol is parsed, and the
    result is the error message if [error] is not empty and the text of
    [str()] otherwise.  [NullDeref] is a null [ptr] followed by the
    printer. *)
Inductive result : Type :=
  | Ok (s : string)
  | Err (msg : string)
  | NullDeref.

Definition demangle (char_is_signed : bool) (fuel : nat) (s : string)
    : outcome result :=
  match parse char_is_signed fuel (init s) with
  | Done (_, d) =>
      match error d with
      | "" =>
          match str d with
          | Some out => Done (Ok out)
          | None => Done NullDeref
          end
      | msg => Done (Err msg)
      end
  | OutOfFuel => OutOfFuel
  | PoolOverrun => PoolOverrun
  end.

(** ** Predicates used in the statements *)

(** A computation refines another when it returns the same result
    wherever the other returns at all. *)
Definition refines {A : Type} (r r' : outcome A) : Prop :=
  r <> OutOfFuel -> r' = r.

Definition Mle {A : Type} (m m' : M A) : Prop :=
  forall d, refines (m d) (m' d).

(** [preserves P m]: a state that satisfies [P] still does after [m]. *)
Definition preserves {A : Type} (P : Demangler -> Prop) (m : M A) : Prop :=
  forall d a d', m d = Done (a, d') -> P d -> P d'.

(** There is a message in the error slot. *)
Definition errored (d : Demangler) : Prop := error d <> "".

(** The back-reference table holds at most 10 entries. *)
Definition table_bounded (d : Demangler) : Prop :=
  (List.length (repeated_names d) <= 10)%nat.

(** The table of [d] begins with the entries [l0]. *)
Definition table_extends (l0 : list string) (d : Demangler) : Prop :=
  exists l, repeated_names d = (l0 ++ l)%list.

(** [m], when it returns without an error, has read a prefix [p] of
    the input and used nothing of what follows [p]: it does the same on
    [p] followed by any other bytes.  [frames1]: and [p] is not empty.
    [peeks]: [m] may also have looked at the byte that follows [p]. *)
Definition frames {A : Type} (m : M A) : Prop :=
  forall d a d', m d = Done (a, d') -> error d' = "" ->
  error d = "" /\
  exists p, input d = p ++ input d' /\
    forall r, m (set_input d (p ++ r)) = Done (a, set_input d' r).

Definition frames1 {A : Type} (m : M A) : Prop :=
  forall d a d', m d = Done (a, d') -> error d' = "" ->
  error d = "" /\
  exists p, p <> "" /\ input d = p ++ input d' /\
    forall r, m (set_input d (p ++ r)) = Done (a, set_input d' r).

Definition head (s : string) : option ascii :=
  match s with
  | EmptyString => None
  | String c _ => Some c
  end.

Definition peeks {A : Type} (m : M A) : Prop :=
  forall d a d', m d = Done (a, d') -> error d' = "" ->
  error d = "" /\
  exists p, input d = p ++ input d' /\
    forall r, head r = head (input d') ->
      m (set_input d (p ++ r)) = Done (a, set_input d' r).

(** [type_start c]: [c] is none of '6', '@' and '$'.  No type begins
    with one of these bytes, and a literal that the parser tests for
    before it reads a type ("P6A", "@Z", "$$C") continues with one. *)
Definition type_start (c : ascii) : bool :=
  negb (Ascii.eqb c "6") && negb (Ascii.eqb c "@") && negb (Ascii.eqb c "$").

(** [frames1], and the prefix read begins with a byte of [type_start]. *)
Definition frames_type {A : Type} (m : M A) : Prop :=
  forall d a d', m d = Done (a, d') -> error d' = "" ->
  error d = "" /\
  exists c p, type_start c = true /\ input d = String c (p ++ input d') /\
    forall r, m (set_input d (String c (p ++ r))) = Done (a, set_input d' r).

(** A mangled name whose body tag, the byte after the name, is '3'. *)
Definition variable_symbol (fuel : nat) (s : string) : Prop :=
  startswith s "?" = true /\
  exists d, parse_name fuel (init s) = Done (tt, d) /\
            startswith (input d) "3" = true.

(** [advances m]: [m] moves the cursor forward only, over bytes of the
    input it was given, and takes nodes from [type_buffer] without
    giving one back. *)
Definition advances {A : Type} (m : M A) : Prop :=
  forall d a d', m d = Done (a, d') ->
  (exists p, input d = p ++ input d') /\ (type_index d <= type_index d')%nat.

(** [yields Q m]: every value that [m] returns satisfies [Q]. *)
Definition yields {A : Type} (Q : A -> Prop) (m : M A) : Prop :=
  forall d a d', m d = Done (a, d') -> Q a.

(** The nodes whose [ptr] the printer dereferences. *)
Definition follows_ptr (p : PrimTy) : bool :=
  match p with
  | Function | Ptr | Ref | Array => true
  | _ => false
  end.

(** A tree in which every node whose [ptr] the printer dereferences has
    one. *)
Fixpoint well_formed (ty : TypeNode) : bool :=
  match ty with
  | mkType pr _ p _ _ _ _ ps =>
      match p with
      | Some t => well_formed t
      | None => negb (follows_ptr pr)
      end && forallb well_formed ps
  end.

(** The nodes below [ty] are well formed. *)
Definition inside (ty : TypeNode) : bool :=
  match ptr ty with
  | Some t => well_formed t
  | None => true
  end && forallb well_formed (params ty).

(** Induction over a tree of nodes: through [ptr] and through every
    element of [params]. *)
Section TypeNode_induction.

Variable P : TypeNode -> Prop.
Hypothesis P_node :
  forall pr sc p cc fc l nm ps,
    match p with Some t => P t | None => True end ->
    Forall P ps ->
    P (mkType pr sc p cc fc l nm ps).

Fixpoint TypeNode_tree_ind (t : TypeNode) : P t :=
  match t with
  | mkType pr sc p cc fc l nm ps =>
      P_node pr sc p cc fc l nm ps
        (match p return match p with Some t => P t | None => True end with
         | Some t' => TypeNode_tree_ind t'
         | None => I
         end)
        ((fix go (ps : list TypeNode) : Forall P ps :=
            match ps with
            | [] => Forall_nil P
            | x :: r => Forall_cons x (TypeNode_tree_ind x) (go r)
            end) ps)
  end.

End TypeNode_induction.

(** [triple P m Q]: from a state that satisfies [P], [m] returns only
    values and states that satisfy [Q]. *)
Definition triple {A : Type} (P : Demangler -> Prop) (m : M A)
    (Q : A -> Demangler -> Prop) : Prop :=
  forall d a d', m d = Done (a, d') -> P d -> Q a d'.

(** [upto k big small]: on an input of at most [k] bytes, [small]
    returns whatever [big] returns. *)
Definition upto {A : Type} (k : nat) (big small : M A) : Prop :=
  forall d, (String.length (input d) <= k)%nat ->
  big d <> OutOfFuel -> small d = big d.

(** The nodes for which [write_pre] or [write_post] writes at least one
    byte: all but [Unknown] and [None]. *)
Definition shown (p : PrimTy) : bool :=
  match p with
  | Unknown | None_ => false
  | _ => true
  end.

(** The texts that the parser assigns to [error], each without what it
    appends to it. *)
Definition error_messages : list string :=
  [ "bad number"; "read_string: missing '@': ";
    "name reference too large: "; "unknown func class: ";
    "unknown calling convention: "; "unknown primitive type: ";
    "invalid array dimension: "; "unkonwn storage class: " ].

(** [reports m]: [m] leaves [error] as it is or sets it to one of
    [error_messages], followed by some text. *)
Definition reports {A : Type} (m : M A) : Prop :=
  forall d a d', m d = Done (a, d') ->
  error d' = error d \/
  exists msg tail, In msg error_messages /\ error d' = msg ++ tail.

(** No byte of [s] is 255, the byte that a signed [char] turns into the
    -1 with which [get] reports the end of the input. *)
Fixpoint no_byte_255 (s : string) : bool :=
  match s with
  | EmptyString => true
  | String c s' => negb (chr c =? 255) && no_byte_255 s'
  end.

(** [agree m1 m2]: the two do the same on an input without the byte
    255. *)
Definition agree {A : Type} (m1 m2 : M A) : Prop :=
  forall d, no_byte_255 (input d) = true -> m1 d = m2 d.

(** The number of nodes of a tree. *)
Fixpoint nodes (ty : TypeNode) : nat :=
  match ty with
  | mkType _ _ p _ _ _ _ ps =>
      S (match p with Some t => nodes t | None => O end
         + list_sum (map nodes ps))
  end.

(** [tallies f b m]: [m] takes from [type_buffer] as many nodes as the
    measure [f] of its result exceeds [b]. *)
Definition tallies {A : Type} (f : A -> nat) (b : nat) (m : M A) : Prop :=
  forall d a d', m d = Done (a, d') ->
  (f a + type_index d = b + type_index d')%nat.

(** * Properties *)

Section Properties.

Variable cs : bool.

(** ** Fuel

    More fuel refines less fuel. *)
Lemma Mle_refl {A : Type} (m : M A) : Mle m m.
Proof. intros d _. reflexivity. Qed.

Lemma Mle_bind {A B : Type} (m m' : M A) (k k' : A -> M B) :
  Mle m m' -> (forall a, Mle (k a) (k' a)) -> Mle (bind m k) (bind m' k').
Proof.
  intros Hm Hk d. unfold refines, bind. specialize (Hm d). unfold refines in Hm.
  destruct (m d) as [[a d1]| |] eqn:E.
  - rewrite Hm by discriminate. apply Hk.
  - intros H. now elim H.
  - rewrite Hm by discriminate. reflexivity.
Qed.

Lemma Mle_while {A : Type} (cond : M bool) (body body' : A -> M A) :
  (forall a, Mle (body a) (body' a)) ->
  forall n n', (n <= n')%nat ->
  forall a, Mle (while n cond body a) (while n' cond body' a).
Proof.
  intros Hb. induction n as [|n IH]; intros n' Hn a.
  - intros d H. now elim H.
  - destruct n' as [|n']; [lia|]. cbn [while].
    apply Mle_bind; [apply Mle_refl|]. intros [|]; [|apply Mle_refl].
    apply Mle_bind; [apply Hb|]. intros a'. apply IH. lia.
Qed.

Ltac mle :=
  repeat match goal with
  | |- Mle ?m ?m => apply Mle_refl
  | |- Mle (bind _ _) (bind _ _) => apply Mle_bind; [ | intros ? ]
  | |- Mle (if ?b then _ else _) (if ?b then _ else _) => destruct b
  | |- Mle (match ?x with _ => _ end) (match ?x with _ => _ end) =>
      destruct x
  | |- Mle (while _ _ _ _) (while _ _ _ _) =>
      apply Mle_while; [ intros ? | lia ]
  | H : forall n', (_ <= n')%nat -> _ |- _ => apply H; lia
  end.

Lemma read_name_loop_mono :
  forall n n', (n <= n')%nat ->
  forall v, Mle (read_name_loop n v) (read_name_loop n' v).
Proof.
  induction n as [|n IH]; intros n' Hn v.
  - intros d H. now elim H.
  - destruct n' as [|n']; [lia|]. cbn [read_name_loop]. mle.
Qed.

Lemma read_name_mono n n' :
  (n <= n')%nat -> Mle (read_name n) (read_name n').
Proof. intros. now apply read_name_loop_mono. Qed.

Lemma read_type_mono :
  forall n,
    (forall n', (n <= n')%nat ->
       forall ty, Mle (read_var_type cs n ty) (read_var_type cs n' ty)) /\
    (forall n', (n <= n')%nat ->
       forall p ty, Mle (read_class cs n p ty) (read_class cs n' p ty)).
Proof.
  induction n as [|n [IHv IHc]]; split; intros n' Hn;
    try (intros; intros d H; now elim H);
    (destruct n' as [|n']; [lia|]); intros.
  - cbn [read_var_type].
    unfold read_pointee, read_function_pointer, read_array.
    pose proof (read_name_mono n n' ltac:(lia)) as Hname.
    mle; try (apply IHc; lia); try (apply IHv; lia); try apply Hname.
  - cbn [read_class]. cbv zeta.
    pose proof (read_name_mono n n' ltac:(lia)) as Hname.
    mle; try (apply IHc; lia); try (apply IHv; lia); try apply Hname.
Qed.

Lemma read_func_return_type_mono n n' ty :
  (n <= n')%nat ->
  Mle (read_func_return_type cs n ty) (read_func_return_type cs n' ty).
Proof.
  intros Hn. unfold read_func_return_type.
  pose proof (proj1 (read_type_mono n) n' Hn) as Hv. mle. apply Hv.
Qed.

Lemma read_params_mono n n' stop :
  (n <= n')%nat -> Mle (read_params cs n stop) (read_params cs n' stop).
Proof.
  intros Hn. unfold read_params.
  pose proof (proj1 (read_type_mono n) n' Hn) as Hv. mle. apply Hv.
Qed.

Lemma parse_mono n n' :
  (n <= n')%nat -> Mle (parse cs n) (parse cs n').
Proof.
  intros Hn. unfold parse, parse_name.
  pose proof (proj1 (read_type_mono n) n' Hn) as Hv.
  pose proof (read_name_mono n n' Hn) as Hname.
  pose proof (read_func_return_type_mono n n') as Hr.
  pose proof (read_params_mono n n') as Hp.
  mle; try apply Hv; try apply Hname; try (apply Hr; lia);
    try (apply Hp; lia).
Qed.

(** A result of [demangle] does not depend on the fuel, once there is
    enough of it. *)
Lemma demangle_mono n n' s :
  (n <= n')%nat -> refines (demangle cs n s) (demangle cs n' s).
Proof.
  intros Hn H. unfold demangle in *.
  pose proof (parse_mono n n' Hn (init s)) as Hp. unfold refines in Hp.
  destruct (parse cs n (init s)) as [[u d]| |] eqn:E.
  - rewrite Hp by discriminate. reflexivity.
  - now elim H.
  - rewrite Hp by discriminate. reflexivity.
Qed.

Lemma demangle_fuel_irrelevant n n' s r r' :
  demangle cs n s = r -> demangle cs n' s = r' ->
  r <> OutOfFuel -> r' <> OutOfFuel -> r = r'.
Proof.
  intros H1 H2 N1 N2.
  destruct (Nat.le_ge_cases n n') as [L|L].
  - pose proof (demangle_mono n n' s L) as H. unfold refines in H.
    rewrite H1, H2 in H. symmetry. now apply H.
  - pose proof (demangle_mono n' n s L) as H. unfold refines in H.
    rewrite H1, H2 in H. now apply H.
Qed.

(** ** Divergence of [read_name]

    [read_string] reports a missing '@' without reading anything, and
    the loop of [read_name] does not test [error]: on an input without
    '@' that does not start with a digit the loop never ends. *)
Lemma startswith_at s : startswith s "@" = true -> find_at s = Some O.
Proof.
  destruct s as [|c s]; cbn; [discriminate|].
  destruct (Ascii.eqb c "@"); [reflexivity|discriminate].
Qed.

Lemma read_name_loop_diverges :
  forall fuel v d,
    find_at (input d) = None -> starts_with_digit (input d) = false ->
    read_name_loop fuel v d = OutOfFuel.
Proof.
  induction fuel as [|fuel IH]; intros v d Hat Hdig; [reflexivity|].
  cbn [read_name_loop]. unfold bind at 1. unfold consume at 1.
  unfold bind at 1, gets at 1.
  destruct (startswith (input d) "@") eqn:Es.
  { apply startswith_at in Es. congruence. }
  unfold ret at 1. unfold bind at 1. unfold read_name_body.
  unfold bind at 1, gets at 1. rewrite Hdig.
  unfold bind at 1, read_string. unfold bind at 1, gets at 1. rewrite Hat.
  unfold record_name, bind, gets. cbn -[read_name_loop Nat.ltb].
  destruct (_ <? 10)%nat; cbn -[read_name_loop]; apply IH; assumption.
Qed.

(** ** Invariants of the parser state

    The lemmas below hold for every [P] that survives the updates the
    parser makes: of the cursor, of the result, of the node counter, an
    error message that is not empty, and a name recorded while there
    are fewer than ten. *)
Section Invariant.

Variable P : Demangler -> Prop.
Hypothesis P_input : forall d s, P d -> P (set_input d s).
Hypothesis P_type : forall d t, P d -> P (set_type d t).
Hypothesis P_symbol : forall d v, P d -> P (set_symbol d v).
Hypothesis P_type_index : forall d n, P d -> P (set_type_index d n).
Hypothesis P_error : forall d msg, msg <> "" -> P d -> P (set_error d msg).
Hypothesis P_record :
  forall d s, (List.length (repeated_names d) < 10)%nat -> P d ->
  P (set_repeated_names d (repeated_names d ++ [s])%list).

Lemma preserves_ret {A : Type} (a : A) : preserves P (ret a).
Proof. intros d x d' [= _ <-]. trivial. Qed.

Lemma preserves_gets {A : Type} (f : Demangler -> A) : preserves P (gets f).
Proof. intros d x d' [= _ <-]. trivial. Qed.

Lemma preserves_bind {A B : Type} (m : M A) (k : A -> M B) :
  preserves P m -> (forall a, preserves P (k a)) -> preserves P (bind m k).
Proof.
  intros Hm Hk d b d' H HP. unfold bind in H.
  destruct (m d) as [[a d1]| |] eqn:E; try discriminate.
  eapply Hk; eauto.
Qed.

Lemma preserves_while {A : Type} (cond : M bool) (body : A -> M A) :
  preserves P cond -> (forall a, preserves P (body a)) ->
  forall n a, preserves P (while n cond body a).
Proof.
  intros Hc Hb. induction n as [|n IH]; intros a.
  - intros d x d' H. discriminate.
  - cbn [while]. apply preserves_bind; [assumption|].
    intros [|]; [|apply preserves_ret].
    apply preserves_bind; [apply Hb|]. intros a'. apply IH.
Qed.

Lemma preserves_out_of_fuel {A : Type} : preserves P (@out_of_fuel A).
Proof. intros d x d' H. discriminate. Qed.

Lemma preserves_trim n : preserves P (trim n).
Proof. intros d x d' [= _ <-] HP. now apply P_input. Qed.

Lemma preserves_fail msg : msg <> "" -> preserves P (fail msg).
Proof. intros Hm d x d' [= _ <-] HP. now apply P_error. Qed.

Lemma preserves_error_empty : preserves P error_empty.
Proof. apply preserves_gets. Qed.

Lemma preserves_modify_type f : preserves P (modify_type f).
Proof. intros d x d' [= _ <-] HP. now apply P_type. Qed.

Lemma preserves_set_symbol (f : Demangler -> list string) :
  preserves P (modify (fun d => set_symbol d (f d))).
Proof. intros d x d' [= _ <-] HP. now apply P_symbol. Qed.

Lemma preserves_set_input (f : Demangler -> string) :
  preserves P (modify (fun d => set_input d (f d))).
Proof. intros d x d' [= _ <-] HP. now apply P_input. Qed.

Lemma preserves_alloc : preserves P alloc.
Proof.
  intros d x d' H HP. unfold alloc in H.
  destruct (_ <? _)%nat; [|discriminate].
  injection H as _ <-. now apply P_type_index.
Qed.

Lemma preserves_record_name s : preserves P (record_name s).
Proof.
  intros d x d' H HP. unfold record_name, bind, gets in H.
  destruct (_ <? 10)%nat eqn:E.
  - injection H as _ <-. apply P_record; [|assumption].
    now apply Nat.ltb_lt.
  - injection H as _ <-. assumption.
Qed.

Ltac pres :=
  repeat match goal with
  | |- preserves _ (bind _ _) => apply preserves_bind; [ | intros ? ]
  | |- preserves _ (ret _) => apply preserves_ret
  | |- preserves _ (gets _) => apply preserves_gets
  | |- preserves _ out_of_fuel => apply preserves_out_of_fuel
  | |- preserves _ error_empty => apply preserves_error_empty
  | |- preserves _ (trim _) => apply preserves_trim
  | |- preserves _ (fail _) => apply preserves_fail; discriminate
  | |- preserves _ (modify_type _) => apply preserves_modify_type
  | |- preserves _ alloc => apply preserves_alloc
  | |- preserves _ (record_name _) => apply preserves_record_name
  | |- preserves _ (modify (fun d => set_symbol d _)) =>
      apply preserves_set_symbol
  | |- preserves _ (modify (fun d => set_input d _)) =>
      apply preserves_set_input
  | |- preserves _ (while _ _ _ _) =>
      apply preserves_while; [ | intros ? ]
  | |- preserves _ (if ?b then _ else _) => destruct b
  | |- preserves _ (match ?x with _ => _ end) => destruct x
  | H : preserves _ ?m |- preserves _ ?m => exact H
  | H : forall _, preserves _ _ |- preserves _ _ => apply H
  | H : forall _ _, preserves _ _ |- preserves _ _ => apply H
  end.

Lemma preserves_consume lit : preserves P (consume lit).
Proof. unfold consume. pres. Qed.

Lemma preserves_get : preserves P (get cs).
Proof. unfold get. pres. Qed.

Lemma preserves_unget c : preserves P (unget c).
Proof. unfold unget. pres. Qed.

Lemma preserves_read_number : preserves P read_number.
Proof.
  unfold read_number.
  apply preserves_bind; [apply preserves_consume|]. intros neg. pres.
Qed.

Lemma preserves_read_string : preserves P read_string.
Proof. unfold read_string. pres. Qed.

Lemma preserves_read_name_body v : preserves P (read_name_body v).
Proof.
  unfold read_name_body. pose proof preserves_read_string. pres.
Qed.

Lemma preserves_read_name_loop : forall n v, preserves P (read_name_loop n v).
Proof.
  induction n as [|n IH]; intros v; cbn [read_name_loop].
  - pres.
  - pose proof (preserves_consume "@"). pose proof preserves_read_name_body.
    pres.
Qed.

Lemma preserves_read_name n : preserves P (read_name n).
Proof. apply preserves_read_name_loop. Qed.

Lemma preserves_read_func_class : preserves P (read_func_class cs).
Proof.
  unfold read_func_class.
  pose proof preserves_get. pose proof preserves_unget. pres.
Qed.

Lemma preserves_read_calling_conv : preserves P (read_calling_conv cs).
Proof.
  unfold read_calling_conv.
  pose proof preserves_get. pose proof preserves_unget. pres.
Qed.

Lemma preserves_read_storage_class : preserves P (read_storage_class cs).
Proof.
  unfold read_storage_class.
  pose proof preserves_get. pose proof preserves_unget. pres.
Qed.

Lemma preserves_read_storage_class_for_return :
  preserves P read_storage_class_for_return.
Proof.
  unfold read_storage_class_for_return. pose proof preserves_consume. pres.
Qed.

Lemma preserves_read_prim_type : preserves P (read_prim_type cs).
Proof.
  unfold read_prim_type, read_prim_type_default.
  pose proof preserves_get. pose proof preserves_unget.
  pose proof preserves_consume. pres.
Qed.

Lemma preserves_read_array_lens : forall n, preserves P (read_array_lens n).
Proof.
  induction n as [|n IH]; cbn [read_array_lens];
    pose proof preserves_read_number; pres.
Qed.

Lemma preserves_read_array_qualifier : preserves P read_array_qualifier.
Proof.
  unfold read_array_qualifier, read_array_qualifier_letter.
  pose proof preserves_consume. pres.
Qed.

Lemma preserves_read_type :
  forall n,
    (forall ty, preserves P (read_var_type cs n ty)) /\
    (forall p ty, preserves P (read_class cs n p ty)).
Proof.
  pose proof preserves_consume. pose proof preserves_read_name.
  pose proof preserves_read_number. pose proof preserves_read_array_lens.
  pose proof preserves_read_array_qualifier.
  pose proof preserves_read_storage_class.
  pose proof preserves_read_prim_type. pose proof preserves_read_string.
  induction n as [|n [IHv IHc]]; split; intros.
  - cbn. pres.
  - cbn. pres.
  - cbn [read_var_type].
    unfold read_pointee, read_function_pointer, read_array. pres.
  - cbn [read_class]. cbv zeta. pres.
Qed.

Lemma preserves_read_var_type n ty : preserves P (read_var_type cs n ty).
Proof. apply preserves_read_type. Qed.

Lemma preserves_read_class n p ty : preserves P (read_class cs n p ty).
Proof. apply preserves_read_type. Qed.

Lemma preserves_read_func_return_type n ty :
  preserves P (read_func_return_type cs n ty).
Proof.
  unfold read_func_return_type.
  pose proof preserves_consume. pose proof preserves_read_var_type. pres.
Qed.

Lemma preserves_read_params n stop : preserves P (read_params cs n stop).
Proof. unfold read_params. pose proof preserves_read_var_type. pres. Qed.

Lemma preserves_parse_name n : preserves P (parse_name n).
Proof.
  unfold parse_name.
  pose proof preserves_consume. pose proof preserves_read_name. pres.
Qed.

Lemma preserves_parse n : preserves P (parse cs n).
Proof.
  unfold parse.
  pose proof preserves_consume. pose proof preserves_parse_name.
  pose proof preserves_read_var_type. pose proof preserves_read_calling_conv.
  pose proof preserves_read_storage_class_for_return.
  pose proof preserves_read_params. pose proof preserves_read_func_class.
  pose proof preserves_read_storage_class.
  pose proof preserves_read_func_return_type. pres.
Qed.

End Invariant.

(** ** Numbers *)

Ltac run :=
  repeat progress
    (unfold consume, consume_char, trim, fail, error_empty, modify_type,
       bind, gets, modify, ret;
     cbn beta match).

Lemma wrap32_small z : - 2 ^ 31 <= z < 2 ^ 31 -> wrap32 z = z.
Proof. unfold wrap32. intros H. rewrite Z.mod_small; lia. Qed.

Lemma chr_range c : 0 <= chr c < 256.
Proof. unfold chr. pose proof (N_ascii_bounded c). lia. Qed.

Lemma is_digit_range c : is_digit c = true -> 48 <= chr c <= 57.
Proof.
  unfold is_digit. intros H. apply andb_true_iff in H as [H1 H2].
  apply Z.leb_le in H1, H2. exact (conj H1 H2).
Qed.

Lemma is_hex_range c : is_hex c = true -> 65 <= chr c <= 80.
Proof.
  unfold is_hex. intros H. apply andb_true_iff in H as [H1 H2].
  apply Z.leb_le in H1, H2. exact (conj H1 H2).
Qed.

Lemma eqb_chr c k : chr c <> chr k -> Ascii.eqb c k = false.
Proof. intros H. apply Ascii.eqb_neq. intros ->. now apply H. Qed.

Lemma hex_value_from_ge s :
  forall acc, all_hex s = true -> 0 <= acc -> acc <= hex_value_from acc s.
Proof.
  induction s as [|c s IH]; intros acc Hh Ha; cbn in *; [lia|].
  apply andb_true_iff in Hh as [Hc Hs]. apply is_hex_range in Hc.
  change (chr "A") with 65.
  specialize (IH (acc * 16 + (chr c - 65)) Hs). lia.
Qed.

Lemma scan_number_hex hs rest :
  forall i acc,
    all_hex hs = true -> 0 <= acc -> hex_value_from acc hs < 2 ^ 31 ->
    scan_number (hs ++ String "@" rest) i acc
    = Some ((i + String.length hs)%nat, hex_value_from acc hs).
Proof.
  induction hs as [|c hs IH]; intros i acc Hh Ha Hv;
    cbn [scan_number append all_hex hex_value_from String.length] in *.
  - cbn. f_equal. f_equal. lia.
  - apply andb_true_iff in Hh as [Hc Hs]. rewrite Hc.
    pose proof (is_hex_range c Hc) as Hr.
    rewrite eqb_chr by (change (chr "@") with 64; lia).
    change (chr "A") with 65 in *.
    pose proof (hex_value_from_ge hs (acc * 16 + (chr c - 65)) Hs) as Hge.
    rewrite Z.shiftl_mul_pow2 by lia. change (2 ^ 4) with 16.
    rewrite wrap32_small by lia.
    rewrite IH by (assumption || lia). f_equal. f_equal. lia.
Qed.

Lemma drop_app s rest : drop (String.length s) (s ++ rest) = rest.
Proof. induction s as [|c s IH]; cbn; [destruct rest|]; auto. Qed.

Lemma drop_past_at hs rest :
  drop (String.length hs + 1) (hs ++ String "@" rest) = rest.
Proof.
  induction hs as [|c hs IH]; cbn; [destruct rest|]; auto.
Qed.

Lemma starts_with_digit_hex hs rest :
  all_hex hs = true -> starts_with_digit (hs ++ String "@" rest) = false.
Proof.
  destruct hs as [|c hs]; cbn; [reflexivity|]. intros H.
  apply andb_true_iff in H as [Hc _]. apply is_hex_range in Hc.
  unfold is_digit. change (chr "9") with 57.
  destruct (chr c <=? 57) eqn:E; [apply Z.leb_le in E; lia|].
  apply andb_false_r.
Qed.

Lemma startswith_question_hex hs rest :
  all_hex hs = true -> startswith (hs ++ String "@" rest) "?" = false.
Proof.
  destruct hs as [|c hs]; cbn; [reflexivity|]. intros H.
  apply andb_true_iff in H as [Hc _]. apply is_hex_range in Hc.
  rewrite eqb_chr by (change (chr "?") with 63; lia). reflexivity.
Qed.

(** C6, amended.  [read_number] maps a decimal digit [c] to
    [c - '0' + 1]; it maps a run of hex digits 'A'..'P' followed by '@',
    whose base-16 value is below 2^31, to that value; a leading '?'
    negates the result.  So "0" gives 1, "9" gives 10, "BA@" gives 16
    and "?BA@" gives -16. *)
Theorem read_number_value :
  forall d rest,
    (forall c, is_digit c = true ->
       (input d = String c rest ->
        read_number d = Done (chr c - chr "0" + 1, set_input d rest)) /\
       (input d = String "?" (String c rest) ->
        read_number d = Done (- (chr c - chr "0" + 1), set_input d rest))) /\
    (forall hs, all_hex hs = true -> hex_value hs < 2 ^ 31 ->
       (input d = hs ++ String "@" rest ->
        read_number d = Done (hex_value hs, set_input d rest)) /\
       (input d = String "?" (hs ++ String "@" rest) ->
        read_number d = Done (- hex_value hs, set_input d rest))).
Proof.
  intros d rest. split.
  - intros c Hc. pose proof (is_digit_range c Hc) as Hr. split; intros Hin.
    + unfold read_number. run. rewrite !Hin. cbn [startswith].
      rewrite eqb_chr by (change (chr "?") with 63; lia).
      cbn [andb starts_with_digit front_digit]. run. rewrite !Hin.
      cbn [andb starts_with_digit front_digit]. rewrite Hc.
      rewrite Hin. reflexivity.
    + unfold read_number. run. rewrite !Hin.
      cbn [startswith Ascii.eqb Bool.eqb andb]. run.
      cbn [String.length drop input set_input starts_with_digit front_digit].
      rewrite !Hin.
      cbn [String.length drop input set_input starts_with_digit front_digit].
      rewrite Hc. reflexivity.
  - intros hs Hh Hv. unfold hex_value in *.
    assert (H0 : 0 <= hex_value_from 0 hs)
      by (apply hex_value_from_ge; [assumption|lia]).
    split; intros Hin.
    + unfold read_number. run. rewrite !Hin.
      rewrite startswith_question_hex by assumption. run. rewrite !Hin.
      rewrite starts_with_digit_hex by assumption.
      rewrite scan_number_hex by (assumption || lia). run.
      cbn [Nat.add]. rewrite Hin, drop_past_at. reflexivity.
    + unfold read_number. run. rewrite !Hin.
      cbn [startswith Ascii.eqb Bool.eqb andb]. run.
      cbn [String.length drop input set_input]. rewrite !Hin.
      rewrite starts_with_digit_hex by assumption.
      rewrite scan_number_hex by (assumption || lia). run.
      cbn [Nat.add input set_input]. rewrite drop_past_at.
      rewrite wrap32_small by lia. reflexivity.
Qed.

(** ** The error slot *)

Lemma errored_preserved {A : Type} (m : M A) :
  (forall P : Demangler -> Prop,
     (forall d s, P d -> P (set_input d s)) ->
     (forall d t, P d -> P (set_type d t)) ->
     (forall d v, P d -> P (set_symbol d v)) ->
     (forall d n, P d -> P (set_type_index d n)) ->
     (forall d msg, msg <> "" -> P d -> P (set_error d msg)) ->
     (forall d s, (List.length (repeated_names d) < 10)%nat -> P d ->
        P (set_repeated_names d (repeated_names d ++ [s])%list)) ->
     preserves P m) ->
  preserves errored m.
Proof.
  intros H. apply H; unfold errored; cbn; auto.
Qed.

(** C4, amended.  Once the error slot is set it stays set: every
    [read_*] function, and [parse], entered with a message in [error]
    returns with a message in [error]; and when [parse] returns with a
    message in [error], [demangle] fails with that message. *)
Theorem error_stays_set :
  (preserves errored read_number /\
   preserves errored read_string /\
   (forall fuel, preserves errored (read_name fuel)) /\
   preserves errored (read_func_class cs) /\
   preserves errored (read_calling_conv cs) /\
   (forall fuel ty, preserves errored (read_func_return_type cs fuel ty)) /\
   preserves errored (read_storage_class cs) /\
   preserves errored read_storage_class_for_return /\
   (forall fuel ty, preserves errored (read_var_type cs fuel ty)) /\
   preserves errored (read_prim_type cs) /\
   (forall fuel p ty, preserves errored (read_class cs fuel p ty)) /\
   (forall fuel, preserves errored (parse cs fuel))) /\
  (forall fuel s u d,
     parse cs fuel (init s) = Done (u, d) -> errored d ->
     demangle cs fuel s = Done (Err (error d))).
Proof.
  split.
  - repeat split; intros; apply errored_preserved; intros.
    + now apply preserves_read_number.
    + now apply preserves_read_string.
    + now apply preserves_read_name.
    + now apply preserves_read_func_class.
    + now apply preserves_read_calling_conv.
    + now apply preserves_read_func_return_type.
    + now apply preserves_read_storage_class.
    + now apply preserves_read_storage_class_for_return.
    + now apply preserves_read_var_type.
    + now apply preserves_read_prim_type.
    + now apply preserves_read_class.
    + now apply preserves_parse.
  - intros fuel s u d Hp He. unfold demangle. rewrite Hp.
    unfold errored in He. destruct (error d); [now elim He|reflexivity].
Qed.

(** ** The back-reference table *)

Lemma table_bounded_preserved {A : Type} (m : M A) :
  (forall P : Demangler -> Prop,
     (forall d s, P d -> P (set_input d s)) ->
     (forall d t, P d -> P (set_type d t)) ->
     (forall d v, P d -> P (set_symbol d v)) ->
     (forall d n, P d -> P (set_type_index d n)) ->
     (forall d msg, msg <> "" -> P d -> P (set_error d msg)) ->
     (forall d s, (List.length (repeated_names d) < 10)%nat -> P d ->
        P (set_repeated_names d (repeated_names d ++ [s])%list)) ->
     preserves P m) ->
  preserves table_bounded m.
Proof.
  intros H. apply H; unfold table_bounded; cbn; auto.
  intros d s Hl _. rewrite length_app. cbn. lia.
Qed.

Lemma table_extends_preserved {A : Type} (m : M A) l0 :
  (forall P : Demangler -> Prop,
     (forall d s, P d -> P (set_input d s)) ->
     (forall d t, P d -> P (set_type d t)) ->
     (forall d v, P d -> P (set_symbol d v)) ->
     (forall d n, P d -> P (set_type_index d n)) ->
     (forall d msg, msg <> "" -> P d -> P (set_error d msg)) ->
     (forall d s, (List.length (repeated_names d) < 10)%nat -> P d ->
        P (set_repeated_names d (repeated_names d ++ [s])%list)) ->
     preserves P m) ->
  preserves (table_extends l0) m.
Proof.
  intros H. apply H; unfold table_extends; cbn; auto.
  intros d s _ [l Hl]. exists (l ++ [s])%list. rewrite Hl.
  now rewrite app_assoc.
Qed.

Lemma read_string_table d s' d1 :
  read_string d = Done (s', d1) -> repeated_names d1 = repeated_names d.
Proof.
  unfold read_string. run. destruct (find_at (input d)); intros [= _ <-];
    reflexivity.
Qed.

(** C8, amended.  The back-reference table holds at most 10 entries at
    the end of every parse and across every call of [read_name] and
    [read_var_type]; entries are only added at the end, so a slot keeps
    its entry.  An identifier that [read_name] reads is recorded iff
    fewer than 10 entries were recorded before, whether or not the same
    identifier is in the table already.  The digit back-reference [k]
    cites the entry of slot [k], the (k+1)-th identifier recorded, when
    there is one, and is an error otherwise.  The identifier that
    [read_class] reads after "?$", the name of a template, is not
    recorded: it is stored in the name of the node, and the arguments
    are read with the table as it was. *)
Theorem back_reference_table :
  (forall fuel s u d,
     parse cs fuel (init s) = Done (u, d) -> table_bounded d) /\
  (forall fuel,
     preserves table_bounded (read_name fuel) /\
     (forall ty, preserves table_bounded (read_var_type cs fuel ty))) /\
  (forall fuel l0,
     preserves (table_extends l0) (read_name fuel) /\
     (forall ty, preserves (table_extends l0) (read_var_type cs fuel ty)) /\
     preserves (table_extends l0) (parse cs fuel)) /\
  (forall v d s' d1,
     starts_with_digit (input d) = false ->
     read_string d = Done (s', d1) ->
     read_name_body v d
     = Done (inr (v ++ [s'])%list,
             if (List.length (repeated_names d) <? 10)%nat
             then set_repeated_names d1 (repeated_names d ++ [s'])%list
             else d1)) /\
  (forall v d,
     starts_with_digit (input d) = true ->
     let k := Z.to_nat (front_digit (input d)) in
     read_name_body v d
     = if (k <? List.length (repeated_names d))%nat
       then Done (inr (v ++ [nth k (repeated_names d) ""])%list,
                  set_input d (drop 1 (input d)))
       else Done (inl [],
                  set_error d ("name reference too large: " ++ input d))) /\
  (forall fuel prim ty d s d1,
     startswith (input d) "?$" = true ->
     read_string (set_input d (drop 2 (input d))) = Done (s, d1) ->
     repeated_names d1 = repeated_names d /\
     read_class cs (S fuel) prim ty d
     = while fuel
         (e <- error_empty ;;
          if e : bool then a <- consume "@" ;; ret (negb a) else ret false)
         (fun ty =>
            tp <- alloc ;;
            tp' <- read_var_type cs fuel tp ;;
            ret (push_param ty tp'))
         (set_name (set_prim ty prim) (name ty ++ [s])%list) d1).
Proof.
  split; [|split; [|split; [|split; [|split]]]].
  - intros fuel s u d H.
    refine (table_bounded_preserved (parse cs fuel) _ (init s) u d H _).
    + intros. now apply preserves_parse.
    + unfold table_bounded. cbn. lia.
  - intros fuel. split; intros; apply table_bounded_preserved; intros.
    + now apply preserves_read_name.
    + now apply preserves_read_var_type.
  - intros fuel l0. repeat split; intros; apply table_extends_preserved;
      intros.
    + now apply preserves_read_name.
    + now apply preserves_read_var_type.
    + now apply preserves_parse.
  - intros v d s' d1 Hd Hs. pose proof (read_string_table _ _ _ Hs) as Ht.
    unfold read_name_body. unfold bind at 1, gets at 1. rewrite Hd.
    unfold bind at 1. rewrite Hs. unfold record_name. run. rewrite Ht.
    destruct (_ <? 10)%nat; reflexivity.
  - intros v d Hd k. unfold read_name_body. run. rewrite Hd.
    assert (Hk : 0 <= front_digit (input d)).
    { destruct (input d) as [|c s]; cbn in *; [discriminate|].
      apply is_digit_range in Hd. change (chr "0") with 48. lia. }
    subst k. destruct (Z.leb_spec (Z.of_nat (List.length (repeated_names d)))
                         (front_digit (input d))) as [L|L].
    + destruct (Nat.ltb_spec (Z.to_nat (front_digit (input d)))
                  (List.length (repeated_names d))) as [L'|L']; [lia|].
      reflexivity.
    + destruct (Nat.ltb_spec (Z.to_nat (front_digit (input d)))
                  (List.length (repeated_names d))) as [L'|L']; [|lia].
      reflexivity.
  - intros fuel prim ty d s d1 Hp Hs. split.
    + exact (read_string_table _ _ _ Hs).
    + cbn [read_class]. cbv zeta.
      unfold bind at 1. unfold consume at 1. unfold bind at 1, gets at 1.
      rewrite Hp. unfold bind at 1, trim at 1, modify at 1.
      unfold ret at 1. unfold bind at 1.
      cbn [String.length]. rewrite Hs. destruct ty; reflexivity.
Qed.

(** ** Independence from the bytes that follow *)

Lemma set_input_same d : set_input d (input d) = d.
Proof. destruct d. reflexivity. Qed.

Lemma append_assoc (a b c : string) : (a ++ b) ++ c = a ++ b ++ c.
Proof. induction a as [|x a IH]; cbn; [reflexivity|]. now rewrite IH. Qed.

Lemma append_nil_r (a : string) : a ++ "" = a.
Proof. induction a as [|x a IH]; cbn; [reflexivity|]. now rewrite IH. Qed.

Lemma head_app p r r' : p <> "" -> head (p ++ r) = head (p ++ r').
Proof. destruct p; [congruence|reflexivity]. Qed.

Lemma frames1_frames {A : Type} (m : M A) : frames1 m -> frames m.
Proof.
  intros H d a d' Hm He. destruct (H d a d' Hm He) as (E & p & _ & Hp & Hr).
  split; [assumption|]. exists p. auto.
Qed.

Lemma frames_peeks {A : Type} (m : M A) : frames m -> peeks m.
Proof.
  intros H d a d' Hm He. destruct (H d a d' Hm He) as (E & p & Hp & Hr).
  split; [assumption|]. exists p. auto.
Qed.

Lemma frames_ret {A : Type} (a : A) : frames (ret a).
Proof.
  intros d x d' [= <- <-] He. split; [assumption|]. exists "".
  split; reflexivity.
Qed.

Lemma frames_gets {A : Type} (f : Demangler -> A) :
  (forall d s, f (set_input d s) = f d) -> frames (gets f).
Proof.
  intros Hf d x d' [= <- <-] He. split; [assumption|]. exists "".
  split; [reflexivity|]. intros r. unfold gets. now rewrite Hf.
Qed.

Lemma frames_modify (f : Demangler -> Demangler) :
  (forall d s, f (set_input d s) = set_input (f d) s) ->
  (forall d, input (f d) = input d) ->
  (forall d, error (f d) = error d) ->
  frames (modify f).
Proof.
  intros Hf Hi He d [] d' [= <-] E. rewrite He in E.
  split; [assumption|]. exists "". split; [now rewrite Hi|].
  intros r. unfold modify. now rewrite Hf.
Qed.

Lemma frames_fail msg : msg <> "" -> frames (fail msg).
Proof. intros Hm d [] d' [= <-] E. cbn in E. congruence. Qed.

Lemma frames_out_of_fuel {A : Type} : frames (@out_of_fuel A).
Proof. intros d x d' H. discriminate. Qed.

Lemma frames1_out_of_fuel {A : Type} : frames1 (@out_of_fuel A).
Proof. intros d x d' H. discriminate. Qed.

Lemma frames_error_empty : frames error_empty.
Proof. apply frames_gets. reflexivity. Qed.

Lemma frames_modify_type f : frames (modify_type f).
Proof. apply frames_modify; reflexivity. Qed.

Lemma frames_alloc : frames alloc.
Proof.
  intros d x d' H E. unfold alloc in H.
  destruct (type_index d <? type_buffer_size)%nat eqn:T; [|discriminate].
  injection H as <- <-. split; [assumption|]. exists "".
  split; [reflexivity|]. intros r. unfold alloc.
  cbn [type_index set_input]. rewrite T. reflexivity.
Qed.

Lemma frames_record_name s : frames (record_name s).
Proof.
  intros d [] d' H E. unfold record_name in H. revert H. run.
  destruct (_ <? 10)%nat eqn:T; intros [= <-].
  - split; [assumption|]. exists "". split; [reflexivity|]. intros r.
    unfold record_name. run. cbn [repeated_names set_input]. rewrite T.
    reflexivity.
  - split; [assumption|]. exists "". split; [reflexivity|]. intros r.
    unfold record_name. run. cbn [repeated_names set_input]. rewrite T.
    reflexivity.
Qed.

(** Sequencing. *)
Lemma frames_bind {A B : Type} (m : M A) (k : A -> M B) :
  frames m -> (forall a, frames (k a)) -> frames (bind m k).
Proof.
  intros Hm Hk d b d2 H E. unfold bind in H.
  destruct (m d) as [[a d1]| |] eqn:M; try discriminate.
  destruct (Hk a d1 b d2 H E) as (E1 & p2 & Hp2 & Hr2).
  destruct (Hm d a d1 M E1) as (E0 & p1 & Hp1 & Hr1).
  split; [assumption|]. exists (p1 ++ p2). split.
  - rewrite Hp1, Hp2. now rewrite append_assoc.
  - intros r. unfold bind. rewrite append_assoc, Hr1.
    specialize (Hr2 r). exact Hr2.
Qed.

Lemma frames1_bind_l {A B : Type} (m : M A) (k : A -> M B) :
  frames1 m -> (forall a, frames (k a)) -> frames1 (bind m k).
Proof.
  intros Hm Hk d b d2 H E. unfold bind in H.
  destruct (m d) as [[a d1]| |] eqn:M; try discriminate.
  destruct (Hk a d1 b d2 H E) as (E1 & p2 & Hp2 & Hr2).
  destruct (Hm d a d1 M E1) as (E0 & p1 & N1 & Hp1 & Hr1).
  split; [assumption|]. exists (p1 ++ p2). split; [|split].
  - destruct p1; [congruence|discriminate].
  - rewrite Hp1, Hp2. now rewrite append_assoc.
  - intros r. unfold bind. rewrite append_assoc, Hr1.
    specialize (Hr2 r). exact Hr2.
Qed.

Lemma frames1_bind_r {A B : Type} (m : M A) (k : A -> M B) :
  peeks m -> (forall a, frames1 (k a)) -> frames1 (bind m k).
Proof.
  intros Hm Hk d b d2 H E. unfold bind in H.
  destruct (m d) as [[a d1]| |] eqn:M; try discriminate.
  destruct (Hk a d1 b d2 H E) as (E1 & p2 & N2 & Hp2 & Hr2).
  destruct (Hm d a d1 M E1) as (E0 & p1 & Hp1 & Hr1).
  split; [assumption|]. exists (p1 ++ p2). split; [|split].
  - destruct p1; [assumption|discriminate].
  - rewrite Hp1, Hp2. now rewrite append_assoc.
  - intros r. unfold bind. rewrite append_assoc, Hr1.
    + specialize (Hr2 r). exact Hr2.
    + rewrite Hp2. now apply head_app.
Qed.

Lemma peeks_bind {A B : Type} (m : M A) (k : A -> M B) :
  peeks m -> (forall a, peeks (k a)) -> peeks (bind m k).
Proof.
  intros Hm Hk d b d2 H E. unfold bind in H.
  destruct (m d) as [[a d1]| |] eqn:M; try discriminate.
  destruct (Hk a d1 b d2 H E) as (E1 & p2 & Hp2 & Hr2).
  destruct (Hm d a d1 M E1) as (E0 & p1 & Hp1 & Hr1).
  split; [assumption|]. exists (p1 ++ p2). split.
  - rewrite Hp1, Hp2. now rewrite append_assoc.
  - intros r Hh. unfold bind. rewrite append_assoc, Hr1.
    + specialize (Hr2 r Hh). exact Hr2.
    + rewrite Hp2. destruct p2; [exact Hh|reflexivity].
Qed.

(** Literals at the front of the input. *)
Lemma startswith_split lit :
  forall s, startswith s lit = true -> s = lit ++ drop (String.length lit) s.
Proof.
  induction lit as [|a lit IH]; intros s H; cbn in *.
  - reflexivity.
  - destruct s as [|b s]; [discriminate|].
    apply andb_true_iff in H as [Hb Hs]. apply Ascii.eqb_eq in Hb. subst b.
    f_equal. now apply IH.
Qed.

Lemma startswith_app lit r : startswith (lit ++ r) lit = true.
Proof.
  induction lit as [|a lit IH]; cbn; [reflexivity|].
  now rewrite Ascii.eqb_refl.
Qed.

Lemma startswith_head s s' c :
  head s = head s' -> startswith s (String c "") = startswith s' (String c "").
Proof.
  destruct s, s'; cbn; intros H; try discriminate; try reflexivity.
  now injection H as ->.
Qed.

Lemma consume_run lit d :
  consume lit d
  = if startswith (input d) lit
    then Done (true, set_input d (drop (String.length lit) (input d)))
    else Done (false, d).
Proof. unfold consume. run. destruct (startswith _ _); reflexivity. Qed.

Ltac rerun :=
  repeat (unfold bind at 1; rewrite consume_run;
          cbn [input set_input startswith Ascii.eqb Bool.eqb andb
               String.length drop append]).

(** A literal that was consumed is a prefix that frames. *)
Lemma consume_true lit d d' :
  consume lit d = Done (true, d') ->
  error d' = error d /\ input d = lit ++ input d' /\
  forall r, consume lit (set_input d (lit ++ r)) = Done (true, set_input d' r).
Proof.
  rewrite consume_run. destruct (startswith (input d) lit) eqn:E;
    intros [= <-]. split; [reflexivity|]. split.
  - cbn. now apply startswith_split.
  - intros r. rewrite consume_run. cbn [input set_input].
    now rewrite startswith_app, drop_app.
Qed.

Lemma consume_false lit d d' :
  consume lit d = Done (false, d') ->
  d' = d /\ startswith (input d) lit = false.
Proof.
  rewrite consume_run. destruct (startswith (input d) lit) eqn:E;
    intros [= <-]. auto.
Qed.

Lemma consume_false_run lit d :
  startswith (input d) lit = false -> consume lit d = Done (false, d).
Proof. intros H. now rewrite consume_run, H. Qed.

Lemma peeks_consume1 c : peeks (consume (String c "")).
Proof.
  intros d [|] d' H E.
  - apply consume_true in H as (He & Hi & Hr). split; [congruence|].
    exists (String c ""). split; [assumption|]. intros r _. apply Hr.
  - apply consume_false in H as (-> & Hs). split; [assumption|].
    exists "". split; [reflexivity|]. intros r Hh. cbn [append].
    rewrite consume_run. cbn [input set_input].
    rewrite (startswith_head r (input d) c Hh), Hs.
    now rewrite <- (set_input_same d) at 2.
Qed.

(** [b <- consume c ;; if b then X else Y] for a one-byte literal. *)
Lemma frames1_consume1_if {A : Type} c (X Y : M A) :
  frames X -> frames1 Y ->
  frames1 (bind (consume (String c "")) (fun b => if b : bool then X else Y)).
Proof.
  intros HX HY d a d2 H E. unfold bind in H.
  destruct (consume (String c "") d) as [[[|] d1]| |] eqn:C; try discriminate.
  - destruct (HX d1 a d2 H E) as (E1 & p & Hp & Hr).
    apply consume_true in C as (He & Hi & Hc). split; [congruence|].
    exists (String c p). split; [discriminate|]. split.
    + rewrite Hi, Hp. reflexivity.
    + intros r. unfold bind. cbn [append]. 
      change (String c (p ++ r)) with (String c "" ++ (p ++ r)).
      rewrite Hc. apply Hr.
  - apply consume_false in C as (-> & Hs).
    destruct (HY d a d2 H E) as (E1 & p & N & Hp & Hr).
    split; [assumption|]. exists p. split; [assumption|].
    split; [assumption|]. intros r. unfold bind.
    rewrite consume_false_run; [apply Hr|]. cbn [input set_input].
    rewrite (startswith_head _ (input d) c); [assumption|].
    rewrite Hp. now apply head_app.
Qed.

(** ** [read_number], [read_string] and [read_name] frame *)

Lemma scan_number_inv s :
  forall i acc j v,
    scan_number s i acc = Some (j, v) ->
    exists hs rest,
      s = hs ++ String "@" rest /\ all_hex hs = true /\
      j = (i + String.length hs)%nat /\
      forall r, scan_number (hs ++ String "@" r) i acc = Some (j, v).
Proof.
  induction s as [|c s IH]; intros i acc j v H; cbn in H; [discriminate|].
  destruct (Ascii.eqb_spec c "@") as [->|Hc].
  - injection H as <- <-. exists "", s. cbn. repeat split. lia.
  - destruct (is_hex c) eqn:Hh; [|discriminate].
    apply IH in H as (hs & rest & -> & Hall & -> & Hr).
    exists (String c hs), rest. cbn [append all_hex String.length].
    rewrite Hh, Hall. repeat split; [lia|]. intros r.
    cbn [scan_number]. apply Ascii.eqb_neq in Hc. rewrite Hc, Hh. apply Hr.
Qed.

Lemma frames1_read_number : frames1 read_number.
Proof.
  unfold read_number. apply frames1_bind_r; [apply peeks_consume1|].
  intros neg d a d' H E. revert H. run.
  destruct (input d) as [|c s] eqn:Hin.
  - cbn. intros [= _ <-]. discriminate.
  - cbn [starts_with_digit front_digit]. destruct (is_digit c) eqn:Hd.
    + rewrite Hin. cbn [drop]. intros [= <- <-]. split; [assumption|].
      exists (String c ""). split; [discriminate|]. split; [reflexivity|].
      intros r. run. cbn [input set_input append starts_with_digit front_digit].
      rewrite Hd. reflexivity.
    + destruct (scan_number (String c s) 0 0) as [[i v]|] eqn:Hs.
      * intros [= <- <-]. cbn [error set_input] in E. split; [assumption|].
        apply scan_number_inv in Hs as (hs & rest & Hsplit & Hall & -> & Hr).
        exists (hs ++ String "@" ""). split; [now destruct hs|].
        rewrite Hin, Hsplit. cbn [input set_input Nat.add].
        rewrite drop_past_at. split; [now rewrite append_assoc|].
        intros r. run. cbn [input set_input]. rewrite append_assoc.
        cbn [append]. rewrite starts_with_digit_hex by assumption.
        rewrite Hr. cbn [Nat.add input set_input]. rewrite drop_past_at.
        reflexivity.
      * intros [= _ <-]. discriminate.
Qed.

Lemma find_at_split s :
  forall i, find_at s = Some i ->
  s = take i s ++ String "@" (drop (i + 1) s) /\
  forall r,
    find_at (take i s ++ String "@" r) = Some i /\
    take i (take i s ++ String "@" r) = take i s /\
    drop (i + 1) (take i s ++ String "@" r) = r.
Proof.
  induction s as [|c s IH]; intros i H; cbn in H; [discriminate|].
  destruct (Ascii.eqb_spec c "@") as [->|Hc].
  - injection H as <-. cbn. split; [now destruct s|]. intros r.
    now destruct r.
  - destruct (find_at s) as [k|] eqn:F; [|discriminate].
    injection H as <-. destruct (IH k eq_refl) as (Hs & Hr).
    cbn [take drop Nat.add append]. split; [now rewrite <- Hs|].
    intros r. destruct (Hr r) as (H1 & H2 & H3). cbn [find_at].
    apply Ascii.eqb_neq in Hc. rewrite Hc, H1, H2. repeat split.
    exact H3.
Qed.

Lemma frames1_read_string : frames1 read_string.
Proof.
  intros d a d' H E. revert H. unfold read_string. run.
  destruct (find_at (input d)) as [i|] eqn:F.
  - intros [= <- <-]. cbn [error set_input] in E. split; [assumption|].
    destruct (find_at_split _ _ F) as (Hs & Hr).
    exists (take i (input d) ++ String "@" "").
    split; [now destruct (take i (input d))|].
    cbn [input set_input]. split; [now rewrite append_assoc|].
    intros r. rewrite append_assoc. cbn [append]. run.
    cbn [input set_input].
    destruct (Hr r) as (H1 & H2 & H3). rewrite H1. cbn [input set_input].
    rewrite H2, H3. reflexivity.
  - intros [= _ <-]. discriminate.
Qed.

Lemma length_append (a b : string) :
  String.length (a ++ b) = (String.length a + String.length b)%nat.
Proof. induction a as [|x a IH]; cbn; [reflexivity|]. now rewrite IH. Qed.

Lemma starts_with_digit_head s s' :
  head s = head s' -> starts_with_digit s = starts_with_digit s'.
Proof.
  destruct s, s'; cbn; intros H; try discriminate; try reflexivity.
  now injection H as ->.
Qed.

Lemma front_digit_head s s' : head s = head s' -> front_digit s = front_digit s'.
Proof.
  destruct s, s'; cbn; intros H; try discriminate; try reflexivity.
  now injection H as ->.
Qed.

Lemma frames1_read_name_body v : frames1 (read_name_body v).
Proof.
  intros d a d' H E. unfold read_name_body in H. unfold bind at 1 in H.
  unfold gets at 1 in H.
  destruct (starts_with_digit (input d)) eqn:Hd.
  - revert H. run.
    destruct (Z.of_nat (List.length (repeated_names d)) <=? _) eqn:L.
    + intros [= _ <-]. discriminate.
    + intros [= <- <-]. cbn [error set_input] in E. split; [assumption|].
      destruct (input d) as [|c s] eqn:Hin; [discriminate|].
      exists (String c ""). split; [discriminate|]. split; [reflexivity|].
      intros r. unfold read_name_body. run.
      cbn [input set_input repeated_names append starts_with_digit front_digit]
        in *.
      rewrite Hd. cbn [input set_input repeated_names]. rewrite L.
      reflexivity.
  - assert (F : frames1 (s' <- read_string ;;
                         record_name s' ;;;
                         ret (@inr (list string) _ (v ++ [s'])%list))).
    { apply frames1_bind_l; [apply frames1_read_string|]. intros s'.
      apply frames_bind; [apply frames_record_name|]. intros _.
      apply frames_ret. }
    destruct (F d a d' H E) as (E0 & p & N & Hp & Hr).
    split; [assumption|]. exists p. split; [assumption|].
    split; [assumption|]. intros r. unfold read_name_body.
    unfold bind at 1. unfold gets at 1. cbn [input set_input].
    rewrite (starts_with_digit_head _ (input d)), Hd; [apply Hr|].
    rewrite Hp. now apply head_app.
Qed.

Lemma frames1_read_name_loop : forall n v, frames1 (read_name_loop n v).
Proof.
  induction n as [|n IH]; intros v; cbn [read_name_loop].
  - apply frames1_out_of_fuel.
  - apply frames1_consume1_if; [apply frames_ret|].
    apply frames1_bind_l; [apply frames1_read_name_body|].
    intros [e|v']; [apply frames_ret|]. apply frames1_frames, IH.
Qed.

Lemma frames1_read_name n : frames1 (read_name n).
Proof. apply frames1_read_name_loop. Qed.

(** A name that does not begin with '@' takes at least two bytes. *)
Lemma read_name_long n d a d' p :
  read_name n d = Done (a, d') -> error d' = "" ->
  startswith (input d) "@" = false ->
  input d = p ++ input d' -> (2 <= String.length p)%nat.
Proof.
  unfold read_name. destruct n as [|n]; [discriminate|].
  cbn [read_name_loop]. intros H E Hs Hp. unfold bind at 1 in H.
  rewrite consume_false_run in H by assumption. unfold bind in H.
  destruct (read_name_body [] d) as [[[e|v'] d2]| |] eqn:B; try discriminate.
  - injection H as <- <-. revert B. unfold read_name_body. run.
    destruct (starts_with_digit (input d)).
    + destruct (_ <=? _); [intros [= _ <-]; discriminate E|intros [=]].
    + unfold read_string, record_name. run.
      destruct (find_at (input d)); cbn [repeated_names set_input set_error];
        destruct (_ <? 10)%nat; intros [=].
  - destruct (frames1_read_name_loop n v' d2 a d' H E) as (E2 & p2 & N2 & Hp2 & _).
    destruct (frames1_read_name_body [] d _ d2 B E2) as (_ & p1 & N1 & Hp1 & _).
    assert (L : String.length (input d)
                = (String.length p + String.length (input d'))%nat)
      by (rewrite Hp at 1; apply length_append).
    rewrite Hp1, Hp2, !length_append in L.
    destruct p1; [congruence|]. destruct p2; [congruence|].
    cbn [String.length] in L. lia.
Qed.

(** ** The single-byte tables frame *)

Lemma int_to_char_to_int c : int_to_char (char_to_int cs c) = c.
Proof.
  unfold int_to_char, char_to_int. pose proof (chr_range c) as R.
  assert (E : (if 128 <=? chr c
               then if cs then chr c - 256 else chr c
               else chr c) mod 256 = chr c).
  { destruct (128 <=? chr c); [destruct cs|].
    - replace (chr c - 256) with (chr c + (-1) * 256) by lia.
      rewrite Z.mod_add by lia. apply Z.mod_small. lia.
    - apply Z.mod_small. lia.
    - apply Z.mod_small. lia. }
  rewrite E. unfold chr. rewrite N2Z.id. apply ascii_N_embedding.
Qed.

Lemma char_to_int_minus_one c : char_to_int cs c = -1 -> chr c = 255.
Proof.
  unfold char_to_int. pose proof (chr_range c).
  destruct (128 <=? chr c); [destruct cs|]; lia.
Qed.

Lemma get_nil d : input d = "" -> get cs d = Done (-1, d).
Proof. intros H. unfold get. run. now rewrite H. Qed.

Lemma get_cons d c s :
  input d = String c s -> get cs d = Done (char_to_int cs c, set_input d s).
Proof. intros H. unfold get. run. now rewrite H. Qed.

Lemma unget_run c d :
  unget c d
  = if c =? -1 then Done (tt, d)
    else Done (tt, set_input d (String (int_to_char c) (input d))).
Proof. unfold unget. destruct (c =? -1); reflexivity. Qed.

(** After [get] and [unget] the cursor is where it was, or one byte
    further when the byte read has the value -1. *)
Lemma get_unget_cons d c s :
  input d = String c s ->
  unget (char_to_int cs c) (set_input d s)
  = Done (tt, if char_to_int cs c =? -1 then set_input d s else d).
Proof.
  intros H. rewrite unget_run. destruct (_ =? -1); [reflexivity|].
  cbn [input set_input]. rewrite int_to_char_to_int.
  destruct d. cbn in H. subst. reflexivity.
Qed.

Lemma switch_key {A : Type} (tbl : list (ascii * A)) c v :
  switch (char_to_int cs c) tbl = Some v ->
  Forall (fun kv => chr (fst kv) < 128) tbl ->
  In c (map fst tbl).
Proof.
  induction tbl as [|[k x] tbl IH]; cbn; intros H F; [discriminate|].
  inversion F as [|? ? Hk F']; subst. cbn in Hk.
  destruct (Z.eqb_spec (char_to_int cs c) (chr k)) as [E|E].
  - left. unfold char_to_int in E. pose proof (chr_range c).
    pose proof (chr_range k).
    assert (E' : chr c = chr k)
      by (destruct (128 <=? chr c) eqn:L;
          [apply Z.leb_le in L; destruct cs; lia|assumption]).
    unfold chr in E'. apply N2Z.inj in E'.
    rewrite <- (ascii_N_embedding k), <- (ascii_N_embedding c).
    now rewrite E'.
  - right. now apply IH.
Qed.

Lemma peeks_read_storage_class : peeks (read_storage_class cs).
Proof.
  intros d a d' H E. unfold read_storage_class in H. unfold bind at 1 in H.
  destruct (input d) as [|c s] eqn:Hin.
  - rewrite (get_nil d Hin) in H. cbn in H. injection H as <- <-.
    split; [assumption|]. exists "". split; [now rewrite Hin|].
    intros r Hr. rewrite Hin in Hr. destruct r; [|discriminate].
    unfold read_storage_class. unfold bind at 1. cbn [append].
    rewrite (get_nil (set_input d "")) by reflexivity. cbn.
    now rewrite <- Hin, set_input_same.
  - rewrite (get_cons d c s Hin) in H.
    destruct (switch (char_to_int cs c) storage_class_table) as [sc|] eqn:S.
    + injection H as <- <-. split; [assumption|]. exists (String c "").
      split; [reflexivity|]. intros r _. unfold read_storage_class.
      unfold bind at 1. cbn [append].
      rewrite (get_cons _ c r) by reflexivity.
      rewrite S. reflexivity.
    + unfold bind in H. rewrite (get_unget_cons d c s Hin) in H.
      injection H as <- <-.
      destruct (char_to_int cs c =? -1) eqn:Hc.
      * split; [assumption|]. exists (String c "").
        split; [reflexivity|]. intros r _. unfold read_storage_class.
        unfold bind at 1. cbn [append].
        rewrite (get_cons _ c r) by reflexivity.
        rewrite S. unfold bind.
        rewrite (get_unget_cons (set_input d (String c r)) c r)
          by reflexivity.
        rewrite Hc. reflexivity.
      * split; [assumption|]. exists "". split; [now rewrite Hin|].
        intros r Hr. rewrite Hin in Hr. destruct r as [|c' r]; [discriminate|].
        injection Hr as ->. unfold read_storage_class. unfold bind at 1.
        cbn [append]. rewrite (get_cons _ c r) by reflexivity.
        rewrite S. unfold bind.
        rewrite (get_unget_cons (set_input d (String c r)) c r)
          by reflexivity.
        rewrite Hc. reflexivity.
Qed.

Lemma type_start_chr c :
  chr c <> 54 -> chr c <> 64 -> chr c <> 36 -> type_start c = true.
Proof.
  intros H1 H2 H3. unfold type_start.
  rewrite !eqb_chr; [reflexivity| | |]; assumption.
Qed.

Lemma read_prim_type_default_frames d a d' :
  read_prim_type_default d = Done (a, d') -> error d' = "" ->
  error d = "" /\
  exists x, input d = String "_" (String x (input d')) /\
    forall r,
      read_prim_type_default (set_input d (String "_" (String x r)))
      = Done (a, set_input d' r).
Proof.
  unfold read_prim_type_default. intros H E. revert H.
  unfold bind at 1. rewrite consume_run.
  destruct (startswith (input d) "_N") eqn:EN.
  { intros [= <- <-]. split; [assumption|]. exists "N"%char.
    split; [now apply startswith_split in EN|]. intros r. reflexivity. }
  unfold bind at 1. rewrite consume_run.
  destruct (startswith (input d) "_J") eqn:EJ.
  { intros [= <- <-]. split; [assumption|]. exists "J"%char.
    split; [now apply startswith_split in EJ|]. intros r. reflexivity. }
  unfold bind at 1. rewrite consume_run.
  destruct (startswith (input d) "_K") eqn:EK.
  { intros [= <- <-]. split; [assumption|]. exists "K"%char.
    split; [now apply startswith_split in EK|]. intros r. reflexivity. }
  unfold bind at 1. rewrite consume_run.
  destruct (startswith (input d) "_W") eqn:EW.
  { intros [= <- <-]. split; [assumption|]. exists "W"%char.
    split; [now apply startswith_split in EW|]. intros r. reflexivity. }
  run. intros [= _ <-]. discriminate.
Qed.

Lemma read_prim_type_frames d a d' :
  read_prim_type cs d = Done (a, d') -> error d' = "" ->
  error d = "" /\
  exists c p,
    type_start c = true /\ c <> "W"%char /\
    input d = String c (p ++ input d') /\
    forall r,
      read_prim_type cs (set_input d (String c (p ++ r)))
      = Done (a, set_input d' r).
Proof.
  intros H E. unfold read_prim_type in H. unfold bind at 1 in H.
  destruct (input d) as [|c s] eqn:Hin.
  - rewrite (get_nil d Hin) in H.
    change (switch (-1) prim_type_table) with (@None PrimTy) in H.
    unfold bind in H. rewrite unget_run in H. cbn [Z.eqb] in H.
    apply read_prim_type_default_frames in H as (_ & x & Hx & _);
      [congruence|assumption].
  - rewrite (get_cons d c s Hin) in H.
    destruct (switch (char_to_int cs c) prim_type_table) as [pr|] eqn:S.
    + injection H as <- <-. split; [assumption|]. exists c, "".
      assert (K : In c (map fst prim_type_table)).
      { apply (switch_key _ _ _ S). repeat constructor. }
      split; [|split; [|split]].
      * cbn in K. repeat (destruct K as [<-|K]; [reflexivity|]). elim K.
      * cbn in K.
        repeat (destruct K as [<-|K]; [discriminate|]). elim K.
      * reflexivity.
      * intros r. unfold read_prim_type. unfold bind at 1. cbn [append].
        rewrite (get_cons _ c r) by reflexivity. rewrite S. reflexivity.
    + unfold bind in H. rewrite (get_unget_cons d c s Hin) in H.
      destruct (char_to_int cs c =? -1) eqn:Hc.
      * apply read_prim_type_default_frames in H as (E0 & x & Hx & Hr);
          [|assumption].
        cbn [input set_input error] in *. split; [assumption|].
        exists c, (String "_" (String x "")).
        pose proof (char_to_int_minus_one c (proj1 (Z.eqb_eq _ _) Hc)) as K.
        split; [apply type_start_chr; lia|].
        split; [intros ->; discriminate K|].
        split; [now rewrite Hx|]. intros r.
        unfold read_prim_type. unfold bind at 1.
        rewrite (get_cons _ c (String "_" (String x r))) by reflexivity.
        rewrite S. unfold bind.
        rewrite (get_unget_cons _ c (String "_" (String x r)))
          by reflexivity.
        rewrite Hc. apply Hr.
      * apply read_prim_type_default_frames in H as (E0 & x & Hx & Hr);
          [|assumption].
        rewrite Hin in Hx. injection Hx as -> ->.
        split; [assumption|]. exists "_"%char, (String x "").
        split; [reflexivity|]. split; [discriminate|].
        split; [reflexivity|]. intros r.
        unfold read_prim_type. unfold bind at 1.
        rewrite (get_cons _ "_" (String x r)) by reflexivity.
        rewrite S. unfold bind.
        rewrite (get_unget_cons _ "_" (String x r)) by reflexivity.
        rewrite Hc. apply Hr.
Qed.

(** ** Loops frame *)

Lemma frames_read_array_lens : forall n, frames (read_array_lens n).
Proof.
  induction n as [|n IH]; cbn [read_array_lens]; [apply frames_ret|].
  apply frames_bind; [apply frames1_frames, frames1_read_number|]. intros l.
  apply frames_bind; [apply frames_alloc|]. intros _.
  apply frames_bind; [apply IH|]. intros ls. apply frames_ret.
Qed.

(** A loop frames when an iteration (the test, found true, and the
    body) reads at least one byte and frames, and the test, found
    false, frames. *)
Lemma frames_while {A : Type} (cond : M bool) (body : A -> M A) :
  (forall a,
     frames1 (b <- cond ;; if b : bool then body a else out_of_fuel)) ->
  (forall d d', cond d = Done (false, d') -> error d' = "" ->
     error d = "" /\
     exists p, input d = p ++ input d' /\
       forall r, cond (set_input d (p ++ r)) = Done (false, set_input d' r)) ->
  forall n a, frames (while n cond body a).
Proof.
  intros Hstep Hstop. induction n as [|n IH]; intros a.
  - apply frames_out_of_fuel.
  - intros d x d' H E. cbn [while] in H. unfold bind at 1 in H.
    destruct (cond d) as [[[|] d1]| |] eqn:C; try discriminate.
    + unfold bind in H.
      destruct (body a d1) as [[a' d2]| |] eqn:B; try discriminate.
      destruct (IH a' d2 x d' H E) as (E2 & p2 & Hp2 & Hr2).
      assert (G : (b <- cond ;; if b : bool then body a else out_of_fuel) d
                  = Done (a', d2)) by (unfold bind; now rewrite C).
      destruct (Hstep a d a' d2 G E2) as (E0 & p1 & N1 & Hp1 & Hr1).
      split; [assumption|]. exists (p1 ++ p2). split.
      * rewrite Hp1, Hp2. now rewrite append_assoc.
      * intros r. specialize (Hr1 (p2 ++ r)). unfold bind in Hr1.
        cbn [while]. unfold bind at 1. rewrite append_assoc.
        destruct (cond (set_input d (p1 ++ p2 ++ r))) as [[[|] dx]| |];
          try discriminate.
        unfold bind. rewrite Hr1. apply Hr2.
    + injection H as <- <-.
      destruct (Hstop d d1 C E) as (E0 & p & Hp & Hr).
      split; [assumption|]. exists p. split; [assumption|].
      intros r. cbn [while]. unfold bind. rewrite Hr. reflexivity.
Qed.

Lemma frames_type_frames1 {A : Type} (m : M A) : frames_type m -> frames1 m.
Proof.
  intros H d a d' Hm E. destruct (H d a d' Hm E) as (E0 & c & p & _ & Hp & Hr).
  split; [assumption|]. exists (String c p). split; [discriminate|].
  split; [assumption|]. exact Hr.
Qed.

(** The loop over the template arguments of [read_class]. *)
Lemma frames_template_arguments (read : TypeNode -> M TypeNode) :
  (forall t, frames1 (read t)) ->
  forall n ty,
    frames
      (while n
         (e <- error_empty ;;
          if e : bool then a <- consume "@" ;; ret (negb a) else ret false)
         (fun ty => tp <- alloc ;; tp' <- read tp ;; ret (push_param ty tp'))
         ty).
Proof.
  intros Hread. apply frames_while.
  - intros a. apply frames1_bind_r.
    + apply peeks_bind; [apply frames_peeks, frames_error_empty|].
      intros [|]; [|apply frames_peeks, frames_ret].
      apply peeks_bind; [apply peeks_consume1|]. intros b.
      apply frames_peeks, frames_ret.
    + intros [|]; [|apply frames1_out_of_fuel].
      apply frames1_bind_r; [apply frames_peeks, frames_alloc|]. intros tp.
      apply frames1_bind_l; [apply Hread|]. intros tp'. apply frames_ret.
  - intros d d' H E. revert H. unfold bind at 1, error_empty, gets.
    destruct (error d) eqn:Ed; [|intros [= <-]; congruence].
    unfold bind. rewrite consume_run.
    destruct (startswith (input d) "@") eqn:S; [|discriminate].
    intros [= <-]. split; [reflexivity|]. exists "@".
    split; [now apply startswith_split in S|]. intros r.
    cbn [error input set_input]. rewrite Ed, consume_run. reflexivity.
Qed.

(** The loop over the parameters of a pointer to function. *)
Lemma frames_function_parameters (read : TypeNode -> M TypeNode) :
  (forall t, frames_type (read t)) ->
  forall n fn,
    frames
      (while n
         (e <- error_empty ;;
          if e : bool then
            a <- consume "@Z" ;;
            if a : bool then ret false else
            z <- consume "Z" ;;
            ret (negb z)
          else ret false)
         (fun fn => tp <- alloc ;; tp' <- read tp ;; ret (push_param fn tp'))
         fn).
Proof.
  intros Hread. apply frames_while.
  - intros a d x d' H E. revert H. unfold bind at 1. unfold bind at 1.
    unfold error_empty, gets.
    destruct (error d) eqn:Ed.
    2:{ cbn. discriminate. }
    unfold bind at 1. rewrite consume_run.
    destruct (startswith (input d) "@Z") eqn:SA; [discriminate|].
    unfold bind at 1. rewrite consume_run.
    destruct (startswith (input d) "Z") eqn:SZ; [discriminate|].
    cbn [negb ret]. intros H.
    assert (F : frames_type (tp <- alloc ;; tp' <- read tp ;;
                             ret (push_param a tp'))).
    { intros d0 a0 d0' H0 E0. unfold bind at 1 in H0.
      destruct (alloc d0) as [[tp d1]| |] eqn:Al; try discriminate.
      unfold bind in H0.
      destruct (read tp d1) as [[tp' d2]| |] eqn:R; try discriminate.
      injection H0 as <- <-.
      destruct (Hread tp d1 tp' d2 R E0) as (E1 & c & p & Hc & Hp & Hr).
      destruct (frames_alloc d0 tp d1 Al E1) as (E00 & p0 & Hp0 & Hr0).
      assert (p0 = "") as ->.
      { unfold alloc in Al. destruct (_ <? _)%nat; [|discriminate].
        injection Al as _ <-. cbn in Hp0.
        assert (L : String.length (input d0)
                    = (String.length p0 + String.length (input d0))%nat)
          by (rewrite Hp0 at 1; apply length_append).
        destruct p0; [reflexivity|cbn in L; lia]. }
      split; [assumption|]. exists c, p. split; [assumption|].
      split; [now rewrite Hp0, Hp|]. intros r. unfold bind at 1.
      specialize (Hr0 (String c (p ++ r))). cbn [append] in Hr0.
      rewrite Hr0. unfold bind. rewrite Hr. reflexivity. }
    destruct (F d x d' H E) as (E0 & c & p & Hc & Hp & Hr).
    split; [reflexivity|]. exists (String c p). split; [discriminate|].
    split; [assumption|]. intros r. cbn [append].
    unfold bind at 1. unfold bind at 1. unfold error_empty, gets.
    cbn [error set_input]. rewrite Ed. unfold bind at 1.
    rewrite consume_run. cbn [input set_input startswith].
    unfold type_start in Hc. apply andb_true_iff in Hc as [Hc _].
    apply andb_true_iff in Hc as [_ Hc]. apply negb_true_iff in Hc.
    rewrite Hc. cbn [andb]. unfold bind at 1. rewrite consume_run.
    cbn [input set_input startswith]. rewrite Hp in SZ.
    cbn [startswith] in SZ. rewrite SZ. apply Hr.
  - intros d d' H E. revert H. unfold bind at 1, error_empty, gets.
    destruct (error d) eqn:Ed; [|intros [= <-]; congruence].
    unfold bind at 1. rewrite consume_run.
    destruct (startswith (input d) "@Z") eqn:SA.
    + intros [= <-]. split; [reflexivity|]. exists "@Z".
      split; [now apply startswith_split in SA|]. intros r.
      unfold bind at 1. cbn [error input set_input]. rewrite Ed.
      unfold bind. rewrite consume_run. reflexivity.
    + unfold bind. rewrite consume_run.
      destruct (startswith (input d) "Z") eqn:SZ; [|discriminate].
      intros [= <-]. split; [reflexivity|]. exists "Z".
      split; [now apply startswith_split in SZ|]. intros r.
      cbn [error input set_input]. rewrite Ed.
      rewrite !consume_run. reflexivity.
Qed.

(** ** The cases of [read_var_type] frame *)

Lemma read_storage_class_6 d s :
  input d = String "6" s -> read_storage_class cs d = Done (0, d).
Proof.
  intros Hin. unfold read_storage_class. unfold bind at 1.
  rewrite (get_cons d _ _ Hin).
  change (switch (char_to_int cs "6") storage_class_table) with (@None Z).
  unfold bind. rewrite (get_unget_cons d _ _ Hin).
  change (char_to_int cs "6" =? -1) with false. reflexivity.
Qed.

Lemma alloc_input d a d' : alloc d = Done (a, d') -> input d' = input d.
Proof.
  unfold alloc. destruct (_ <? _)%nat; [|discriminate].
  now intros [= _ <-].
Qed.

Lemma frames1_read_pointee (read : TypeNode -> M TypeNode) ty :
  (forall t, frames_type (read t)) -> frames1 (read_pointee cs read ty).
Proof.
  intros Hread. unfold read_pointee.
  apply frames1_bind_r; [apply peeks_consume1|]. intros _.
  apply frames1_bind_r; [apply frames_peeks, frames_alloc|]. intros p.
  apply frames1_bind_r; [apply peeks_read_storage_class|]. intros sc.
  apply frames1_bind_l; [apply frames_type_frames1, Hread|]. intros p'.
  apply frames_ret.
Qed.

(** No pointee begins with '6': after "P", the bytes "6A" are only read
    as the tag of a pointer to function. *)
Lemma read_pointee_not_6 (read : TypeNode -> M TypeNode) ty d a d' s :
  (forall t, frames_type (read t)) ->
  read_pointee cs read ty d = Done (a, d') -> error d' = "" ->
  input d <> String "6" s.
Proof.
  intros Hread H E Hin. unfold read_pointee in H. unfold bind at 1 in H.
  rewrite consume_run, Hin in H. cbn [startswith Ascii.eqb Bool.eqb andb] in H.
  unfold bind at 1 in H.
  destruct (alloc d) as [[p d1]| |] eqn:Al; try discriminate.
  pose proof (alloc_input _ _ _ Al) as Hi. rewrite Hin in Hi.
  unfold bind at 1 in H. rewrite (read_storage_class_6 d1 s Hi) in H.
  unfold bind in H.
  destruct (read (set_sclass p 0) d1) as [[p' d2]| |] eqn:R; try discriminate.
  injection H as <- <-.
  destruct (Hread _ d1 p' d2 R E) as (_ & c & q & Hc & Hq & _).
  rewrite Hi in Hq. injection Hq as <- _. discriminate Hc.
Qed.

Lemma frames1_read_function_pointer (read : TypeNode -> M TypeNode) n ty :
  (forall t, frames_type (read t)) ->
  frames1 (read_function_pointer read n ty).
Proof.
  intros Hread. unfold read_function_pointer.
  apply frames1_bind_r; [apply frames_peeks, frames_alloc|]. intros fn.
  apply frames1_bind_r; [apply frames_peeks, frames_alloc|]. intros r.
  apply frames1_bind_l; [apply frames_type_frames1, Hread|]. intros r'.
  apply frames_bind; [now apply frames_function_parameters|]. intros fn'.
  apply frames_ret.
Qed.

Lemma peeks_read_array_qualifier_letter : peeks read_array_qualifier_letter.
Proof.
  unfold read_array_qualifier_letter.
  repeat (apply peeks_bind; [apply peeks_consume1|];
          intros [|]; [apply frames_peeks, frames_ret|]).
  intros d a d' H E. revert H. run. intros [= _ <-]. discriminate E.
Qed.

(** The end of the case "Y": the "$$C" block and the element type. *)
Lemma frames1_array_element (read : TypeNode -> M TypeNode)
    (K : option Z -> TypeNode -> TypeNode) :
  (forall t, frames_type (read t)) ->
  frames1 (sc <- read_array_qualifier ;; elem <- read fresh ;;
           ret (K sc elem)).
Proof.
  intros Hread d a d' H E. unfold read_array_qualifier in H.
  unfold bind at 1 in H. unfold bind at 1 in H. rewrite consume_run in H.
  destruct (startswith (input d) "$$C") eqn:S.
  - assert (F : frames1 (sc <- read_array_qualifier_letter ;;
                         elem <- read fresh ;; ret (K sc elem))).
    { apply frames1_bind_r; [apply peeks_read_array_qualifier_letter|].
      intros sc. apply frames1_bind_l; [apply frames_type_frames1, Hread|].
      intros elem. apply frames_ret. }
    destruct (F _ a d' H E) as (E0 & p & N & Hp & Hr).
    cbn [input set_input error] in *. split; [assumption|].
    apply startswith_split in S. exists ("$$C" ++ p).
    split; [discriminate|]. split; [now rewrite S at 1; rewrite Hp|].
    intros r. unfold read_array_qualifier. unfold bind at 1.
    unfold bind at 1. rewrite consume_run. cbn. apply Hr.
  - unfold bind, ret in H. cbn beta match in H.
    destruct (read fresh d) as [[elem d1]| |] eqn:R; try discriminate.
    injection H as <- <-.
    destruct (Hread _ d elem d1 R E) as (E0 & c & p & Hc & Hp & Hr).
    split; [assumption|]. exists (String c p). split; [discriminate|].
    split; [assumption|]. intros r. unfold read_array_qualifier.
    unfold bind at 1. unfold bind at 1. rewrite consume_run.
    cbn [input set_input append startswith].
    unfold type_start in Hc. apply andb_true_iff in Hc as [_ Hc].
    apply negb_true_iff in Hc. rewrite Hc. cbn [andb]. unfold bind, ret.
    cbn beta match. cbn [append] in Hr. rewrite Hr. reflexivity.
Qed.

Lemma frames1_read_array (read : TypeNode -> M TypeNode) ty :
  (forall t, frames_type (read t)) -> frames1 (read_array read ty).
Proof.
  intros Hread. unfold read_array.
  apply frames1_bind_l; [apply frames1_read_number|]. intros dimension.
  destruct (dimension <=? 0).
  - apply frames_bind; [apply frames_fail; discriminate|]. intros _.
    apply frames_ret.
  - apply frames_bind; [apply frames_read_array_lens|]. intros lens.
    apply frames1_frames.
    apply (frames1_array_element read
             (fun sc elem =>
                array_chain
                  match sc with Some c => set_sclass ty c | None => ty end
                  lens elem)).
    assumption.
Qed.

Lemma startswith_long lit :
  forall p x r, (String.length lit <= String.length p)%nat ->
  startswith (p ++ r) lit = startswith (p ++ x) lit.
Proof.
  induction lit as [|a lit IH]; intros p x r L; cbn; [reflexivity|].
  destruct p as [|b p]; cbn in *; [lia|].
  rewrite (IH p x r) by lia. reflexivity.
Qed.

Lemma frames1_name_of_class n (K : list string -> TypeNode) d a d' :
  (nm <- read_name n ;; ret (K nm)) d = Done (a, d') -> error d' = "" ->
  startswith (input d) "?$" = false ->
  error d = "" /\
  exists p, p <> "" /\ input d = p ++ input d' /\
    forall r,
      startswith (p ++ r) "?$" = false /\
      (nm <- read_name n ;; ret (K nm)) (set_input d (p ++ r))
      = Done (a, set_input d' r).
Proof.
  intros H E S.
  assert (F : frames1 (nm <- read_name n ;; ret (K nm))).
  { apply frames1_bind_l; [apply frames1_read_name|]. intros nm.
    apply frames_ret. }
  destruct (F d a d' H E) as (E0 & p & N & Hp & Hr).
  split; [assumption|]. exists p. split; [assumption|].
  split; [assumption|]. intros r. split; [|apply Hr].
  destruct (startswith (input d) "@") eqn:SA.
  - rewrite Hp in SA. destruct p as [|c p]; [congruence|].
    cbn in SA. apply andb_true_iff in SA as [SA _].
    apply Ascii.eqb_eq in SA. subst c. reflexivity.
  - unfold bind in H.
    destruct (read_name n d) as [[nm d1]| |] eqn:R; try discriminate.
    injection H as _ <-.
    pose proof (read_name_long n d nm d1 p R E SA Hp) as L.
    rewrite (startswith_long "?$" p (input d1) r) by exact L.
    now rewrite <- Hp.
Qed.

(** [read_var_type] and [read_class] frame. *)
Lemma frames_read_type :
  forall n,
    (forall ty, frames_type (read_var_type cs n ty)) /\
    (forall p ty, frames1 (read_class cs n p ty)).
Proof.
  induction n as [|n [IHv IHc]]; split; intros;
    try (intros d a d' H; discriminate H).
  - (* read_var_type *)
    intros d a d' H E. cbn [read_var_type] in H.
    unfold bind at 1 in H. rewrite consume_run in H.
    destruct (startswith (input d) "T") eqn:ET.
    { destruct (IHc Union ty _ a d' H E) as (E0 & p & N & Hp & Hr).
      cbn [input set_input error] in E0, Hp, Hr.
      apply startswith_split in ET. rewrite Hp in ET.
      split; [assumption|]. exists "T"%char, p. split; [reflexivity|].
      split; [exact ET|]. intros r.
      cbn [read_var_type]. rerun. apply Hr. }
    unfold bind at 1 in H. rewrite consume_run in H.
    destruct (startswith (input d) "U") eqn:EU.
    { destruct (IHc Struct ty _ a d' H E) as (E0 & p & N & Hp & Hr).
      cbn [input set_input error] in E0, Hp, Hr.
      apply startswith_split in EU. rewrite Hp in EU.
      split; [assumption|]. exists "U"%char, p. split; [reflexivity|].
      split; [exact EU|]. intros r.
      cbn [read_var_type]. rerun. apply Hr. }
    unfold bind at 1 in H. rewrite consume_run in H.
    destruct (startswith (input d) "V") eqn:EV.
    { destruct (IHc Class ty _ a d' H E) as (E0 & p & N & Hp & Hr).
      cbn [input set_input error] in E0, Hp, Hr.
      apply startswith_split in EV. rewrite Hp in EV.
      split; [assumption|]. exists "V"%char, p. split; [reflexivity|].
      split; [exact EV|]. intros r.
      cbn [read_var_type]. rerun. apply Hr. }
    unfold bind at 1 in H. rewrite consume_run in H.
    destruct (startswith (input d) "W4") eqn:EW.
    { assert (F : frames1 (nm <- read_name n ;;
                           ret (set_name (set_prim ty Enum) nm))).
      { apply frames1_bind_l; [apply frames1_read_name|]. intros nm.
        apply frames_ret. }
      destruct (F _ a d' H E) as (E0 & p & N & Hp & Hr).
      cbn [input set_input error] in E0, Hp, Hr.
      apply startswith_split in EW. rewrite Hp in EW.
      split; [assumption|]. exists "W"%char, (String "4" p).
      split; [reflexivity|].
      split; [exact EW|]. intros r.
      cbn [read_var_type]. rerun. apply Hr. }
    unfold bind at 1 in H. rewrite consume_run in H.
    destruct (startswith (input d) "P6A") eqn:EF.
    { destruct (frames1_read_function_pointer _ n ty IHv _ a d' H E)
        as (E0 & p & N & Hp & Hr).
      cbn [input set_input error] in E0, Hp, Hr.
      apply startswith_split in EF. rewrite Hp in EF.
      split; [assumption|]. exists "P"%char, (String "6" (String "A" p)).
      split; [reflexivity|].
      split; [exact EF|]. intros r.
      cbn [read_var_type]. rerun. apply Hr. }
    unfold bind at 1 in H. rewrite consume_run in H.
    destruct (startswith (input d) "A") eqn:EA.
    { destruct (frames1_read_pointee _ (set_prim ty Ref) IHv _ a d' H E)
        as (E0 & p & N & Hp & Hr).
      cbn [input set_input error] in E0, Hp, Hr.
      apply startswith_split in EA. rewrite Hp in EA.
      split; [assumption|]. exists "A"%char, p. split; [reflexivity|].
      split; [exact EA|]. intros r.
      cbn [read_var_type]. rerun. apply Hr. }
    unfold bind at 1 in H. rewrite consume_run in H.
    destruct (startswith (input d) "P") eqn:EP.
    { destruct (frames1_read_pointee _ (set_prim ty Ptr) IHv _ a d' H E)
        as (E0 & p & N & Hp & Hr).
      cbn [input set_input error] in E0, Hp, Hr.
      destruct p as [|c1 p1]; [congruence|].
      assert (Hc1 : Ascii.eqb c1 "6" = false).
      { apply Ascii.eqb_neq. intros ->.
        apply (read_pointee_not_6 _ _ _ _ _ (p1 ++ input d') IHv H E).
        exact Hp. }
      apply startswith_split in EP. rewrite Hp in EP.
      split; [assumption|]. exists "P"%char, (String c1 p1).
      split; [reflexivity|].
      split; [exact EP|]. intros r.
      cbn [read_var_type]. rerun. rewrite Hc1. cbn [andb]. rerun.
      apply Hr. }
    unfold bind at 1 in H. rewrite consume_run in H.
    destruct (startswith (input d) "Q") eqn:EQ.
    { destruct (frames1_read_pointee _ (set_sclass (set_prim ty Ptr) Const)
                  IHv _ a d' H E) as (E0 & p & N & Hp & Hr).
      cbn [input set_input error] in E0, Hp, Hr.
      apply startswith_split in EQ. rewrite Hp in EQ.
      split; [assumption|]. exists "Q"%char, p. split; [reflexivity|].
      split; [exact EQ|]. intros r.
      cbn [read_var_type]. rerun. apply Hr. }
    unfold bind at 1 in H. rewrite consume_run in H.
    destruct (startswith (input d) "Y") eqn:EY.
    { destruct (frames1_read_array _ ty IHv _ a d' H E)
        as (E0 & p & N & Hp & Hr).
      cbn [input set_input error] in E0, Hp, Hr.
      apply startswith_split in EY. rewrite Hp in EY.
      split; [assumption|]. exists "Y"%char, p. split; [reflexivity|].
      split; [exact EY|]. intros r.
      cbn [read_var_type]. rerun. apply Hr. }
    unfold bind in H.
    destruct (read_prim_type cs d) as [[pr d1]| |] eqn:R; try discriminate.
    injection H as <- <-.
    destruct (read_prim_type_frames d pr d1 R E)
      as (E0 & c & p & Hc & HW & Hp & Hr).
    split; [assumption|]. exists c, p. split; [assumption|].
    split; [assumption|]. intros r.
    rewrite Hp in ET, EU, EV, EW, EF, EA, EP, EQ, EY.
    cbn [startswith] in ET, EU, EV, EA, EP, EQ, EY.
    rewrite andb_true_r in ET, EU, EV, EA, EP, EQ, EY.
    apply Ascii.eqb_neq in HW.
    cbn [read_var_type]. 
    repeat (unfold bind at 1; rewrite consume_run;
            cbn [input set_input startswith];
            rewrite ?ET, ?EU, ?EV, ?HW, ?EA, ?EP, ?EQ, ?EY; cbn [andb]).
    unfold bind. rewrite Hr. reflexivity.
  - (* read_class *)
    intros d a d' H E. cbn [read_class] in H. cbv zeta in H.
    unfold bind at 1 in H. rewrite consume_run in H.
    destruct (startswith (input d) "?$") eqn:S.
    + assert (F : frames1
                (s <- read_string ;;
                 while n
                   (e <- error_empty ;;
                    if e : bool then a <- consume "@" ;; ret (negb a)
                    else ret false)
                   (fun ty =>
                      tp <- alloc ;;
                      tp' <- read_var_type cs n tp ;;
                      ret (push_param ty tp'))
                   (set_name (set_prim ty p)
                      (name (set_prim ty p) ++ [s])%list))).
      { apply frames1_bind_l; [apply frames1_read_string|]. intros s.
        apply frames_template_arguments. intros t.
        apply frames_type_frames1, IHv. }
      destruct (F _ a d' H E) as (E0 & q & N & Hq & Hr).
      cbn [input set_input error] in E0, Hq, Hr.
      apply startswith_split in S. rewrite Hq in S.
      split; [assumption|]. exists ("?$" ++ q). split; [discriminate|].
      split; [exact S|]. intros r.
      cbn [read_class]. cbv zeta. rerun. apply Hr.
    + destruct (frames1_name_of_class n (set_name (set_prim ty p)) d a d'
                  H E S) as (E0 & q & N & Hq & Hr).
      split; [assumption|]. exists q. split; [assumption|].
      split; [assumption|]. intros r. destruct (Hr r) as (S' & Hr').
      cbn [read_class]. cbv zeta. unfold bind at 1. rewrite consume_run.
      cbn [input set_input]. rewrite S'. exact Hr'.
Qed.

(** ** Variable symbols *)

Lemma parse_name_mangled fuel s1 :
  parse_name fuel (init (String "?" s1))
  = (v <- read_name fuel ;; modify (fun d => set_symbol d v)) (init s1).
Proof. reflexivity. Qed.

Lemma frames1_name_of_symbol fuel :
  frames1 (v <- read_name fuel ;; modify (fun d => set_symbol d v)).
Proof.
  apply frames1_bind_l; [apply frames1_read_name|]. intros v.
  apply frames_modify; reflexivity.
Qed.

(** [parse] on a symbol whose body tag is '3'. *)
Lemma parse_variable fuel d d0 :
  parse_name fuel d = Done (tt, d0) ->
  startswith (input d0) "3" = true ->
  parse cs fuel d
  = match read_var_type cs fuel (type d0)
            (set_input d0 (drop 1 (input d0))) with
    | Done (ty, d') => Done (tt, set_type d' ty)
    | OutOfFuel => OutOfFuel
    | PoolOverrun => PoolOverrun
    end.
Proof.
  intros Hn H3. unfold parse. unfold bind at 1. rewrite Hn.
  unfold bind at 1. rewrite consume_run, H3. unfold bind at 1, gets.
  cbn [type set_input String.length]. unfold bind.
  destruct (read_var_type _ _ _ _) as [[ty d']| |]; reflexivity.
Qed.

(** C10.  For a variable symbol (a mangled name whose body tag is '3')
    [parse] returns as soon as the type of the variable is read; the
    bytes [rest] that remain are not looked at.  If the symbol is
    demangled, then the bytes [p] read before [rest], followed by any
    bytes whatever, are still a variable symbol and are demangled to the
    same text. *)
Theorem variable_symbol_ignores_trailing_bytes :
  forall fuel s out,
    variable_symbol fuel s ->
    demangle cs fuel s = Done (Ok out) ->
    exists p rest,
      s = p ++ rest /\
      (exists d0 ty d',
         parse_name fuel (init s) = Done (tt, d0) /\
         read_var_type cs fuel (type d0) (set_input d0 (drop 1 (input d0)))
         = Done (ty, d') /\
         parse cs fuel (init s) = Done (tt, set_type d' ty) /\
         input d' = rest) /\
      forall r,
        variable_symbol fuel (p ++ r) /\
        demangle cs fuel (p ++ r) = Done (Ok out).
Proof.
  intros fuel s out (Hq & d0 & Hn & H3) Hd.
  apply startswith_split in Hq. cbn [String.length drop append] in Hq.
  destruct s as [|q s1]; [discriminate|]. cbn [drop] in Hq.
  injection Hq as ->.
  pose proof (parse_variable fuel _ d0 Hn H3) as Hp.
  unfold demangle in Hd. rewrite Hp in Hd.
  destruct (read_var_type cs fuel (type d0)
              (set_input d0 (drop 1 (input d0)))) as [[ty d']| |] eqn:R;
    try discriminate.
  cbn [error set_type] in Hd.
  destruct (error d') eqn:E; [|discriminate].
  destruct (str (set_type d' ty)) as [out'|] eqn:S; [|discriminate].
  injection Hd as ->.
  destruct (proj1 (frames_read_type fuel) _ _ _ _ R E)
    as (E1 & c & p2 & Hc & Hp2 & Hr2).
  cbn [error input set_input] in E1, Hp2, Hr2.
  apply startswith_split in H3. cbn [String.length] in H3.
  rewrite Hp2 in H3.
  rewrite parse_name_mangled in Hn.
  destruct (frames1_name_of_symbol fuel _ _ _ Hn E1)
    as (_ & p1 & _ & Hp1 & Hr1).
  cbn [input init set_input] in Hp1, Hr1. rewrite H3 in Hp1.
  exists (String "?" (p1 ++ String "3" (String c p2))), (input d').
  split.
  { rewrite Hp1 at 1. cbn [append]. f_equal. rewrite append_assoc.
    reflexivity. }
  split.
  { exists d0, ty, d'. rewrite parse_name_mangled. repeat split; assumption. }
  intros r.
  assert (Hn' : parse_name fuel
                  (init (String "?" (p1 ++ String "3" (String c p2)) ++ r))
                = Done (tt, set_input d0 (String "3" (String c (p2 ++ r))))).
  { cbn [append]. rewrite parse_name_mangled, append_assoc. cbn [append].
    apply (Hr1 (String "3" (String c (p2 ++ r)))). }
  split.
  - split; [reflexivity|]. eexists. split; [exact Hn'|]. reflexivity.
  - unfold demangle.
    rewrite (parse_variable fuel _ _ Hn') by reflexivity.
    cbn [type input set_input drop].
    change (set_input (set_input d0 (String "3" (String c (p2 ++ r))))
              (String c (p2 ++ r)))
      with (set_input (set_input d0 (drop 1 (input d0)))
              (String c (p2 ++ r))).
    rewrite Hr2.
    cbn [error set_type set_input]. rewrite E.
    change (str (set_type (set_input d' r) ty)) with (str (set_type d' ty)).
    now rewrite S.
Qed.

(** ** The error condition of [read_number] *)

Lemma scan_number_some hs rest :
  forall i acc, all_hex hs = true ->
  exists v,
    scan_number (hs ++ String "@" rest) i acc
    = Some ((i + String.length hs)%nat, v).
Proof.
  induction hs as [|c hs IH]; intros i acc Hh;
    cbn [scan_number append all_hex String.length] in *.
  - exists acc. cbn. do 2 f_equal. lia.
  - apply andb_true_iff in Hh as [Hc Hs]. rewrite Hc.
    pose proof (is_hex_range c Hc) as Hr.
    rewrite eqb_chr by (change (chr "@") with 64; lia).
    destruct (IH (S i) (wrap32 (Z.shiftl acc 4 + (chr c - chr "A"))) Hs)
      as [v Hv].
    exists v. rewrite Hv. do 2 f_equal. lia.
Qed.

(** When [read_number] sets the error: after the optional '?', the input
    begins neither with a decimal digit nor with a run of hex digits,
    possibly empty, followed by '@'. *)
Lemma read_number_error_condition d :
  error d = "" ->
  exists a d',
    read_number d = Done (a, d') /\
    (error d' = bad_number <->
     let s := if startswith (input d) "?" then drop 1 (input d)
              else input d in
     starts_with_digit s = false /\
     forall hs rest, all_hex hs = true -> s <> hs ++ String "@" rest).
Proof.
  intros E. unfold read_number. unfold bind at 1. rewrite consume_run.
  set (s := if startswith (input d) "?" then drop 1 (input d) else input d).
  assert (K : forall neg d0, input d0 = s -> error d0 = "" ->
    exists a d',
      (s0 <- gets input ;;
       if starts_with_digit s0
       then trim 1 ;;;
            ret (if neg : bool then - (front_digit s0 + 1)
                 else front_digit s0 + 1)
       else match scan_number s0 0 0 with
            | Some (i, ret_) =>
                trim (i + 1) ;;;
                ret (if neg : bool then wrap32 (- ret_) else ret_)
            | None => fail bad_number ;;; ret 0
            end) d0 = Done (a, d') /\
      (error d' = bad_number <->
       starts_with_digit s = false /\
       forall hs rest, all_hex hs = true -> s <> hs ++ String "@" rest)).
  { intros neg d0 Hin E0. run. rewrite Hin.
    destruct (starts_with_digit s) eqn:Hd.
    - do 2 eexists. split; [reflexivity|]. cbn [error set_input].
      rewrite E0. split; [discriminate|]. intros [F _]. discriminate F.
    - destruct (scan_number s 0 0) as [[i v]|] eqn:Hs.
      + do 2 eexists. split; [reflexivity|]. cbn [error set_input].
        rewrite E0. split; [discriminate|]. intros [_ F]. exfalso.
        apply scan_number_inv in Hs as (hs & rest & Hsp & Hall & _).
        exact (F hs rest Hall Hsp).
      + do 2 eexists. split; [reflexivity|]. cbn [error set_error].
        split; [|reflexivity]. intros _. split; [reflexivity|].
        intros hs rest Hall Hsp.
        destruct (scan_number_some hs rest 0 0 Hall) as [v Hv].
        rewrite <- Hsp in Hv. congruence. }
  subst s. destruct (startswith (input d) "?").
  - apply (K true); [reflexivity|assumption].
  - apply (K false); [reflexivity|assumption].
Qed.

(** ** Evaluation at concrete symbols *)

Lemma demangle_enough n s r :
  demangle cs n s = Done r -> forall k, demangle cs (n + k) s = Done r.
Proof.
  intros H k. pose proof (demangle_mono n (n + k) s ltac:(lia)) as R.
  unfold refines in R. rewrite H in R. apply R. discriminate.
Qed.

Lemma demangle_overrun n s :
  demangle cs n s = PoolOverrun -> forall k, demangle cs (n + k) s = PoolOverrun.
Proof.
  intros H k. pose proof (demangle_mono n (n + k) s ltac:(lia)) as R.
  unfold refines in R. rewrite H in R. apply R. discriminate.
Qed.

(** C1 (the code departs from the claim).  A symbol without the leading
    '?' is not returned as it is: [parse] goes on to read a name from
    it.  "x@@3H" is demangled as the variable [int x], and on "foo" the
    loop of [read_name] never ends. *)
Theorem parse_without_question_mark_reads_on :
  (forall k, demangle cs (8 + k) "x@@3H" = Done (Ok "int x")) /\
  (forall fuel, demangle cs fuel "foo" = OutOfFuel).
Proof.
  split.
  - apply demangle_enough. vm_compute. reflexivity.
  - intros fuel. unfold demangle, parse, parse_name.
    unfold read_name, bind, consume, gets.
    cbn -[read_name_loop read_var_type read_params read_func_return_type].
    rewrite read_name_loop_diverges by reflexivity. reflexivity.
Qed.

(** C2 (the code departs from the claim).  On "?foo" the parser does not
    terminate: whatever the fuel, the loop of [read_name] uses it up. *)
Theorem read_name_never_returns_on_unterminated_name :
  forall fuel, demangle cs fuel "?foo" = OutOfFuel.
Proof.
  intros fuel. unfold demangle, parse, parse_name.
  unfold read_name, bind, consume, gets.
  cbn -[read_name_loop read_var_type read_params read_func_return_type].
  rewrite read_name_loop_diverges by reflexivity. reflexivity.
Qed.

(** C3 (the code departs from the claim).  A variable whose type has 21
    levels of pointer takes 21 nodes: the last [alloc] hands out a node
    past the 20 slots of [type_buffer], and nothing is put in
    [type_buffer2].  With 20 levels the symbol is demangled.  In any
    state with [type_index] at the size of [type_buffer], [alloc] is out
    of bounds. *)
Theorem alloc_overruns_type_buffer :
  (forall k,
     demangle cs (30 + k) "?x@@3PAPAPAPAPAPAPAPAPAPAPAPAPAPAPAPAPAPAPAPAPAH"
     = PoolOverrun) /\
  (forall k,
     demangle cs (30 + k) "?x@@3PAPAPAPAPAPAPAPAPAPAPAPAPAPAPAPAPAPAPAPAH"
     = Done (Ok "int********************x")) /\
  (forall d, alloc (set_type_index d type_buffer_size) = PoolOverrun).
Proof.
  split; [|split].
  - apply demangle_overrun. vm_compute. reflexivity.
  - apply demangle_enough. vm_compute. reflexivity.
  - intros d. reflexivity.
Qed.

Lemma demangle_g : demangle cs 8 "?g@@YAPAHH@Z" = Done (Ok "int*g(int)").
Proof. vm_compute. reflexivity. Qed.

(** C5, amended.  [demangle] applied to "?g@@YAPAHH@Z" succeeds and
    returns "int*g(int)": the printer writes no space around '*'. *)
Theorem demangle_pointer_return :
  forall k, demangle cs (8 + k) "?g@@YAPAHH@Z" = Done (Ok "int*g(int)").
Proof. apply demangle_enough. apply demangle_g. Qed.

(** C7 (the code departs from the claim).  [read_number] accepts '@'
    that no hex digit precedes and returns 0 for it, without an error:
    "?x@@3Y0@H" is demangled as an array of length 0. *)
Theorem read_number_accepts_empty_hex_run :
  read_number (init "@") = Done (0, init "") /\
  (forall k, demangle cs (8 + k) "?x@@3Y0@H" = Done (Ok "int x[0]")).
Proof.
  split; [reflexivity|]. apply demangle_enough. vm_compute. reflexivity.
Qed.

(** C9.  [demangle] applied to "??0A@@QAE@XZ" succeeds and returns
    "A::A(void)"; in general a name whose innermost fragment is "?0"
    followed by [cls] is written as its scopes followed by [cls::cls]. *)
Theorem demangle_constructor :
  (forall k, demangle cs (8 + k) "??0A@@QAE@XZ" = Done (Ok "A::A(void)")) /\
  (forall cls outer os,
     write_name (("?0" ++ cls) :: outer) os
     = write_scopes outer (write_space os) ++ cls ++ "::" ++ cls).
Proof.
  split.
  - apply demangle_enough. vm_compute. reflexivity.
  - intros cls outer os. reflexivity.
Qed.

(** ** The cursor and the node counter

    No reader steps the cursor back over a byte it did not read itself,
    and [type_index] never decreases. *)
Lemma take_drop n : forall s, s = take n s ++ drop n s.
Proof.
  induction n as [|n IH]; intros [|c s]; cbn; try reflexivity.
  f_equal. apply IH.
Qed.

Lemma advances_ret {A : Type} (a : A) : advances (ret a).
Proof. intros d x d' [= _ <-]. split; [now exists ""|lia]. Qed.

Lemma advances_gets {A : Type} (f : Demangler -> A) : advances (gets f).
Proof. intros d x d' [= _ <-]. split; [now exists ""|lia]. Qed.

Lemma advances_out_of_fuel {A : Type} : advances (@out_of_fuel A).
Proof. intros d x d' H. discriminate. Qed.

Lemma advances_modify (f : Demangler -> Demangler) :
  (forall d, input (f d) = input d) ->
  (forall d, type_index (f d) = type_index d) ->
  advances (modify f).
Proof.
  intros Hi Ht d x d' [= _ <-]. rewrite Hi, Ht. split; [now exists ""|lia].
Qed.

Lemma advances_trim n : advances (trim n).
Proof.
  intros d x d' [= _ <-]. cbn. split; [|lia].
  exists (take n (input d)). apply take_drop.
Qed.

Lemma advances_fail msg : advances (fail msg).
Proof. now apply advances_modify. Qed.

Lemma advances_modify_type f : advances (modify_type f).
Proof. now apply advances_modify. Qed.

Lemma advances_alloc : advances alloc.
Proof.
  intros d x d' H. unfold alloc in H.
  destruct (_ <? _)%nat; [|discriminate].
  injection H as _ <-. cbn. split; [now exists ""|lia].
Qed.

Lemma advances_record_name s : advances (record_name s).
Proof.
  intros d x d' H. unfold record_name, bind, gets in H.
  destruct (_ <? 10)%nat; injection H as _ <-; cbn;
    (split; [now exists ""|lia]).
Qed.

Lemma advances_bind {A B : Type} (m : M A) (k : A -> M B) :
  advances m -> (forall a, advances (k a)) -> advances (bind m k).
Proof.
  intros Hm Hk d b d' H. unfold bind in H.
  destruct (m d) as [[a d1]| |] eqn:E; try discriminate.
  destruct (Hm _ _ _ E) as [[p Hp] Hn].
  destruct (Hk _ _ _ _ H) as [[q Hq] Hn'].
  split; [|lia]. exists (p ++ q). rewrite Hp, Hq. now rewrite append_assoc.
Qed.

Lemma advances_while {A : Type} (cond : M bool) (body : A -> M A) :
  advances cond -> (forall a, advances (body a)) ->
  forall n a, advances (while n cond body a).
Proof.
  intros Hc Hb. induction n as [|n IH]; intros a.
  - intros d x d' H. discriminate.
  - cbn [while]. apply advances_bind; [assumption|].
    intros [|]; [|apply advances_ret].
    apply advances_bind; [apply Hb|]. intros a'. apply IH.
Qed.

(** A [switch] over the byte that [get] returned, whose [default] case
    begins with [unget]. *)
Lemma advances_switch {A B : Type} (tbl : list (ascii * A)) (K : A -> M B)
    (D : M B) :
  (forall x, advances (K x)) -> advances D ->
  advances (c <- get cs ;;
            match switch c tbl with
            | Some x => K x
            | None => unget c ;;; D
            end).
Proof.
  intros HK HD d b d' H. unfold bind at 1 in H.
  assert (Hc : input d = "" \/ exists c s, input d = String c s)
    by (destruct (input d); eauto).
  destruct Hc as [Hin|(c & s & Hin)].
  - rewrite (get_nil d Hin) in H.
    destruct (switch (-1) tbl) as [x|].
    + exact (HK x _ _ _ H).
    + unfold bind, unget in H. cbn in H. exact (HD _ _ _ H).
  - rewrite (get_cons d c s Hin) in H.
    destruct (switch (char_to_int cs c) tbl) as [x|].
    + destruct (HK x _ _ _ H) as [[p Hp] Hn]. cbn in Hp, Hn.
      split; [|exact Hn]. exists (String c p). rewrite Hin, Hp. reflexivity.
    + unfold bind at 1 in H. rewrite (get_unget_cons d c s Hin) in H.
      destruct (char_to_int cs c =? -1).
      * destruct (HD _ _ _ H) as [[p Hp] Hn]. cbn in Hp, Hn.
        split; [|exact Hn]. exists (String c p). rewrite Hin, Hp. reflexivity.
      * exact (HD _ _ _ H).
Qed.

Ltac adv :=
  repeat match goal with
  | |- advances (c <- get _ ;; match switch c _ with _ => _ end) =>
      apply advances_switch; [ intros ? | ]
  | |- advances (bind _ _) => apply advances_bind; [ | intros ? ]
  | |- advances (ret _) => apply advances_ret
  | |- advances (gets _) => apply advances_gets
  | |- advances out_of_fuel => apply advances_out_of_fuel
  | |- advances error_empty => apply advances_gets
  | |- advances (trim _) => apply advances_trim
  | |- advances (fail _) => apply advances_fail
  | |- advances (modify_type _) => apply advances_modify_type
  | |- advances alloc => apply advances_alloc
  | |- advances (record_name _) => apply advances_record_name
  | |- advances (modify _) => apply advances_modify; reflexivity
  | |- advances (while _ _ _ _) => apply advances_while; [ | intros ? ]
  | |- advances (if ?b then _ else _) => destruct b
  | |- advances (match ?x with _ => _ end) => destruct x
  | H : advances ?m |- advances ?m => exact H
  | H : forall _, advances _ |- advances _ => apply H
  | H : forall _ _, advances _ |- advances _ => apply H
  end.

Lemma advances_consume lit : advances (consume lit).
Proof. unfold consume. adv. Qed.

Lemma advances_read_number : advances read_number.
Proof.
  unfold read_number.
  apply advances_bind; [apply advances_consume|]. intros neg. adv.
Qed.

Lemma advances_read_string : advances read_string.
Proof. unfold read_string. adv. Qed.

Lemma advances_read_name_body v : advances (read_name_body v).
Proof. unfold read_name_body. pose proof advances_read_string. adv. Qed.

Lemma advances_read_name_loop : forall n v, advances (read_name_loop n v).
Proof.
  induction n as [|n IH]; intros v; cbn [read_name_loop].
  - adv.
  - pose proof (advances_consume "@"). pose proof advances_read_name_body.
    adv.
Qed.

Lemma advances_read_name n : advances (read_name n).
Proof. apply advances_read_name_loop. Qed.

Lemma advances_read_func_class : advances (read_func_class cs).
Proof. unfold read_func_class. adv. Qed.

Lemma advances_read_calling_conv : advances (read_calling_conv cs).
Proof. unfold read_calling_conv. adv. Qed.

Lemma advances_read_storage_class : advances (read_storage_class cs).
Proof. unfold read_storage_class. adv. Qed.

Lemma advances_read_storage_class_for_return :
  advances read_storage_class_for_return.
Proof.
  unfold read_storage_class_for_return. pose proof advances_consume. adv.
Qed.

Lemma advances_read_prim_type : advances (read_prim_type cs).
Proof.
  unfold read_prim_type, read_prim_type_default.
  pose proof advances_consume. adv.
Qed.

Lemma advances_read_array_lens : forall n, advances (read_array_lens n).
Proof.
  induction n as [|n IH]; cbn [read_array_lens];
    pose proof advances_read_number; adv.
Qed.

Lemma advances_read_array_qualifier : advances read_array_qualifier.
Proof.
  unfold read_array_qualifier, read_array_qualifier_letter.
  pose proof advances_consume. adv.
Qed.

Lemma advances_read_type :
  forall n,
    (forall ty, advances (read_var_type cs n ty)) /\
    (forall p ty, advances (read_class cs n p ty)).
Proof.
  pose proof advances_consume. pose proof advances_read_name.
  pose proof advances_read_number. pose proof advances_read_array_lens.
  pose proof advances_read_array_qualifier.
  pose proof advances_read_storage_class.
  pose proof advances_read_prim_type. pose proof advances_read_string.
  induction n as [|n [IHv IHc]]; split; intros.
  - cbn. adv.
  - cbn. adv.
  - cbn [read_var_type].
    unfold read_pointee, read_function_pointer, read_array. adv.
  - cbn [read_class]. cbv zeta. adv.
Qed.

Lemma advances_read_func_return_type n ty :
  advances (read_func_return_type cs n ty).
Proof.
  unfold read_func_return_type.
  pose proof advances_consume. pose proof (proj1 (advances_read_type n)). adv.
Qed.

Lemma advances_read_params n stop : advances (read_params cs n stop).
Proof.
  unfold read_params. pose proof (proj1 (advances_read_type n)). adv.
Qed.

Lemma advances_parse_name n : advances (parse_name n).
Proof.
  unfold parse_name.
  pose proof advances_consume. pose proof advances_read_name. adv.
Qed.

Lemma advances_parse n : advances (parse cs n).
Proof.
  unfold parse.
  pose proof advances_consume. pose proof advances_parse_name.
  pose proof (proj1 (advances_read_type n)).
  pose proof advances_read_calling_conv.
  pose proof advances_read_storage_class_for_return.
  pose proof advances_read_params. pose proof advances_read_func_class.
  pose proof advances_read_storage_class.
  pose proof advances_read_func_return_type. adv.
Qed.

(** ** Well-formed trees

    What the parser builds, the printer can follow. *)
Lemma well_formed_inside ty : well_formed ty = true -> inside ty = true.
Proof.
  destruct ty as [pr sc [t|] cc fc l nm ps]; unfold inside; cbn; [trivial|].
  intros H. apply andb_true_iff in H as [_ H]. exact H.
Qed.

Lemma well_formed_intro ty :
  inside ty = true -> (ptr ty = None -> follows_ptr (prim ty) = false) ->
  well_formed ty = true.
Proof.
  destruct ty as [pr sc [t|] cc fc l nm ps]; unfold inside; cbn; [trivial|].
  intros H K. rewrite K by reflexivity. exact H.
Qed.

Lemma well_formed_set_prim ty p :
  well_formed ty = true -> follows_ptr p = false ->
  well_formed (set_prim ty p) = true.
Proof.
  intros H K. apply well_formed_inside in H. apply well_formed_intro.
  - exact H.
  - intros _. exact K.
Qed.

Lemma well_formed_set_ptr ty t :
  inside ty = true -> well_formed t = true -> well_formed (set_ptr ty t) = true.
Proof.
  unfold inside. destruct ty as [pr sc p cc fc l nm ps]. cbn.
  intros H K. apply andb_true_iff in H as [_ H]. now rewrite K, H.
Qed.

Lemma inside_push_param ty t :
  inside ty = true -> well_formed t = true -> inside (push_param ty t) = true.
Proof.
  unfold inside. destruct ty as [pr sc p cc fc l nm ps]. cbn.
  intros H K. apply andb_true_iff in H as [H1 H2].
  rewrite H1, forallb_app, H2. cbn. now rewrite K.
Qed.

Lemma well_formed_push_param ty t :
  well_formed ty = true -> well_formed t = true ->
  well_formed (push_param ty t) = true.
Proof.
  destruct ty as [pr sc p cc fc l nm ps]. cbn.
  intros H K. apply andb_true_iff in H as [H1 H2].
  rewrite H1, forallb_app, H2. cbn. now rewrite K.
Qed.

Lemma well_formed_array_chain lens :
  forall tp elem,
    inside tp = true -> well_formed elem = true ->
    (lens = [] -> well_formed tp = true) ->
    well_formed (array_chain tp lens elem) = true.
Proof.
  induction lens as [|l ls IH]; intros tp elem Ht He Hn; cbn [array_chain].
  - exact He.
  - apply well_formed_set_ptr; [exact Ht|].
    apply IH; [reflexivity|exact He|reflexivity].
Qed.

Lemma yields_ret {A : Type} (Q : A -> Prop) a : Q a -> yields Q (ret a).
Proof. intros H d x d' [= <- _]. exact H. Qed.

Lemma yields_out_of_fuel {A : Type} (Q : A -> Prop) : yields Q out_of_fuel.
Proof. intros d x d' H. discriminate. Qed.

Lemma yields_bind {A B : Type} (Q1 : A -> Prop) (Q : B -> Prop) (m : M A)
    (k : A -> M B) :
  yields Q1 m -> (forall a, Q1 a -> yields Q (k a)) -> yields Q (bind m k).
Proof.
  intros Hm Hk d b d' H. unfold bind in H.
  destruct (m d) as [[a d1]| |] eqn:E; try discriminate.
  exact (Hk a (Hm _ _ _ E) _ _ _ H).
Qed.

Lemma yields_bind_any {A B : Type} (Q : B -> Prop) (m : M A) (k : A -> M B) :
  (forall a, yields Q (k a)) -> yields Q (bind m k).
Proof.
  intros Hk. apply (yields_bind (fun _ => True)); [now intros d a d' _|].
  intros a _. apply Hk.
Qed.

Lemma yields_while {A : Type} (Q : A -> Prop) (cond : M bool)
    (body : A -> M A) :
  (forall a, Q a -> yields Q (body a)) ->
  forall n a, Q a -> yields Q (while n cond body a).
Proof.
  intros Hb. induction n as [|n IH]; intros a Ha.
  - apply yields_out_of_fuel.
  - cbn [while]. apply yields_bind_any. intros [|].
    + apply (yields_bind Q); [now apply Hb|]. intros a' Ha'. now apply IH.
    + now apply yields_ret.
Qed.

Lemma yields_alloc : yields (fun t => t = fresh) alloc.
Proof.
  intros d a d' H. unfold alloc in H.
  destruct (_ <? _)%nat; [|discriminate]. now injection H as <- _.
Qed.

Lemma switch_in {A : Type} (Q : A -> Prop) (tbl : list (ascii * A)) c v :
  Forall (fun kv => Q (snd kv)) tbl -> switch c tbl = Some v -> Q v.
Proof.
  induction 1 as [|[k x] tbl Hx _ IH]; cbn; [discriminate|].
  destruct (c =? chr k); [now intros [= <-]|exact IH].
Qed.

Lemma yields_read_prim_type :
  yields (fun p => follows_ptr p = false) (read_prim_type cs).
Proof.
  unfold read_prim_type. apply yields_bind_any. intros c.
  destruct (switch c prim_type_table) as [p|] eqn:E.
  - apply yields_ret.
    apply (switch_in (fun p => follows_ptr p = false) prim_type_table c p);
      [repeat constructor|exact E].
  - apply yields_bind_any. intros _. unfold read_prim_type_default.
    repeat (apply yields_bind_any; intros [|]; [now apply yields_ret|]).
    repeat (apply yields_bind_any; intros ?). now apply yields_ret.
Qed.

(** The loops of template arguments and of function parameters. *)
Lemma yields_parameters (read : TypeNode -> M TypeNode) (cond : M bool) :
  (forall t, well_formed t = true -> yields (fun t' => well_formed t' = true) (read t)) ->
  forall n ty, well_formed ty = true ->
  yields (fun t' => well_formed t' = true)
    (while n cond
       (fun ty => tp <- alloc ;; tp' <- read tp ;; ret (push_param ty tp')) ty).
Proof.
  intros Hr. apply yields_while. intros ty Hty.
  apply (yields_bind _ _ _ _ yields_alloc). intros tp ->.
  apply (yields_bind _ _ _ _ (Hr fresh eq_refl)). intros tp' Htp.
  apply yields_ret. now apply well_formed_push_param.
Qed.

Lemma yields_read_pointee (read : TypeNode -> M TypeNode) ty :
  (forall t, well_formed t = true -> yields (fun t' => well_formed t' = true) (read t)) ->
  inside ty = true ->
  yields (fun t' => well_formed t' = true) (read_pointee cs read ty).
Proof.
  intros Hr Hty. unfold read_pointee. apply yields_bind_any. intros _.
  apply (yields_bind _ _ _ _ yields_alloc). intros p ->.
  apply yields_bind_any. intros sc.
  apply (yields_bind _ _ _ _ (Hr (set_sclass fresh sc) eq_refl)).
  intros p' Hp. apply yields_ret. now apply well_formed_set_ptr.
Qed.

Lemma yields_read_function_pointer (read : TypeNode -> M TypeNode) n ty :
  (forall t, well_formed t = true -> yields (fun t' => well_formed t' = true) (read t)) ->
  inside ty = true ->
  yields (fun t' => well_formed t' = true) (read_function_pointer read n ty).
Proof.
  intros Hr Hty. unfold read_function_pointer.
  apply (yields_bind _ _ _ _ yields_alloc). intros fn ->.
  apply (yields_bind _ _ _ _ yields_alloc). intros r ->.
  apply (yields_bind _ _ _ _ (Hr fresh eq_refl)). intros r' Hr'.
  eapply yields_bind.
  - apply yields_parameters; [exact Hr|].
    now apply well_formed_set_ptr.
  - intros fn' Hfn. apply yields_ret. now apply well_formed_set_ptr.
Qed.

Lemma yields_read_array (read : TypeNode -> M TypeNode) ty :
  (forall t, well_formed t = true -> yields (fun t' => well_formed t' = true) (read t)) ->
  well_formed ty = true ->
  yields (fun t' => well_formed t' = true) (read_array read ty).
Proof.
  intros Hr Hty. unfold read_array. apply yields_bind_any. intros dim.
  destruct (dim <=? 0).
  - apply yields_bind_any. intros _. now apply yields_ret.
  - apply yields_bind_any. intros lens. apply yields_bind_any. intros sc.
    apply (yields_bind _ _ _ _ (Hr fresh eq_refl)). intros elem He.
    apply yields_ret. apply well_formed_array_chain.
    + destruct ty, sc; apply well_formed_inside; exact Hty.
    + exact He.
    + intros _. destruct ty, sc; exact Hty.
Qed.

Lemma yields_read_type :
  forall n,
    (forall ty, well_formed ty = true ->
       yields (fun t' => well_formed t' = true) (read_var_type cs n ty)) /\
    (forall p ty, well_formed (set_prim ty p) = true ->
       yields (fun t' => well_formed t' = true) (read_class cs n p ty)).
Proof.
  induction n as [|n [IHv IHc]]; split; intros; try apply yields_out_of_fuel.
  - pose proof (well_formed_inside ty H) as Hin.
    cbn [read_var_type].
    apply yields_bind_any; intros [|];
      [apply IHc; now apply well_formed_set_prim|].
    apply yields_bind_any; intros [|];
      [apply IHc; now apply well_formed_set_prim|].
    apply yields_bind_any; intros [|];
      [apply IHc; now apply well_formed_set_prim|].
    apply yields_bind_any; intros [|].
    { apply yields_bind_any. intros nm. apply yields_ret.
      apply (well_formed_set_prim ty Enum H eq_refl). }
    apply yields_bind_any; intros [|];
      [now apply yields_read_function_pointer|].
    apply yields_bind_any; intros [|]; [now apply yields_read_pointee|].
    apply yields_bind_any; intros [|]; [now apply yields_read_pointee|].
    apply yields_bind_any; intros [|]; [now apply yields_read_pointee|].
    apply yields_bind_any; intros [|]; [now apply yields_read_array|].
    apply (yields_bind _ _ _ _ yields_read_prim_type). intros pr Hpr.
    apply yields_ret. now apply well_formed_set_prim.
  - cbn [read_class]. cbv zeta.
    apply yields_bind_any; intros [|].
    + apply yields_bind_any. intros s.
      apply yields_parameters; [apply IHv|exact H].
    + apply yields_bind_any. intros nm. apply yields_ret. exact H.
Qed.

Lemma yields_read_array_lens :
  forall n, yields (fun ls => List.length ls = n) (read_array_lens n).
Proof.
  induction n as [|n IH]; cbn [read_array_lens].
  - now apply yields_ret.
  - apply yields_bind_any. intros l. apply yields_bind_any. intros _.
    apply (yields_bind _ _ _ _ IH). intros ls Hls. apply yields_ret.
    cbn. now rewrite Hls.
Qed.

(** ** The value of [prim] on entry

    [prim] has no initialiser in the source: a node from [alloc], and
    the member [type] until [parse] assigns it, hold whatever the memory
    held.  Where [read_var_type] returns without an error it has
    assigned [prim], so the node it returns does not depend on the
    value on entry. *)
Lemma set_prim_twice ty p0 p : set_prim (set_prim ty p0) p = set_prim ty p.
Proof. now destruct ty. Qed.

Lemma read_class_assigns_prim n p ty p0 :
  read_class cs n p (set_prim ty p0) = read_class cs n p ty.
Proof.
  destruct n; [reflexivity|]. cbn [read_class]. cbv zeta.
  now rewrite set_prim_twice.
Qed.

Lemma read_function_pointer_assigns_prim (read : TypeNode -> M TypeNode) n
    ty p0 :
  read_function_pointer read n (set_prim ty p0)
  = read_function_pointer read n ty.
Proof. unfold read_function_pointer. now destruct ty. Qed.

Lemma read_array_assigns_prim (read : TypeNode -> M TypeNode) ty p0 d t' d' :
  read_array read ty d = Done (t', d') -> error d' = "" ->
  read_array read (set_prim ty p0) d = Done (t', d').
Proof.
  unfold read_array, bind.
  destruct (read_number d) as [[dim d1]| |]; try discriminate.
  destruct (dim <=? 0) eqn:Hd.
  - unfold fail, modify, ret. intros [= _ <-]. discriminate.
  - destruct (read_array_lens _ d1) as [[lens d2]| |] eqn:E;
      try discriminate.
    pose proof (yields_read_array_lens _ _ _ _ E) as HL.
    destruct (read_array_qualifier d2) as [[sc d3]| |]; try discriminate.
    destruct (read fresh d3) as [[elem d4]| |]; try discriminate.
    intros H _. rewrite <- H. unfold ret. do 2 f_equal.
    apply Z.leb_gt in Hd.
    destruct lens as [|l ls]; [cbn in HL; lia|].
    destruct ty, sc; reflexivity.
Qed.

Lemma assigns_bind {A B : Type} (m : M A) (k1 k2 : A -> M B) d b d' :
  (forall a d1, k1 a d1 = Done (b, d') -> k2 a d1 = Done (b, d')) ->
  bind m k1 d = Done (b, d') -> bind m k2 d = Done (b, d').
Proof.
  intros Hk. unfold bind. destruct (m d) as [[a d1]| |]; try discriminate.
  apply Hk.
Qed.

Lemma read_var_type_assigns_prim n ty p0 d t' d' :
  read_var_type cs n ty d = Done (t', d') -> error d' = "" ->
  read_var_type cs n (set_prim ty p0) d = Done (t', d').
Proof.
  destruct n; [discriminate|]. intros H He. revert H.
  cbn [read_var_type].
  do 3 (apply assigns_bind; intros [|] ?;
        [rewrite read_class_assigns_prim; trivial|]).
  apply assigns_bind; intros [|] ?; [rewrite set_prim_twice; trivial|].
  apply assigns_bind; intros [|] ?;
    [rewrite read_function_pointer_assigns_prim; trivial|].
  do 3 (apply assigns_bind; intros [|] ?; [rewrite set_prim_twice; trivial|]).
  apply assigns_bind; intros [|] ?.
  { intros H. now apply read_array_assigns_prim. }
  apply assigns_bind. intros pr ?. now rewrite set_prim_twice.
Qed.

(** So a node whose [prim] has no value yet, the rest of it being well
    formed, is read into a well-formed one. *)
Lemma read_var_type_well_formed n ty d t' d' :
  inside ty = true ->
  read_var_type cs n ty d = Done (t', d') -> error d' = "" ->
  well_formed t' = true.
Proof.
  intros Hi H He.
  apply (read_var_type_assigns_prim _ _ Unknown) in H; [|exact He].
  refine (proj1 (yields_read_type n) _ _ _ _ _ H).
  apply well_formed_intro.
  - destruct ty. exact Hi.
  - intros _. now destruct ty.
Qed.

Lemma triple_bind {A B : Type} (P : Demangler -> Prop)
    (Q : A -> Demangler -> Prop) (R : B -> Demangler -> Prop) (m : M A)
    (k : A -> M B) :
  triple P m Q -> (forall a, triple (Q a) (k a) R) -> triple P (bind m k) R.
Proof.
  intros Hm Hk d b d' H HP. unfold bind in H.
  destruct (m d) as [[a d1]| |] eqn:E; try discriminate.
  exact (Hk a _ _ _ H (Hm _ _ _ E HP)).
Qed.

Lemma triple_weaken {A : Type} (P : Demangler -> Prop) (m : M A)
    (Q R : A -> Demangler -> Prop) :
  (forall a d, Q a d -> R a d) -> triple P m Q -> triple P m R.
Proof. intros H Hm d a d' E HP. apply H. exact (Hm _ _ _ E HP). Qed.

Lemma triple_modify (P : Demangler -> Prop) (Q : unit -> Demangler -> Prop) f :
  (forall d, P d -> Q tt (f d)) -> triple P (modify f) Q.
Proof. intros H d a d' [= <- <-]. apply H. Qed.

Lemma triple_keep {A : Type} (J : TypeNode -> Prop) (R : A -> Prop) (m : M A) :
  (forall t, preserves (fun d => type d = t) m) -> yields R m ->
  triple (fun d => J (type d)) m (fun a d => J (type d) /\ R a).
Proof.
  intros Hk Hy d a d' H HJ. split.
  - now rewrite (Hk (type d) _ _ _ H eq_refl).
  - exact (Hy _ _ _ H).
Qed.

Lemma triple_kept {A : Type} (J : TypeNode -> Prop) (m : M A) :
  (forall t, preserves (fun d => type d = t) m) ->
  triple (fun d => J (type d)) m (fun _ d => J (type d)).
Proof.
  intros Hk d a d' H HJ. now rewrite (Hk (type d) _ _ _ H eq_refl).
Qed.

(** The readers called by [parse] leave [type] as it is. *)
Lemma type_kept_consume lit t : preserves (fun d => type d = t) (consume lit).
Proof. apply preserves_consume. auto. Qed.

Lemma type_kept_alloc t : preserves (fun d => type d = t) alloc.
Proof. apply preserves_alloc. auto. Qed.

Lemma type_kept_read_name n t : preserves (fun d => type d = t) (read_name n).
Proof. apply preserves_read_name; auto. Qed.

Lemma type_kept_read_var_type n ty t :
  preserves (fun d => type d = t) (read_var_type cs n ty).
Proof. apply preserves_read_var_type; auto. Qed.

Lemma type_kept_read_func_return_type n ty t :
  preserves (fun d => type d = t) (read_func_return_type cs n ty).
Proof. apply preserves_read_func_return_type; auto. Qed.

Lemma type_kept_read_calling_conv t :
  preserves (fun d => type d = t) (read_calling_conv cs).
Proof. apply preserves_read_calling_conv; auto. Qed.

Lemma type_kept_read_func_class t :
  preserves (fun d => type d = t) (read_func_class cs).
Proof. apply preserves_read_func_class; auto. Qed.

Lemma type_kept_read_storage_class t :
  preserves (fun d => type d = t) (read_storage_class cs).
Proof. apply preserves_read_storage_class; auto. Qed.

Lemma type_kept_read_storage_class_for_return t :
  preserves (fun d => type d = t) read_storage_class_for_return.
Proof. apply preserves_read_storage_class_for_return; auto. Qed.

Lemma yields_read_func_return_type n ty :
  well_formed ty = true ->
  yields (fun t' => well_formed t' = true) (read_func_return_type cs n ty).
Proof.
  intros H. unfold read_func_return_type. apply yields_bind_any. intros [|].
  - apply yields_ret. now apply well_formed_set_prim.
  - apply (yields_bind _ _ _ _ (proj1 (yields_read_type n) ty H)).
    intros ty' H'. apply yields_bind_any. intros _. now apply yields_ret.
Qed.

(** The parameter loops of [parse] keep a result node that has its
    [ptr]. *)
Lemma read_params_linked n stop :
  preserves (fun d => inside (type d) = true /\ ptr (type d) <> None)
    (read_params cs n stop).
Proof.
  unfold read_params. apply preserves_while.
  - intros d a d' H. unfold bind, error_empty, gets, ret in H.
    now injection H as _ <-.
  - intros _.
    change (triple (fun d => (fun t => inside t = true /\ ptr t <> None) (type d))
              (tp <- alloc ;; tp' <- read_var_type cs n tp ;;
               modify_type (fun t => push_param t tp'))
              (fun _ d => inside (type d) = true /\ ptr (type d) <> None)).
    eapply triple_bind.
    { apply (triple_keep (fun t => inside t = true /\ ptr t <> None));
        [apply type_kept_alloc|apply yields_alloc]. }
    intros tp s0 x0 s1 H [HJ ->]. revert s0 x0 s1 H HJ.
    change (triple (fun d => (fun t => inside t = true /\ ptr t <> None) (type d))
              (tp' <- read_var_type cs n fresh ;;
               modify_type (fun t => push_param t tp'))
              (fun _ d => inside (type d) = true /\ ptr (type d) <> None)).
    eapply triple_bind.
    { apply (triple_keep (fun t => inside t = true /\ ptr t <> None));
        [intros t; apply type_kept_read_var_type|].
      apply (proj1 (yields_read_type n) fresh eq_refl). }
    intros tp'. apply triple_modify. intros d [[HI HP] Hw]. cbn. split.
    + now apply inside_push_param.
    + destruct (type d). exact HP.
Qed.

Lemma parse_name_inside n :
  preserves (fun d => inside (type d) = true) (parse_name n).
Proof.
  unfold parse_name. apply preserves_bind; [apply preserves_consume; auto|].
  assert (Hn : preserves (fun d => inside (type d) = true)
                 (v <- read_name n ;; modify (fun d => set_symbol d v))).
  { apply preserves_bind; [apply preserves_read_name; auto|].
    intros v d a d' [= _ <-]. trivial. }
  intros [|]; apply preserves_bind; try (intros _; exact Hn).
  - apply preserves_ret.
  - apply preserves_bind.
    + intros d a d' [= _ <-]. trivial.
    + intros _ d a d' [= _ <-] H. cbn. destruct (type d). exact H.
Qed.

(** The tail of the two function branches of [parse]: the node read for
    the return type is linked in, and the parameters are read. *)
Lemma parse_function_tail n stop (m : M TypeNode) :
  (forall t, preserves (fun d => type d = t) m) ->
  yields (fun t' => well_formed t' = true) m ->
  triple (fun d => inside (type d) = true)
    (r' <- m ;; modify_type (fun t => set_ptr t r') ;;; read_params cs n stop)
    (fun _ d => well_formed (type d) = true).
Proof.
  intros Hk Hy. eapply triple_bind.
  { apply (triple_keep (fun t => inside t = true)); [exact Hk|exact Hy]. }
  intros r'. eapply triple_bind.
  { apply triple_modify with
      (Q := fun _ d => inside (type d) = true /\ ptr (type d) <> None).
    intros d [HI Hw]. cbn. split.
    - apply well_formed_inside. now apply well_formed_set_ptr.
    - destruct (type d). discriminate. }
  intros ? s0 x0 s1 H HL.
  destruct (read_params_linked n stop _ _ _ H HL) as [HI HP].
  apply well_formed_intro; [exact HI|]. intros E. now elim HP.
Qed.

(** Where [parse] returns without an error, [type] is well formed,
    whatever value its [prim] had on entry. *)
Lemma parse_well_formed n :
  triple (fun d => inside (type d) = true) (parse cs n)
    (fun _ d => error d = "" -> well_formed (type d) = true).
Proof.
  unfold parse.
  apply (triple_bind _ (fun _ d => inside (type d) = true)).
  { intros d a d' H. exact (parse_name_inside n d a d' H). }
  intros _.
  apply (triple_bind _ (fun _ d => inside (type d) = true)).
  { apply (triple_kept (fun t => inside t = true)).
    intros t. apply type_kept_consume. }
  intros [|].
  { intros d a d' H Hw He. unfold bind, gets in H.
    destruct (read_var_type cs n (type d) d) as [[t' d1]| |] eqn:E;
      try discriminate.
    injection H as _ <-. cbn in He |- *.
    exact (read_var_type_well_formed n _ _ _ _ Hw E He). }
  apply (triple_bind _ (fun _ d => inside (type d) = true)).
  { apply (triple_kept (fun t => inside t = true)).
    intros t. apply type_kept_consume. }
  intros [|];
    apply (triple_weaken _ _ (fun _ d => well_formed (type d) = true));
    try (intros ? ? H _; exact H).
  - change (triple (fun d => inside (type d) = true)
      (modify_type (fun t => set_prim t Function) ;;;
       cc <- read_calling_conv cs ;;
       modify_type (fun t => set_calling_conv t cc) ;;;
       r <- alloc ;;
       sc <- read_storage_class_for_return ;;
       r' <- read_var_type cs n (set_sclass r sc) ;;
       modify_type (fun t => set_ptr t r') ;;; read_params cs n "@")
      (fun _ d => well_formed (type d) = true)).
    eapply triple_bind.
    { apply triple_modify with (Q := fun _ d => inside (type d) = true).
      intros d H. cbn. destruct (type d). exact H. }
    intros ?. eapply triple_bind.
    { apply (triple_kept (fun t => inside t = true)).
      apply type_kept_read_calling_conv. }
    intros cc. eapply triple_bind.
    { apply triple_modify with (Q := fun _ d => inside (type d) = true).
      intros d H. cbn. destruct (type d). exact H. }
    intros ?. eapply triple_bind.
    { apply (triple_keep (fun t => inside t = true));
        [apply type_kept_alloc|apply yields_alloc]. }
    intros r s0 x0 s1 H [HJ ->]. revert s0 x0 s1 H HJ.
    change (triple (fun d => inside (type d) = true)
      (sc <- read_storage_class_for_return ;;
       r' <- read_var_type cs n (set_sclass fresh sc) ;;
       modify_type (fun t => set_ptr t r') ;;; read_params cs n "@")
      (fun _ d => well_formed (type d) = true)).
    eapply triple_bind.
    { apply (triple_kept (fun t => inside t = true)).
      apply type_kept_read_storage_class_for_return. }
    intros sc. apply parse_function_tail.
    + intros t. apply type_kept_read_var_type.
    + apply (proj1 (yields_read_type n)). reflexivity.
  - change (triple (fun d => inside (type d) = true)
      (modify_type (fun t => set_prim t Function) ;;;
       fc <- read_func_class cs ;;
       modify_type (fun t => set_func_class t fc) ;;;
       consume "E" ;;;
       cc <- read_calling_conv cs ;;
       modify_type (fun t => set_calling_conv t cc) ;;;
       r <- alloc ;;
       sc <- read_storage_class cs ;;
       r' <- read_func_return_type cs n (set_sclass r sc) ;;
       modify_type (fun t => set_ptr t r') ;;; read_params cs n "Z")
      (fun _ d => well_formed (type d) = true)).
    eapply triple_bind.
    { apply triple_modify with (Q := fun _ d => inside (type d) = true).
      intros d H. cbn. destruct (type d). exact H. }
    intros ?. eapply triple_bind.
    { apply (triple_kept (fun t => inside t = true)).
      apply type_kept_read_func_class. }
    intros fc. eapply triple_bind.
    { apply triple_modify with (Q := fun _ d => inside (type d) = true).
      intros d H. cbn. destruct (type d). exact H. }
    intros ?. eapply triple_bind.
    { apply (triple_kept (fun t => inside t = true)).
      intros t. apply type_kept_consume. }
    intros ?. eapply triple_bind.
    { apply (triple_kept (fun t => inside t = true)).
      apply type_kept_read_calling_conv. }
    intros cc. eapply triple_bind.
    { apply triple_modify with (Q := fun _ d => inside (type d) = true).
      intros d H. cbn. destruct (type d). exact H. }
    intros ?. eapply triple_bind.
    { apply (triple_keep (fun t => inside t = true));
        [apply type_kept_alloc|apply yields_alloc]. }
    intros r s0 x0 s1 H [HJ ->]. revert s0 x0 s1 H HJ.
    change (triple (fun d => inside (type d) = true)
      (sc <- read_storage_class cs ;;
       r' <- read_func_return_type cs n (set_sclass fresh sc) ;;
       modify_type (fun t => set_ptr t r') ;;; read_params cs n "Z")
      (fun _ d => well_formed (type d) = true)).
    eapply triple_bind.
    { apply (triple_kept (fun t => inside t = true)).
      apply type_kept_read_storage_class. }
    intros sc. apply parse_function_tail.
    + intros t. apply type_kept_read_func_return_type.
    + apply yields_read_func_return_type. reflexivity.
Qed.

(** ** The printer *)

Lemma write_params_total ps :
  Forall (fun t => forall os,
            (exists o, write_pre t os = Some o) /\
            (exists o, write_post t os = Some o)) ps ->
  forall first os,
    exists o, write_params_with write_pre write_post ps first os = Some o.
Proof.
  induction 1 as [|t ps Ht _ IH]; intros first os; cbn [write_params_with].
  - now exists os.
  - destruct (proj1 (Ht (if first then os else os ++ ",")%string)) as [o1 E1].
    rewrite E1. cbn [obind].
    destruct (proj2 (Ht o1)) as [o2 E2]. rewrite E2. cbn [obind]. apply IH.
Qed.

Lemma write_total :
  forall ty, well_formed ty = true ->
  forall os,
    (exists o, write_pre ty os = Some o) /\
    (exists o, write_post ty os = Some o).
Proof.
  induction ty as [pr sc p cc fc l nm ps IHp IHps] using TypeNode_tree_ind.
  intros Hw os.
  cbn [well_formed] in Hw. apply andb_true_iff in Hw as [Hp Hps].
  assert (Hpar : forall first os, exists o,
             write_params_with write_pre write_post ps first os = Some o).
  { apply write_params_total. rewrite forallb_forall in Hps.
    rewrite Forall_forall in *. intros t Ht. apply IHps; auto. }
  split.
  - cbn [write_pre]; cbv zeta.
    destruct pr, p as [t|]; try discriminate Hp;
      repeat match goal with
      | |- context [write_pre t ?o] =>
          destruct (proj1 (IHp Hp o)) as [? ->]; cbn [obind]
      | |- context [write_params_with _ _ ps ?f ?o] =>
          destruct (Hpar f o) as [? ->]; cbn [obind]
      | |- context [match ps with [] => _ | _ :: _ => _ end] =>
          destruct ps
      | |- context [if ?b then _ else _] => destruct b
      | |- context [obind (Some _) _] => cbn [obind]
      | |- exists o, Some _ = Some o => eexists; reflexivity
      end.
  - cbn [write_post].
    destruct pr, p as [t|]; try discriminate Hp;
      repeat match goal with
      | |- context [write_params_with _ _ ps ?f ?o] =>
          destruct (Hpar f o) as [? ->]; cbn [obind]
      | |- exists o, write_post t ?os = Some o => exact (proj2 (IHp Hp os))
      | |- context [obind (Some _) _] => cbn [obind]
      | |- exists o, Some _ = Some o => eexists; reflexivity
      end.
Qed.

(** The printer only appends to the text written so far. *)
Lemma appends_refl (os : string) : exists suf, os = os ++ suf.
Proof. exists "". now rewrite append_nil_r. Qed.

Lemma appends_app (base os x : string) :
  (exists suf, os = base ++ suf) -> exists suf, os ++ x = base ++ suf.
Proof. intros [suf ->]. exists (suf ++ x). apply append_assoc. Qed.

Lemma appends_write_space base os :
  (exists suf, os = base ++ suf) -> exists suf, write_space os = base ++ suf.
Proof.
  intros H. unfold write_space. destruct (last_char os) as [c|]; [|exact H].
  destruct (isalpha c); [now apply appends_app|exact H].
Qed.

Lemma appends_write_scopes outer :
  forall base os,
    (exists suf, os = base ++ suf) ->
    exists suf, write_scopes outer os = base ++ suf.
Proof.
  unfold write_scopes. induction (rev outer) as [|n ns IH]; intros base os H.
  - exact H.
  - cbn [fold_left]. apply IH. now apply appends_app.
Qed.

Lemma appends_write_name nm base os :
  (exists suf, os = base ++ suf) ->
  exists suf, write_name nm os = base ++ suf.
Proof.
  intros H. destruct nm as [|n0 outer]; [exact H|]. cbn [write_name].
  pose proof (appends_write_scopes outer base _
                (appends_write_space base os H)) as K.
  repeat match goal with
  | |- context [if ?b then _ else _] => destruct b
  end; now apply appends_app.
Qed.

Lemma appends_write_params ps :
  Forall (fun t => forall os o base,
            (write_pre t os = Some o \/ write_post t os = Some o) ->
            (exists suf, os = base ++ suf) -> exists suf, o = base ++ suf) ps ->
  forall first os o base,
    write_params_with write_pre write_post ps first os = Some o ->
    (exists suf, os = base ++ suf) -> exists suf, o = base ++ suf.
Proof.
  induction 1 as [|t ps Ht _ IH]; intros first os o base;
    cbn [write_params_with].
  - now intros [= <-].
  - intros H B.
    destruct (write_pre t _) as [o1|] eqn:E1; [|discriminate]. cbn [obind] in H.
    destruct (write_post t o1) as [o2|] eqn:E2; [|discriminate].
    cbn [obind] in H. apply (IH _ _ _ _ H).
    apply (Ht _ _ _ (or_intror E2)). apply (Ht _ _ _ (or_introl E1)).
    destruct first; [exact B|now apply appends_app].
Qed.

Lemma appends_write :
  forall ty os o base,
    (write_pre ty os = Some o \/ write_post ty os = Some o) ->
    (exists suf, os = base ++ suf) -> exists suf, o = base ++ suf.
Proof.
  induction ty as [pr sc p cc fc l nm ps IHp IHps] using TypeNode_tree_ind.
  intros os o base H B.
  pose proof (appends_write_params ps IHps) as Hpar.
  destruct H as [H|H]; [cbn [write_pre] in H; cbv zeta in H|cbn [write_post] in H];
    destruct pr, p as [t|]; try discriminate H;
    repeat match goal with
    | H : obind ?x _ = Some _ |- _ =>
        destruct x as [?|] eqn:?; cbn [obind] in H; [|discriminate H]
    | H : (if ?b then _ else _) = Some _ |- _ => destruct b
    | H : match ?l with [] => _ | _ :: _ => _ end = Some _ |- _ => destruct l
    | H : Some _ = Some _ |- _ => inversion H; subst; clear H
    end;
    repeat first
      [ exact B
      | apply appends_app
      | apply appends_write_space
      | apply appends_write_name
      | eapply IHp; [left; eassumption|]
      | eapply IHp; [right; eassumption|]
      | eapply Hpar; [eassumption|]
      | match goal with
        | |- context [if ?b then _ else _] => destruct b
        end ].
Qed.

(** ** Identifiers and names *)

Lemma find_at_app id r :
  find_at id = None ->
  find_at (id ++ String "@" r) = Some (String.length id) /\
  take (String.length id) (id ++ String "@" r) = id /\
  drop (String.length id + 1) (id ++ String "@" r) = r.
Proof.
  induction id as [|c id IH]; cbn.
  - intros _. repeat split.
  - destruct (Ascii.eqb c "@"); [discriminate|].
    destruct (find_at id); [discriminate|]. intros _.
    destruct (IH eq_refl) as (-> & -> & ->). repeat split.
Qed.

Lemma read_string_run d id r :
  find_at id = None -> input d = id ++ String "@" r ->
  read_string d = Done (id, set_input d r).
Proof.
  intros Hid Hin. unfold read_string. run. rewrite Hin.
  destruct (find_at_app id r Hid) as (E1 & E2 & E3). rewrite E1. run.
  rewrite Hin, E2, E3. reflexivity.
Qed.

Lemma record_name_run s d :
  record_name s d
  = Done (tt, if (List.length (repeated_names d) <? 10)%nat
              then set_repeated_names d (repeated_names d ++ [s])%list
              else d).
Proof.
  unfold record_name, bind, gets, modify, ret.
  now destruct (_ <? 10)%nat.
Qed.

Lemma firstn_record (rn ids : list string) id :
  ((if (List.length rn <? 10)%nat then rn ++ [id] else rn)
     ++ firstn (10 - List.length
                       (if (List.length rn <? 10)%nat then rn ++ [id] else rn))
          ids
   = rn ++ firstn (10 - List.length rn) (id :: ids))%list.
Proof.
  destruct (List.length rn <? 10)%nat eqn:E.
  - apply Nat.ltb_lt in E. rewrite length_app. cbn [List.length].
    replace (10 - List.length rn)%nat with (S (10 - (List.length rn + 1)))
      by lia.
    cbn [firstn]. now rewrite <- app_assoc.
  - apply Nat.ltb_ge in E.
    replace (10 - List.length rn)%nat with O by lia. reflexivity.
Qed.

Lemma read_name_loop_run ids rest :
  Forall (fun id => id <> "" /\ find_at id = None /\
                    starts_with_digit id = false) ids ->
  forall fuel v d,
    input d = fold_right (fun id s => id ++ String "@" s) (String "@" rest) ids ->
    (List.length ids < fuel)%nat ->
    read_name_loop fuel v d
    = Done ((v ++ ids)%list,
            set_repeated_names (set_input d rest)
              (repeated_names d
                 ++ firstn (10 - List.length (repeated_names d)) ids)%list).
Proof.
  induction 1 as [|id ids (Hne & Hat & Hdig) _ IH]; intros fuel v d Hin Hf;
    (destruct fuel as [|fuel]; [cbn in Hf; lia|]); cbn [fold_right] in Hin;
    cbn [read_name_loop]; unfold bind at 1; rewrite consume_run, Hin.
  - cbn [startswith Ascii.eqb Bool.eqb andb String.length drop]. unfold ret.
    rewrite firstn_nil, !app_nil_r. destruct d; reflexivity.
  - destruct id as [|c id]; [now elim Hne|].
    cbn [find_at] in Hat. cbn [append startswith].
    destruct (Ascii.eqb c "@") eqn:Ec; [discriminate|]. cbn [andb].
    unfold bind at 1. unfold read_name_body. unfold bind at 1, gets at 1.
    rewrite Hin. cbn [append starts_with_digit]. cbn in Hdig. rewrite Hdig.
    unfold bind at 1.
    assert (Hat' : find_at (String c id) = None)
      by (cbn [find_at]; rewrite Ec; exact Hat).
    rewrite (read_string_run d (String c id) _ Hat' Hin).
    unfold bind at 1. rewrite record_name_run. unfold ret.
    cbn [repeated_names set_input input].
    rewrite IH.
    + f_equal. f_equal.
      * rewrite <- app_assoc. reflexivity.
      * destruct (List.length (repeated_names d) <? 10)%nat eqn:E.
        -- pose proof (firstn_record (repeated_names d) ids (String c id)) as K.
           rewrite E in K. destruct d; cbn in *. now rewrite K.
        -- pose proof (firstn_record (repeated_names d) ids (String c id)) as K.
           rewrite E in K. destruct d; cbn in *. now rewrite K.
    + now destruct (_ <? 10)%nat.
    + cbn in Hf. lia.
Qed.

Lemma length_drop n : forall s, String.length (drop n s) = (String.length s - n)%nat.
Proof. induction n as [|n IH]; intros [|c s]; cbn; auto. Qed.

(** The loop of [read_name] reads at least one byte in every iteration
    that neither returns nor finds the input without '@': what has not
    returned after as many iterations as the input has bytes, and one
    more, never returns. *)
Lemma read_name_loop_bound :
  forall n v d,
    (String.length (input d) < n)%nat ->
    read_name_loop n v d = OutOfFuel ->
    forall m, read_name_loop m v d = OutOfFuel.
Proof.
  induction n as [|n IH]; intros v d Hn H m; [lia|].
  destruct m as [|m]; [reflexivity|].
  cbn [read_name_loop] in *. unfold bind at 1 in H. unfold bind at 1.
  rewrite consume_run in *.
  destruct (startswith (input d) "@") eqn:Es; [discriminate H|].
  unfold read_name_body in *.
  unfold bind at 1 in H. unfold bind at 1.
  unfold bind at 1 in H. unfold bind at 1.
  unfold gets at 1 in H. unfold gets at 1.
  destruct (starts_with_digit (input d)) eqn:Ed.
  - unfold bind at 1 in H. unfold bind at 1.
    unfold gets at 1 in H. unfold gets at 1.
    destruct (_ <=? _); [discriminate H|].
    unfold bind at 1, trim, modify, ret in H.
    unfold bind at 1, trim, modify, ret.
    refine (IH _ _ _ H m). cbn [input set_input]. rewrite length_drop.
    destruct (input d); [discriminate Ed|cbn [String.length] in *; lia].
  - destruct (find_at (input d)) as [i|] eqn:Ef.
    + unfold bind at 1 in H. unfold bind at 1.
      unfold read_string in *.
      unfold bind at 1 in H. unfold bind at 1.
      unfold gets at 1 in H. unfold gets at 1. rewrite Ef in *.
      unfold bind at 1, trim, modify, ret in H.
      unfold bind at 1, trim, modify, ret.
      unfold bind at 1 in H. unfold bind at 1.
      rewrite record_name_run in *.
      refine (IH _ _ _ H m).
      destruct (_ <? 10)%nat; cbn [input set_input set_repeated_names];
        rewrite length_drop;
        (destruct (input d); [discriminate Ef|cbn [String.length] in *; lia]).
    + pose proof (read_name_loop_diverges (S m) v d Ef Ed) as K.
      cbn [read_name_loop] in K. unfold bind at 1 in K.
      rewrite consume_run, Es in K. unfold read_name_body in K.
      unfold bind at 1 in K. unfold bind at 1 in K. unfold gets at 1 in K.
      rewrite Ed in K. exact K.
Qed.

(** ** Statements about the readers and the printer *)

(** X1.  The cursor only moves forward: what a reader leaves unread is
    a suffix of what it was given, and [type_index] does not decrease.
    This holds for every reader, with or without an error, and so for
    [parse]: it returns with a suffix of the symbol left. *)
Theorem cursor_only_advances :
  forall fuel,
    advances read_number /\ advances read_string /\
    advances (read_name fuel) /\
    advances (read_func_class cs) /\ advances (read_calling_conv cs) /\
    advances (read_storage_class cs) /\
    advances read_storage_class_for_return /\
    advances (read_prim_type cs) /\
    (forall ty, advances (read_var_type cs fuel ty)) /\
    (forall ty, advances (read_func_return_type cs fuel ty)) /\
    (forall s u d,
       parse cs fuel (init s) = Done (u, d) ->
       (exists p, s = p ++ input d) /\
       (String.length (input d) <= String.length s)%nat).
Proof.
  intros fuel.
  split; [apply advances_read_number|].
  split; [apply advances_read_string|].
  split; [apply advances_read_name|].
  split; [apply advances_read_func_class|].
  split; [apply advances_read_calling_conv|].
  split; [apply advances_read_storage_class|].
  split; [apply advances_read_storage_class_for_return|].
  split; [apply advances_read_prim_type|].
  split; [apply (proj1 (advances_read_type fuel))|].
  split; [intros ty; apply advances_read_func_return_type|].
  intros s u d H.
  destruct (proj1 (advances_parse fuel _ _ _ H)) as [p Hp]. cbn in Hp.
  split; [now exists p|]. rewrite Hp, length_append. lia.
Qed.

(** X2.  Where [read_var_type] returns without an error, the node it
    returns is well formed: each [Function], [Ptr], [Ref] and [Array]
    node in it has its [ptr] set.  So is the node that [parse] leaves
    in [type] where it returns without an error.  Neither depends on
    the value that [prim], which has no initialiser, had on entry. *)
Theorem parse_builds_well_formed_tree :
  (forall fuel ty d ty' d',
     inside ty = true ->
     read_var_type cs fuel ty d = Done (ty', d') -> error d' = "" ->
     well_formed ty' = true) /\
  (forall fuel s p0 u d,
     parse cs fuel (set_type (init s) (set_prim fresh p0)) = Done (u, d) ->
     error d = "" -> well_formed (type d) = true).
Proof.
  split.
  - intros fuel ty d ty' d' Hi H He.
    exact (read_var_type_well_formed fuel ty d ty' d' Hi H He).
  - intros fuel s p0 u d H He.
    exact (parse_well_formed fuel _ _ _ H eq_refl He).
Qed.

(** X3.  The printer follows no null [ptr]: [write_pre] and
    [write_post] return on every well-formed tree, and [demangle] never
    ends in [NullDeref]. *)
Theorem printer_never_follows_null_ptr :
  (forall ty os,
     well_formed ty = true ->
     write_pre ty os <> None /\ write_post ty os <> None) /\
  (forall fuel s, demangle cs fuel s <> Done NullDeref).
Proof.
  split.
  - intros ty os Hw. destruct (write_total ty Hw os) as [[o1 E1] [o2 E2]].
    rewrite E1, E2. split; discriminate.
  - intros fuel s. unfold demangle.
    destruct (parse cs fuel (init s)) as [[u d]| |] eqn:E; try discriminate.
    destruct (error d) eqn:Ee; [|discriminate].
    pose proof (parse_well_formed fuel _ _ _ E eq_refl Ee) as Hw.
    unfold str. destruct (proj1 (write_total _ Hw "")) as [o1 E1].
    rewrite E1. cbn [obind].
    destruct (proj2 (write_total _ Hw (write_name (symbol d) o1))) as [o2 E2].
    rewrite E2. discriminate.
Qed.

(** X4.  The printer only appends: the text after [write_space],
    [write_name], [write_pre], [write_post] or [write_params] begins
    with the text before it. *)
Theorem printer_only_appends :
  forall os,
    (exists suf, write_space os = os ++ suf) /\
    (forall nm, exists suf, write_name nm os = os ++ suf) /\
    (forall ty o, write_pre ty os = Some o -> exists suf, o = os ++ suf) /\
    (forall ty o, write_post ty os = Some o -> exists suf, o = os ++ suf) /\
    (forall ty o, write_params ty os = Some o -> exists suf, o = os ++ suf).
Proof.
  intros os. repeat split.
  - apply appends_write_space, appends_refl.
  - intros nm. apply appends_write_name, appends_refl.
  - intros ty o H. exact (appends_write ty os o os (or_introl H) (appends_refl os)).
  - intros ty o H. exact (appends_write ty os o os (or_intror H) (appends_refl os)).
  - intros ty o H. unfold write_params in H.
    refine (appends_write_params (params ty) _ true os o os H (appends_refl os)).
    apply Forall_forall. intros t _. apply appends_write.
Qed.

(** X5.  [read_string] splits the input at its first '@': it returns
    the bytes before it and leaves the bytes after it.  On an input
    without '@' it returns the empty string, reads nothing, and sets the
    error to "read_string: missing '@': " followed by the input. *)
Theorem read_string_splits_at_first_at :
  forall d,
    (forall id r,
       find_at id = None -> input d = id ++ String "@" r ->
       read_string d = Done (id, set_input d r)) /\
    (find_at (input d) = None ->
     read_string d
     = Done ("", set_error d ("read_string: missing '@': " ++ input d))).
Proof.
  intros d. split.
  - intros id r. apply read_string_run.
  - intros H. unfold read_string. run. rewrite H. reflexivity.
Qed.

(** X6.  [read_name] reads back a list of identifiers from their
    mangled form: each identifier followed by '@', and one more '@' at
    the end.  The identifiers are not empty, hold no '@' and do not
    begin with a digit.  The bytes after the name are left, and the
    identifiers are appended to the table of repeated names as long as
    it holds fewer than ten. *)
Theorem read_name_reads_back_identifiers :
  forall ids rest fuel d,
    Forall (fun id => id <> "" /\ find_at id = None /\
                      starts_with_digit id = false) ids ->
    input d = fold_right (fun id s => id ++ String "@" s) (String "@" rest) ids ->
    (List.length ids < fuel)%nat ->
    read_name fuel d
    = Done (ids,
            set_repeated_names (set_input d rest)
              (repeated_names d
                 ++ firstn (10 - List.length (repeated_names d)) ids)%list).
Proof.
  intros ids rest fuel d Hids Hin Hf. unfold read_name.
  now rewrite (read_name_loop_run ids rest Hids fuel [] d Hin Hf).
Qed.

(** X7.  The loop of [read_name] needs no more iterations than the
    input has bytes, and one: if [read_name] returns at all, it returns
    the same with that many; if it has not returned by then, it never
    returns. *)
Theorem read_name_returns_within_input_length :
  forall d,
    (forall fuel r,
       read_name fuel d = r -> r <> OutOfFuel ->
       read_name (S (String.length (input d))) d = r) /\
    (read_name (S (String.length (input d))) d = OutOfFuel ->
     forall fuel, read_name fuel d = OutOfFuel).
Proof.
  intros d.
  assert (B : read_name (S (String.length (input d))) d = OutOfFuel ->
              forall fuel, read_name fuel d = OutOfFuel)
    by (apply read_name_loop_bound; lia).
  split; [|exact B].
  intros fuel r H Hr.
  destruct (read_name (S (String.length (input d))) d) as [x| |] eqn:E.
  - destruct (Nat.le_ge_cases fuel (S (String.length (input d)))) as [L|L].
    + pose proof (read_name_mono _ _ L d) as K. unfold refines in K.
      rewrite H in K. rewrite <- E. now apply K.
    + pose proof (read_name_mono _ _ L d) as K. unfold refines in K.
      rewrite E in K. rewrite <- H. symmetry. now apply K.
  - rewrite (B eq_refl fuel) in H. now elim Hr.
  - destruct (Nat.le_ge_cases fuel (S (String.length (input d)))) as [L|L].
    + pose proof (read_name_mono _ _ L d) as K. unfold refines in K.
      rewrite H in K. rewrite <- E. now apply K.
    + pose proof (read_name_mono _ _ L d) as K. unfold refines in K.
      rewrite E in K. rewrite <- H. symmetry. now apply K.
Qed.

(** ** One-byte codes *)

Lemma char_to_int_unsigned c : cs = false -> char_to_int cs c <> -1.
Proof.
  intros ->. unfold char_to_int. pose proof (chr_range c).
  destruct (128 <=? chr c); lia.
Qed.

(** A [switch] on the byte that [get] returned: the case of a known
    code, and the [default] case after [unget]. *)
Lemma switch_known {A B : Type} (tbl : list (ascii * A)) (K : A -> M B)
    (D : M B) d c s x :
  input d = String c s -> switch (char_to_int cs c) tbl = Some x ->
  (c <- get cs ;;
   match switch c tbl with
   | Some x => K x
   | None => unget c ;;; D
   end) d = K x (set_input d s).
Proof.
  intros Hin Hs. unfold bind at 1. rewrite (get_cons d c s Hin), Hs.
  reflexivity.
Qed.

Lemma switch_unknown {A B : Type} (tbl : list (ascii * A)) (K : A -> M B)
    (D : M B) d c s :
  input d = String c s -> switch (char_to_int cs c) tbl = None ->
  (c <- get cs ;;
   match switch c tbl with
   | Some x => K x
   | None => unget c ;;; D
   end) d = D (if char_to_int cs c =? -1 then set_input d s else d).
Proof.
  intros Hin Hs. unfold bind at 1. rewrite (get_cons d c s Hin), Hs.
  unfold bind at 1. rewrite (get_unget_cons d c s Hin). reflexivity.
Qed.

Lemma switch_end {A B : Type} (tbl : list (ascii * A)) (K : A -> M B)
    (D : M B) d :
  input d = "" -> switch (-1) tbl = None ->
  (c <- get cs ;;
   match switch c tbl with
   | Some x => K x
   | None => unget c ;;; D
   end) d = D d.
Proof.
  intros Hin Hs. unfold bind at 1. rewrite (get_nil d Hin), Hs.
  reflexivity.
Qed.

(** X8.  A reader of a one-byte code reads the byte of a code it knows
    and pushes back any other byte: [read_storage_class] then returns 0
    with the state as it was, [read_calling_conv] and [read_func_class]
    set the error to their message followed by the whole input left.
    At the end of the input nothing is read.  The one byte that is not
    pushed back is the byte 255 where [char] is signed: [get] returns -1
    for it, which [unget] takes for the end of the input. *)
Theorem unknown_code_is_pushed_back :
  forall d,
    (forall c s,
       input d = String c s -> char_to_int cs c <> -1 ->
       (forall v, switch (char_to_int cs c) storage_class_table = Some v ->
          read_storage_class cs d = Done (v, set_input d s)) /\
       (switch (char_to_int cs c) storage_class_table = None ->
          read_storage_class cs d = Done (0, d)) /\
       (forall v, switch (char_to_int cs c) calling_conv_table = Some v ->
          read_calling_conv cs d = Done (v, set_input d s)) /\
       (switch (char_to_int cs c) calling_conv_table = None ->
          read_calling_conv cs d
          = Done (Cdecl,
                  set_error d ("unknown calling convention: " ++ input d))) /\
       (forall v, switch (char_to_int cs c) func_class_table = Some v ->
          read_func_class cs d = Done (v, set_input d s)) /\
       (switch (char_to_int cs c) func_class_table = None ->
          read_func_class cs d
          = Done (0, set_error d ("unknown func class: " ++ input d)))) /\
    (input d = "" ->
     read_storage_class cs d = Done (0, d) /\
     read_calling_conv cs d
     = Done (Cdecl, set_error d "unknown calling convention: ") /\
     read_func_class cs d = Done (0, set_error d "unknown func class: ")) /\
    (forall c s,
       input d = String c s -> char_to_int cs c = -1 ->
       cs = true /\ chr c = 255 /\
       read_storage_class cs d = Done (0, set_input d s) /\
       read_calling_conv cs d
       = Done (Cdecl,
               set_error (set_input d s) ("unknown calling convention: " ++ s)) /\
       read_func_class cs d
       = Done (0, set_error (set_input d s) ("unknown func class: " ++ s))).
Proof.
  intros d. split; [|split].
  - intros c s Hin Hc.
    assert (E : (char_to_int cs c =? -1) = false) by now apply Z.eqb_neq.
    unfold read_storage_class, read_calling_conv, read_func_class.
    repeat split; intros;
      first [ erewrite switch_known by eassumption; reflexivity
            | erewrite switch_unknown by eassumption; rewrite E; reflexivity ].
  - intros Hin.
    unfold read_storage_class, read_calling_conv, read_func_class.
    repeat split; rewrite switch_end by (assumption || reflexivity);
      run; rewrite ?Hin; reflexivity.
  - intros c s Hin Hc.
    split.
    { destruct (Bool.bool_dec cs true) as [E|E]; [exact E|].
      apply not_true_is_false in E.
      elim (char_to_int_unsigned c E Hc). }
    split; [now apply char_to_int_minus_one|].
    unfold read_storage_class, read_calling_conv, read_func_class.
    repeat split;
      (erewrite switch_unknown;
       [|eassumption|rewrite Hc; reflexivity]);
      rewrite Hc; reflexivity.
Qed.

(** X9.  Types, names and numbers delimit themselves.  When
    [read_var_type], [read_name] or [read_number] returns without an
    error, it has read a prefix of the input that is not empty, and it
    returns the same, leaving all of the rest, on that prefix followed
    by any other bytes.  A type begins with none of the bytes '6', '@'
    and '$'. *)
Theorem readers_read_a_prefix :
  (forall fuel ty d ty' d',
     read_var_type cs fuel ty d = Done (ty', d') -> error d' = "" ->
     error d = "" /\
     exists c p,
       type_start c = true /\ input d = String c (p ++ input d') /\
       forall r,
         read_var_type cs fuel ty (set_input d (String c (p ++ r)))
         = Done (ty', set_input d' r)) /\
  (forall fuel d v d',
     read_name fuel d = Done (v, d') -> error d' = "" ->
     error d = "" /\
     exists p,
       p <> "" /\ input d = p ++ input d' /\
       forall r, read_name fuel (set_input d (p ++ r)) = Done (v, set_input d' r)) /\
  (forall d n d',
     read_number d = Done (n, d') -> error d' = "" ->
     error d = "" /\
     exists p,
       p <> "" /\ input d = p ++ input d' /\
       forall r, read_number (set_input d (p ++ r)) = Done (n, set_input d' r)).
Proof.
  split; [|split].
  - intros fuel ty. exact (proj1 (frames_read_type fuel) ty).
  - intros fuel. exact (frames1_read_name fuel).
  - exact frames1_read_number.
Qed.

(** ** Qualified names *)

Lemma write_scopes_concat l n0 :
  forall os,
    fold_left (fun os n => os ++ n ++ "::") l os ++ n0
    = os ++ String.concat "::" (l ++ [n0]).
Proof.
  induction l as [|x l IH]; intros os; cbn [fold_left app].
  - reflexivity.
  - rewrite IH. rewrite append_assoc. f_equal.
    cbn [String.concat].
    destruct (l ++ [n0])%list eqn:E; [now destruct l|].
    now rewrite append_assoc.
Qed.

Lemma write_name_ordinary n0 outer os :
  startswith n0 "?0" = false -> startswith n0 "?1" = false ->
  write_name (n0 :: outer) os
  = write_space os ++ String.concat "::" (rev (n0 :: outer)).
Proof.
  intros H0 H1. cbn [write_name rev]. rewrite H0, H1.
  unfold write_scopes. apply write_scopes_concat.
Qed.

(** X10.  [write_name] writes the fragments of a name outermost first,
    joined by "::", after a space if the text before ends with a
    letter.  A first fragment "?1" followed by [cls] is a destructor:
    it is written as [cls] followed by "::~" and [cls]. *)
Theorem write_name_joins_scopes :
  forall n0 outer os,
    (startswith n0 "?0" = false -> startswith n0 "?1" = false ->
     write_name (n0 :: outer) os
     = write_space os ++ String.concat "::" (rev (n0 :: outer))) /\
    (forall cls, n0 = "?1" ++ cls ->
     write_name (n0 :: outer) os
     = write_space os ++ String.concat "::" (rev (cls :: outer))
         ++ "::~" ++ cls).
Proof.
  intros n0 outer os. split.
  - apply write_name_ordinary.
  - intros cls ->. cbn [write_name rev append startswith Ascii.eqb Bool.eqb andb drop].
    unfold write_scopes.
    rewrite <- append_assoc. rewrite write_scopes_concat.
    now rewrite append_assoc.
Qed.

(** ** Variables of a primitive type *)

Lemma switch_In {A : Type} (tbl : list (ascii * A)) c v :
  switch c tbl = Some v -> exists k, In (k, v) tbl /\ c = chr k.
Proof.
  induction tbl as [|[k x] tbl IH]; cbn; [discriminate|].
  destruct (c =? chr k) eqn:E.
  - intros [= <-]. apply Z.eqb_eq in E. eauto.
  - intros H. destruct (IH H) as (k' & Hk & Hc). eauto.
Qed.

Lemma chr_inj c c' : chr c = chr c' -> c = c'.
Proof.
  unfold chr. intros H. apply N2Z.inj in H.
  rewrite <- (ascii_N_embedding c), <- (ascii_N_embedding c'). now rewrite H.
Qed.

(** A byte of [prim_type_table] where a type is expected. *)
Lemma read_var_type_prim code pr :
  switch (chr code) prim_type_table = Some pr ->
  forall n ty d rest,
    input d = String code rest ->
    read_var_type cs (S n) ty d = Done (set_prim ty pr, set_input d rest).
Proof.
  intros Hs n ty d rest Hin.
  destruct (switch_In _ _ _ Hs) as (k & Hk & Hc). apply chr_inj in Hc.
  subst k. cbn [read_var_type].
  cbn [In prim_type_table] in Hk.
  repeat (destruct Hk as [Hk|Hk];
          [injection Hk as <- <-;
           repeat (unfold bind at 1; rewrite consume_run, Hin;
                   cbn [startswith Ascii.eqb Bool.eqb andb]);
           unfold bind at 1; unfold read_prim_type;
           erewrite switch_known by (try eassumption; reflexivity);
           reflexivity|]).
  elim Hk.
Qed.

Lemma str_variable pr n0 outer d :
  In pr (map snd prim_type_table) ->
  type d = set_prim fresh pr -> symbol d = n0 :: outer ->
  startswith n0 "?0" = false -> startswith n0 "?1" = false ->
  str d = Some (prim_keyword pr ++ " " ++ String.concat "::" (rev (n0 :: outer))).
Proof.
  intros Hpr Ht Hs H0 H1. unfold str. rewrite Ht, Hs.
  cbn [map snd prim_type_table In] in Hpr.
  repeat (destruct Hpr as [<-|Hpr];
          [cbn [write_pre set_prim fresh prim sclass ptr name params
                calling_conv func_class len Z.land Z.eqb prim_keyword
                append obind];
           rewrite (write_name_ordinary n0 outer _ H0 H1);
           reflexivity|]).
  elim Hpr.
Qed.

(** X11.  A variable of a primitive type.  The symbol is '?', the
    mangled name, the tag '3' and a one-byte code of [read_prim_type];
    the bytes after it are not read.  [demangle] returns the keyword of
    the type, a space, and the fragments of the name outermost first,
    joined by "::". *)
Theorem demangle_variable_of_primitive_type :
  forall n0 outer code pr rest k,
    Forall (fun id => id <> "" /\ find_at id = None /\
                      starts_with_digit id = false) (n0 :: outer) ->
    startswith n0 "?0" = false -> startswith n0 "?1" = false ->
    switch (chr code) prim_type_table = Some pr ->
    demangle cs (List.length outer + 2 + k)
      (String "?"
         (fold_right (fun id s => id ++ String "@" s)
            (String "@" (String "3" (String code rest))) (n0 :: outer)))
    = Done (Ok (prim_keyword pr ++ " "
                  ++ String.concat "::" (rev (n0 :: outer)))).
Proof.
  intros n0 outer code pr rest k Hids H0 H1 Hs.
  replace (List.length outer + 2 + k)%nat
    with (S (S (List.length outer + k))) by lia.
  unfold demangle, parse. unfold bind at 1. rewrite parse_name_mangled.
  unfold bind at 1. unfold read_name.
  rewrite (read_name_loop_run (n0 :: outer) (String "3" (String code rest))
             Hids _ [] (init _) eq_refl)
    by (cbn [List.length]; lia).
  unfold modify at 1. unfold bind at 1. rewrite consume_run.
  cbn [input set_input set_symbol set_repeated_names startswith Ascii.eqb
       Bool.eqb andb String.length drop].
  unfold bind at 1, gets at 1. unfold bind at 1.
  erewrite read_var_type_prim by (try exact Hs; reflexivity).
  unfold modify_type, modify.
  cbn [error set_type set_input set_symbol set_repeated_names init].
  erewrite str_variable; try reflexivity; try assumption.
  destruct (switch_In _ _ _ Hs) as (c & Hc & _).
  apply (in_map snd) in Hc. exact Hc.
Qed.

(** ** Fuel that is enough

    The loops and the recursion of the parser are bounded by the length
    of the input, wherever they end at all. *)
Lemma advances_length {A : Type} (m : M A) d a d' :
  advances m -> m d = Done (a, d') ->
  (String.length (input d') <= String.length (input d))%nat.
Proof.
  intros Hm H. destruct (proj1 (Hm _ _ _ H)) as [p Hp].
  rewrite Hp, length_append. lia.
Qed.

Lemma upto_refl {A : Type} k (m : M A) : upto k m m.
Proof. intros d _ _. reflexivity. Qed.

Lemma upto_never {A : Type} k (m : M A) : upto k out_of_fuel m.
Proof. intros d _ H. now elim H. Qed.

Lemma upto_bind {A B : Type} k (m' m : M A) (f' f : A -> M B) :
  advances m' -> upto k m' m -> (forall a, upto k (f' a) (f a)) ->
  upto k (bind m' f') (bind m f).
Proof.
  intros Ha Hm Hf d Hk H. unfold bind in *.
  destruct (m' d) as [[a d1]| |] eqn:E.
  - rewrite (Hm d Hk) by (rewrite E; discriminate). rewrite E.
    apply Hf; [|exact H].
    pose proof (advances_length _ _ _ _ Ha E). lia.
  - now elim H.
  - rewrite (Hm d Hk) by (rewrite E; discriminate). rewrite E. reflexivity.
Qed.

Lemma upto_bind_same {A B : Type} k (m : M A) (f' f : A -> M B) :
  advances m -> (forall a, upto k (f' a) (f a)) ->
  upto k (bind m f') (bind m f).
Proof. intros Ha Hf. apply upto_bind; [exact Ha|apply upto_refl|exact Hf]. Qed.

(** After a literal was consumed, fewer bytes are left. *)
Lemma upto_consume_if {A : Type} k c lit (X' X Y' Y : M A) :
  (forall k', (k' < k)%nat -> upto k' X' X) -> upto k Y' Y ->
  upto k (b <- consume (String c lit) ;; if b : bool then X' else Y')
         (b <- consume (String c lit) ;; if b : bool then X else Y).
Proof.
  intros HX HY d Hk H. unfold bind in *. rewrite consume_run in *.
  destruct (startswith (input d) (String c lit)) eqn:E.
  - apply (HX (String.length (input (set_input d
               (drop (String.length (String c lit)) (input d)))))).
    + cbn [input set_input]. rewrite length_drop.
      destruct (input d); [discriminate E|]. cbn [String.length] in *. lia.
    + lia.
    + exact H.
  - apply HY; assumption.
Qed.

Lemma upto_while {A : Type} k (cond : M bool) (body' body : A -> M A) :
  (forall d d1, cond d = Done (true, d1) -> d1 = d /\ error d = "") ->
  (forall a, upto k (body' a) (body a)) ->
  (forall a d a' d',
     body' a d = Done (a', d') ->
     (String.length (input d') <= String.length (input d))%nat /\
     (error d' = "" ->
      (String.length (input d') < String.length (input d))%nat)) ->
  forall m n a d,
    (1 <= n)%nat -> (String.length (input d) <= k)%nat ->
    (error d = "" -> (String.length (input d) + 2 <= n)%nat) ->
    while m cond body' a d <> OutOfFuel ->
    while n cond body a d = while m cond body' a d.
Proof.
  intros Hc Hb Hp. induction m as [|m IH]; intros n a d Hn Hk He H.
  - now elim H.
  - destruct n as [|n]; [lia|]. cbn [while] in *. unfold bind in *.
    destruct (cond d) as [[[|] d1]| |] eqn:Ec; try reflexivity.
    destruct (Hc _ _ Ec) as [-> Hd]. specialize (He Hd).
    destruct (body' a d) as [[a' d2]| |] eqn:Eb.
    + rewrite (Hb a d Hk) by (rewrite Eb; discriminate). rewrite Eb.
      destruct (Hp _ _ _ _ Eb) as [L1 L2].
      apply IH; try lia; try exact H. intros E2. specialize (L2 E2). lia.
    + now elim H.
    + rewrite (Hb a d Hk) by (rewrite Eb; discriminate). rewrite Eb.
      reflexivity.
Qed.

Lemma upto_read_name k m n :
  (k < n)%nat -> upto k (read_name m) (read_name n).
Proof.
  intros Hn d Hk H.
  destruct (read_name n d) as [x| |] eqn:E.
  - destruct (Nat.le_ge_cases m n) as [L|L].
    + pose proof (read_name_mono _ _ L d H) as K. congruence.
    + pose proof (read_name_mono _ _ L d) as K. unfold refines in K.
      rewrite E in K. symmetry. now apply K.
  - elim H. apply (read_name_loop_bound n [] d); [lia|exact E].
  - destruct (Nat.le_ge_cases m n) as [L|L].
    + pose proof (read_name_mono _ _ L d H) as K. congruence.
    + pose proof (read_name_mono _ _ L d) as K. unfold refines in K.
      rewrite E in K. symmetry. now apply K.
Qed.

(** The body of a parameter loop: a node is taken, a type is read into
    it, and the node is stored. *)
Lemma parameter_progress {A : Type} (read' : TypeNode -> M TypeNode)
    (fin : TypeNode -> M A) :
  (forall t, advances (read' t)) -> (forall t, frames1 (read' t)) ->
  (forall x d a d', fin x d = Done (a, d') ->
     input d' = input d /\ error d' = error d) ->
  forall d a' d',
    (tp <- alloc ;; tp' <- read' tp ;; fin tp') d = Done (a', d') ->
    (String.length (input d') <= String.length (input d))%nat /\
    (error d' = "" ->
     (String.length (input d') < String.length (input d))%nat).
Proof.
  intros Ha Hf Hfin d a' d' H. unfold bind in H.
  destruct (alloc d) as [[tp d1]| |] eqn:E1; try discriminate.
  destruct (read' tp d1) as [[tp' d2]| |] eqn:E2; try discriminate.
  destruct (Hfin _ _ _ _ H) as [Hi He]. rewrite Hi, He.
  rewrite <- (alloc_input _ _ _ E1).
  split; [exact (advances_length _ _ _ _ (Ha tp) E2)|].
  intros E. destruct (Hf tp _ _ _ E2 E) as (_ & p & Hp & Hin & _).
  rewrite Hin, length_append. destruct p; [now elim Hp|cbn; lia].
Qed.

Lemma upto_parameter {A : Type} k (read' read : TypeNode -> M TypeNode)
    (fin : TypeNode -> M A) :
  (forall t, advances (read' t)) -> (forall t, upto k (read' t) (read t)) ->
  upto k (tp <- alloc ;; tp' <- read' tp ;; fin tp')
         (tp <- alloc ;; tp' <- read tp ;; fin tp').
Proof.
  intros Ha Hr. apply upto_bind_same; [apply advances_alloc|]. intros tp.
  apply upto_bind; [apply Ha|apply Hr|]. intros tp'. apply upto_refl.
Qed.

Lemma upto_while_parameters {A : Type} k (cond : M bool)
    (read' read : TypeNode -> M TypeNode) (fin : A -> TypeNode -> M A) :
  (forall d d1, cond d = Done (true, d1) -> d1 = d /\ error d = "") ->
  (forall t, advances (read' t)) -> (forall t, frames1 (read' t)) ->
  (forall t, upto k (read' t) (read t)) ->
  (forall y x d a d', fin y x d = Done (a, d') ->
     input d' = input d /\ error d' = error d) ->
  forall m n a,
    (k + 2 <= n)%nat ->
    upto k
      (while m cond (fun y => tp <- alloc ;; tp' <- read' tp ;; fin y tp') a)
      (while n cond (fun y => tp <- alloc ;; tp' <- read tp ;; fin y tp') a).
Proof.
  intros Hc Ha Hf Hr Hfin m n a Hn d Hk H.
  apply (upto_while k cond
           (fun y => tp <- alloc ;; tp' <- read' tp ;; fin y tp')
           (fun y => tp <- alloc ;; tp' <- read tp ;; fin y tp')); try lia;
    try assumption.
  - intros y. now apply upto_parameter.
  - intros y. apply parameter_progress; try assumption. apply Hfin.
Qed.

Lemma ret_keeps {A : Type} (f : TypeNode -> A) :
  forall (x : TypeNode) d (a : A) d',
    ret (f x) d = Done (a, d') -> input d' = input d /\ error d' = error d.
Proof. intros x d a d' [= _ <-]. split; reflexivity. Qed.

Lemma template_cond d d1 :
  (e <- error_empty ;;
   if e : bool then a <- consume "@" ;; ret (negb a) else ret false) d
  = Done (true, d1) ->
  d1 = d /\ error d = "".
Proof.
  unfold bind at 1, error_empty, gets.
  destruct (error d); [|discriminate]. unfold bind. rewrite consume_run.
  destruct (startswith _ _); [discriminate|]. now intros [= <-].
Qed.

Lemma function_cond d d1 :
  (e <- error_empty ;;
   if e : bool then
     a <- consume "@Z" ;;
     if a : bool then ret false else z <- consume "Z" ;; ret (negb z)
   else ret false) d
  = Done (true, d1) ->
  d1 = d /\ error d = "".
Proof.
  unfold bind at 1, error_empty, gets.
  destruct (error d); [|discriminate]. unfold bind. rewrite consume_run.
  destruct (startswith _ "@Z"); [discriminate|]. rewrite consume_run.
  destruct (startswith _ "Z"); [discriminate|]. now intros [= <-].
Qed.

Lemma params_cond stop d d1 :
  (e <- error_empty ;;
   s <- gets input ;;
   ret (e && negb (String.eqb s "") && negb (startswith_char s stop))) d
  = Done (true, d1) ->
  d1 = d /\ error d = "".
Proof.
  unfold bind, error_empty, gets, ret.
  destruct (error d); [|discriminate]. now intros [= _ <-].
Qed.

Lemma upto_read_pointee k (read' read : TypeNode -> M TypeNode) ty :
  (forall t, advances (read' t)) -> (forall t, upto k (read' t) (read t)) ->
  upto k (read_pointee cs read' ty) (read_pointee cs read ty).
Proof.
  intros Ha Hr. unfold read_pointee.
  apply upto_bind_same; [apply advances_consume|]. intros _.
  apply upto_bind_same; [apply advances_alloc|]. intros p.
  apply upto_bind_same; [apply advances_read_storage_class|]. intros sc.
  apply upto_bind; [apply Ha|apply Hr|]. intros p'. apply upto_refl.
Qed.

Lemma upto_read_function_pointer k (read' read : TypeNode -> M TypeNode)
    m n ty :
  (forall t, advances (read' t)) -> (forall t, frames1 (read' t)) ->
  (forall t, upto k (read' t) (read t)) -> (k + 2 <= n)%nat ->
  upto k (read_function_pointer read' m ty) (read_function_pointer read n ty).
Proof.
  intros Ha Hf Hr Hn. unfold read_function_pointer.
  apply upto_bind_same; [apply advances_alloc|]. intros fn.
  apply upto_bind_same; [apply advances_alloc|]. intros r.
  apply upto_bind; [apply Ha|apply Hr|]. intros r'.
  apply upto_bind.
  - apply advances_while.
    + apply advances_bind; [apply advances_gets|]. intros [|].
      * apply advances_bind; [apply advances_consume|]. intros [|].
        -- apply advances_ret.
        -- apply advances_bind; [apply advances_consume|]. intros z.
           apply advances_ret.
      * apply advances_ret.
    + intros fn0. apply advances_bind; [apply advances_alloc|]. intros tp.
      apply advances_bind; [apply Ha|]. intros tp'. apply advances_ret.
  - apply (upto_while_parameters k _ read' read
             (fun fn tp' => ret (push_param fn tp'))); try assumption.
    + apply function_cond.
    + intros y. apply ret_keeps.
  - intros fn'. apply upto_refl.
Qed.

Lemma upto_read_array k (read' read : TypeNode -> M TypeNode) ty :
  (forall t, advances (read' t)) -> (forall t, upto k (read' t) (read t)) ->
  upto k (read_array read' ty) (read_array read ty).
Proof.
  intros Ha Hr. unfold read_array.
  apply upto_bind_same; [apply advances_read_number|]. intros dim.
  destruct (dim <=? 0); [apply upto_refl|].
  apply upto_bind_same; [apply advances_read_array_lens|]. intros lens.
  apply upto_bind_same; [apply advances_read_array_qualifier|]. intros sc.
  apply upto_bind; [apply Ha|apply Hr|]. intros elem. apply upto_refl.
Qed.

Lemma upto_read_type :
  forall m,
    (forall n k ty, (k + 2 <= n)%nat ->
       upto k (read_var_type cs m ty) (read_var_type cs n ty)) /\
    (forall n k p ty, (k + 2 <= n)%nat ->
       upto k (read_class cs m p ty) (read_class cs n p ty)).
Proof.
  induction m as [|m [IHv IHc]]; split; intros; try apply upto_never.
  - destruct n as [|n]; [lia|]. cbn [read_var_type].
    assert (Ha : forall t, advances (read_var_type cs m t))
      by apply (proj1 (advances_read_type m)).
    assert (Hf : forall t, frames1 (read_var_type cs m t))
      by (intros t; apply frames_type_frames1, (proj1 (frames_read_type m))).
    assert (Hr : forall k', (k' < k)%nat ->
                 forall t, upto k' (read_var_type cs m t) (read_var_type cs n t))
      by (intros k' Hk' t; apply IHv; lia).
    apply upto_consume_if; [intros k' Hk'; apply IHc; lia|].
    apply upto_consume_if; [intros k' Hk'; apply IHc; lia|].
    apply upto_consume_if; [intros k' Hk'; apply IHc; lia|].
    apply upto_consume_if.
    { intros k' Hk'. apply upto_bind; [apply advances_read_name| |].
      - apply upto_read_name. lia.
      - intros nm. apply upto_refl. }
    apply upto_consume_if.
    { intros k' Hk'. apply upto_read_function_pointer; auto. lia. }
    apply upto_consume_if; [intros k' Hk'; apply upto_read_pointee; auto|].
    apply upto_consume_if; [intros k' Hk'; apply upto_read_pointee; auto|].
    apply upto_consume_if; [intros k' Hk'; apply upto_read_pointee; auto|].
    apply upto_consume_if; [intros k' Hk'; apply upto_read_array; auto|].
    apply upto_refl.
  - destruct n as [|n]; [lia|]. cbn [read_class]. cbv zeta.
    apply upto_consume_if.
    + intros k' Hk'.
      apply upto_bind_same; [apply advances_read_string|]. intros s.
      apply (upto_while_parameters k' _ (read_var_type cs m)
               (read_var_type cs n) (fun ty tp' => ret (push_param ty tp'))).
      * apply template_cond.
      * apply (proj1 (advances_read_type m)).
      * intros t. apply frames_type_frames1, (proj1 (frames_read_type m)).
      * intros t. apply IHv. lia.
      * intros y. apply ret_keeps.
      * lia.
    + apply upto_bind; [apply advances_read_name| |].
      * apply upto_read_name. lia.
      * intros nm. apply upto_refl.
Qed.

Lemma upto_read_func_return_type k m n ty :
  (k + 2 <= n)%nat ->
  upto k (read_func_return_type cs m ty) (read_func_return_type cs n ty).
Proof.
  intros Hn. unfold read_func_return_type.
  apply upto_bind_same; [apply advances_consume|]. intros [|].
  - apply upto_refl.
  - apply upto_bind; [apply (proj1 (advances_read_type m))| |].
    + now apply (proj1 (upto_read_type m)).
    + intros ty'. apply upto_refl.
Qed.

Lemma upto_read_params k m n stop :
  (k + 2 <= n)%nat -> upto k (read_params cs m stop) (read_params cs n stop).
Proof.
  intros Hn. unfold read_params.
  apply (upto_while_parameters k _ (read_var_type cs m) (read_var_type cs n)
           (fun _ tp' => modify_type (fun t => push_param t tp'))).
  - apply params_cond.
  - apply (proj1 (advances_read_type m)).
  - intros t. apply frames_type_frames1, (proj1 (frames_read_type m)).
  - intros t. now apply (proj1 (upto_read_type m)).
  - intros y x d a d' [= _ <-]. split; reflexivity.
  - exact Hn.
Qed.

Lemma upto_parse_name k m n :
  (k < n)%nat -> upto k (parse_name m) (parse_name n).
Proof.
  intros Hn. unfold parse_name.
  apply upto_bind_same; [apply advances_consume|]. intros q.
  apply upto_bind_same; [adv|]. intros _.
  apply upto_bind; [apply advances_read_name| |].
  - now apply upto_read_name.
  - intros v. apply upto_refl.
Qed.

Lemma upto_parse k m n :
  (k + 2 <= n)%nat -> upto k (parse cs m) (parse cs n).
Proof.
  intros Hn. unfold parse.
  pose proof (proj1 (advances_read_type m)) as Ha.
  pose proof (fun ty => proj1 (upto_read_type m) n k ty Hn) as Hr.
  apply upto_bind; [apply advances_parse_name| |].
  { apply upto_parse_name. lia. }
  intros _. apply upto_bind_same; [apply advances_consume|]. intros [|].
  { apply upto_bind_same; [apply advances_gets|]. intros t.
    apply upto_bind; [apply Ha|apply Hr|]. intros t'. apply upto_refl. }
  apply upto_bind_same; [apply advances_consume|]. intros [|].
  - apply upto_bind_same; [adv|]. intros _.
    apply upto_bind_same; [apply advances_read_calling_conv|]. intros cc.
    apply upto_bind_same; [adv|]. intros _.
    apply upto_bind_same; [apply advances_alloc|]. intros r.
    apply upto_bind_same; [apply advances_read_storage_class_for_return|].
    intros sc. apply upto_bind; [apply Ha|apply Hr|]. intros r'.
    apply upto_bind_same; [adv|]. intros _.
    now apply upto_read_params.
  - apply upto_bind_same; [adv|]. intros _.
    apply upto_bind_same; [apply advances_read_func_class|]. intros fc.
    apply upto_bind_same; [adv|]. intros _.
    apply upto_bind_same; [apply advances_consume|]. intros _.
    apply upto_bind_same; [apply advances_read_calling_conv|]. intros cc.
    apply upto_bind_same; [adv|]. intros _.
    apply upto_bind_same; [apply advances_alloc|]. intros r.
    apply upto_bind_same; [apply advances_read_storage_class|]. intros sc.
    apply upto_bind;
      [apply advances_read_func_return_type
      |now apply upto_read_func_return_type|].
    intros r'. apply upto_bind_same; [adv|]. intros _.
    now apply upto_read_params.
Qed.

(** ** The text of a symbol is not empty *)

Lemma triple_yields {A : Type} (P : Demangler -> Prop) (Q : A -> Prop)
    (m : M A) :
  yields Q m -> triple P m (fun a _ => Q a).
Proof. intros H d a d' E _. exact (H _ _ _ E). Qed.

Lemma triple_bind_any {A B : Type} (C : Prop) (m : M A) (k : A -> M B)
    (R : B -> Demangler -> Prop) :
  (forall a, triple (fun _ => C) (k a) R) ->
  triple (fun _ => C) (bind m k) R.
Proof.
  intros Hk. apply (triple_bind _ (fun _ _ => C)).
  - intros d a d' _ HC. exact HC.
  - exact Hk.
Qed.

Lemma yields_read_class_prim :
  forall n p ty, yields (fun t' => prim t' = p) (read_class cs n p ty).
Proof.
  intros [|n] p ty; [apply yields_out_of_fuel|].
  cbn [read_class]. cbv zeta. apply yields_bind_any. intros [|].
  - apply yields_bind_any. intros s. apply yields_while; [|reflexivity].
    intros t Ht. apply yields_bind_any. intros tp. apply yields_bind_any.
    intros tp'. apply yields_ret. exact Ht.
  - apply yields_bind_any. intros nm. now apply yields_ret.
Qed.

Lemma yields_read_pointee_prim (read : TypeNode -> M TypeNode) ty :
  yields (fun t' => prim t' = prim ty) (read_pointee cs read ty).
Proof.
  unfold read_pointee. repeat (apply yields_bind_any; intros ?).
  now apply yields_ret.
Qed.

Lemma yields_read_function_pointer_prim (read : TypeNode -> M TypeNode) n ty :
  yields (fun t' => prim t' = Ptr) (read_function_pointer read n ty).
Proof.
  unfold read_function_pointer. repeat (apply yields_bind_any; intros ?).
  now apply yields_ret.
Qed.

Lemma read_array_shown (read : TypeNode -> M TypeNode) ty :
  triple (fun _ => True) (read_array read ty)
    (fun t' d' => error d' = "" -> shown (prim t') = true).
Proof.
  unfold read_array. apply triple_bind_any. intros dim.
  destruct (dim <=? 0) eqn:Ed.
  - intros d a d' H _ He. unfold bind, fail, modify, ret in H.
    injection H as _ <-. discriminate He.
  - apply (triple_bind _ (fun ls _ => List.length ls = Z.to_nat dim)).
    { apply triple_yields, yields_read_array_lens. }
    intros lens. cbv beta. apply triple_bind_any. intros sc.
    apply triple_bind_any. intros elem d a d' [= <- _] Hl _.
    apply Z.leb_gt in Ed. destruct lens as [|l ls]; [cbn in Hl; lia|].
    reflexivity.
Qed.

Lemma read_prim_type_shown :
  triple (fun _ => True) (read_prim_type cs)
    (fun p d' => error d' = "" -> shown p = true).
Proof.
  unfold read_prim_type. apply triple_bind_any. intros c.
  destruct (switch c prim_type_table) as [p|] eqn:E.
  - intros d a d' [= <- _] _ _.
    apply (switch_in (fun p => shown p = true) prim_type_table c p);
      [repeat constructor|exact E].
  - apply triple_bind_any. intros _. unfold read_prim_type_default.
    repeat (apply triple_bind_any; intros [|];
            [now intros d a d' [= <- _] _ _|]).
    apply triple_bind_any. intros s d a d' H _ He.
    unfold bind, fail, modify, ret in H. injection H as _ <-.
    discriminate He.
Qed.

Lemma read_var_type_shown n ty :
  triple (fun _ => True) (read_var_type cs n ty)
    (fun t' d' => error d' = "" -> shown (prim t') = true).
Proof.
  destruct n as [|n]; [intros d a d' H; discriminate H|].
  cbn [read_var_type].
  assert (Hc : forall p, shown p = true ->
            triple (fun _ => True) (read_class cs n p ty)
              (fun t' d' => error d' = "" -> shown (prim t') = true)).
  { intros p Hp.
    apply (triple_weaken _ _ (fun t' _ => prim t' = p));
      [intros a d -> _; exact Hp|].
    apply triple_yields, yields_read_class_prim. }
  assert (Hp : forall t, shown (prim t) = true ->
            triple (fun _ => True) (read_pointee cs (read_var_type cs n) t)
              (fun t' d' => error d' = "" -> shown (prim t') = true)).
  { intros t Ht.
    apply (triple_weaken _ _ (fun t' _ => prim t' = prim t));
      [intros a d -> _; exact Ht|].
    apply triple_yields, yields_read_pointee_prim. }
  apply triple_bind_any; intros [|]; [now apply Hc|].
  apply triple_bind_any; intros [|]; [now apply Hc|].
  apply triple_bind_any; intros [|]; [now apply Hc|].
  apply triple_bind_any; intros [|].
  { apply triple_bind_any. now intros nm d a d' [= <- _] _ _. }
  apply triple_bind_any; intros [|].
  { apply (triple_weaken _ _ (fun t' _ => prim t' = Ptr));
      [now intros a d -> _|].
    apply triple_yields, yields_read_function_pointer_prim. }
  apply triple_bind_any; intros [|]; [now apply Hp|].
  apply triple_bind_any; intros [|]; [now apply Hp|].
  apply triple_bind_any; intros [|]; [now apply Hp|].
  apply triple_bind_any; intros [|]; [apply read_array_shown|].
  apply (triple_bind _ _ _ _ _ read_prim_type_shown).
  intros p d a d' [= <- <-] H. exact H.
Qed.

Lemma read_params_function n stop :
  preserves (fun d => prim (type d) = Function) (read_params cs n stop).
Proof.
  unfold read_params. apply preserves_while.
  - intros d a d' H. unfold bind, error_empty, gets, ret in H.
    now injection H as _ <-.
  - intros _.
    apply preserves_bind;
      [apply (triple_kept (fun t => prim t = Function)), type_kept_alloc|].
    intros tp. apply preserves_bind.
    { apply (triple_kept (fun t => prim t = Function)).
      intros t. apply type_kept_read_var_type. }
    intros tp' d a d' [= _ <-] H. destruct d as [i [] sy ti tb rn e].
    exact H.
Qed.

Lemma parse_function_tail_prim n stop (m : M TypeNode) :
  (forall t, preserves (fun d => type d = t) m) ->
  preserves (fun d => prim (type d) = Function)
    (r' <- m ;; modify_type (fun t => set_ptr t r') ;;; read_params cs n stop).
Proof.
  intros Hk. apply preserves_bind.
  { apply (triple_kept (fun t => prim t = Function)), Hk. }
  intros r'. apply preserves_bind; [|intros _; apply read_params_function].
  intros d a d' [= _ <-] H. destruct d as [i [] sy ti tb rn e]. exact H.
Qed.

Lemma parse_shown n :
  triple (fun _ => True) (parse cs n)
    (fun _ d => error d = "" -> shown (prim (type d)) = true).
Proof.
  assert (W : forall (m : M unit),
            preserves (fun d => prim (type d) = Function) m ->
            triple (fun _ => True)
              (modify_type (fun t => set_prim t Function) ;;; m)
              (fun _ d => error d = "" -> shown (prim (type d)) = true)).
  { intros m Hm d a d' H _ _. unfold bind, modify_type, modify in H.
    now rewrite (Hm _ _ _ H eq_refl). }
  unfold parse. apply triple_bind_any. intros _.
  apply triple_bind_any. intros [|].
  { apply triple_bind_any. intros t.
    apply (triple_bind _ _ _ _ _ (read_var_type_shown n t)).
    intros t' d a d' [= _ <-] H. exact H. }
  apply triple_bind_any. intros [|].
  - apply W.
    apply preserves_bind;
      [apply (triple_kept (fun t => prim t = Function)),
         type_kept_read_calling_conv|].
    intros cc. apply preserves_bind.
    { intros d a d' [= _ <-] H. destruct d as [i [] sy ti tb rn e]. exact H. }
    intros _. apply preserves_bind;
      [apply (triple_kept (fun t => prim t = Function)), type_kept_alloc|].
    intros r. apply preserves_bind;
      [apply (triple_kept (fun t => prim t = Function)),
         type_kept_read_storage_class_for_return|].
    intros sc. apply parse_function_tail_prim.
    intros t. apply type_kept_read_var_type.
  - apply W.
    apply preserves_bind;
      [apply (triple_kept (fun t => prim t = Function)),
         type_kept_read_func_class|].
    intros fc. apply preserves_bind.
    { intros d a d' [= _ <-] H. destruct d as [i [] sy ti tb rn e]. exact H. }
    intros _. apply preserves_bind.
    { apply (triple_kept (fun t => prim t = Function)).
      intros t. apply type_kept_consume. }
    intros _. apply preserves_bind;
      [apply (triple_kept (fun t => prim t = Function)),
         type_kept_read_calling_conv|].
    intros cc. apply preserves_bind.
    { intros d a d' [= _ <-] H. destruct d as [i [] sy ti tb rn e]. exact H. }
    intros _. apply preserves_bind;
      [apply (triple_kept (fun t => prim t = Function)), type_kept_alloc|].
    intros r. apply preserves_bind;
      [apply (triple_kept (fun t => prim t = Function)),
         type_kept_read_storage_class|].
    intros sc. apply parse_function_tail_prim.
    intros t. apply type_kept_read_func_return_type.
Qed.

Lemma append_nonempty_r (a b : string) : b <> "" -> a ++ b <> "".
Proof.
  intros Hb H. apply (f_equal String.length) in H.
  rewrite length_append in H. destruct b; [now elim Hb|cbn in H; lia].
Qed.

Lemma append_nonempty_l (a b : string) : a <> "" -> a ++ b <> "".
Proof. destruct a; [intros H; now elim H|discriminate]. Qed.

Lemma appends_nonempty (base o : string) :
  (exists suf, o = base ++ suf) -> base <> "" -> o <> "".
Proof. intros [suf ->]. apply append_nonempty_l. Qed.

Lemma str_nonempty d out :
  shown (prim (type d)) = true -> str d = Some out -> out <> "".
Proof.
  unfold str. destruct (type d) as [pr sc p cc fc l nm ps].
  cbn [prim]. intros Hs H.
  destruct (write_pre _ "") as [o1|] eqn:E1; [|discriminate H].
  cbn [obind] in H.
  assert (Hout : exists suf, out = o1 ++ suf).
  { refine (appends_write _ _ out o1 (or_intror H) _).
    apply appends_write_name, appends_refl. }
  assert (K : forall x : string,
            (if Z.land sc Const =? 0 then Some x
             else Some (write_space x ++ "const")) = Some o1 ->
            x <> "" -> o1 <> "").
  { intros x Hx Hn. destruct (Z.land sc Const =? 0); injection Hx as <-.
    - exact Hn.
    - apply append_nonempty_r. discriminate. }
  destruct pr; try discriminate Hs;
    match type of Hs with
    | shown Function = _ =>
        cbn [write_post] in H;
        destruct (write_params_with _ _ _ _ _); [|discriminate H];
        injection H as <-; apply append_nonempty_r; discriminate
    | shown Array = _ =>
        cbn [write_post] in H; destruct p as [t|]; [|discriminate H];
        refine (appends_nonempty _ out
                  (appends_write _ _ out _ (or_intror H) (appends_refl _)) _);
        apply append_nonempty_r; discriminate
    | _ =>
        apply (appends_nonempty o1 out Hout);
        cbn [write_pre] in E1; cbv zeta in E1;
        cbn [append prim_keyword] in E1;
        first [ apply (K _ E1); discriminate | idtac ]
    end.
  all: repeat match goal with
       | E : match ?p with Some _ => _ | None => None end = Some _ |- _ =>
           destruct p; [|discriminate E]
       | E : obind ?x _ = Some _ |- _ =>
           destruct x eqn:?; cbn [obind] in E; [|discriminate E]
       end;
       apply (K _ E1);
       repeat match goal with
       | E : match ?l with [] => _ | _ :: _ => _ end = Some _ |- _ =>
           destruct l
       | E : obind ?x _ = Some _ |- _ =>
           destruct x eqn:?; cbn [obind] in E; [|discriminate E]
       | E : Some _ = Some ?s |- ?s <> "" => injection E as <-
       end;
       first [ apply append_nonempty_r; discriminate
             | refine (appends_nonempty _ _
                         (appends_write_name _ _ _ (appends_refl _)) _);
               discriminate ].
Qed.

(** X13.  What [demangle] returns for a symbol is not the empty
    string. *)
Theorem demangle_writes_something :
  forall fuel s out, demangle cs fuel s = Done (Ok out) -> out <> "".
Proof.
  intros fuel s out H. unfold demangle in H.
  destruct (parse cs fuel (init s)) as [[u d]| |] eqn:E; try discriminate H.
  destruct (error d) eqn:Ee; [|discriminate H].
  destruct (str d) as [o|] eqn:Es; [|discriminate H].
  injection H as <-.
  exact (str_nonempty d o (parse_shown fuel _ _ _ E I Ee) Es).
Qed.

(** ** The messages in [error] *)

Lemma reports_ret {A : Type} (a : A) : reports (ret a).
Proof. intros d x d' [= _ <-]. now left. Qed.

Lemma reports_gets {A : Type} (f : Demangler -> A) : reports (gets f).
Proof. intros d x d' [= _ <-]. now left. Qed.

Lemma reports_out_of_fuel {A : Type} : reports (@out_of_fuel A).
Proof. intros d x d' H. discriminate. Qed.

Lemma reports_modify (f : Demangler -> Demangler) :
  (forall d, error (f d) = error d) -> reports (modify f).
Proof. intros He d x d' [= _ <-]. left. apply He. Qed.

Lemma reports_fail msg tail :
  In msg error_messages -> reports (fail (msg ++ tail)).
Proof. intros Hm d x d' [= _ <-]. right. now exists msg, tail. Qed.

Lemma reports_alloc : reports alloc.
Proof.
  intros d x d' H. unfold alloc in H.
  destruct (_ <? _)%nat; [|discriminate]. injection H as _ <-. now left.
Qed.

Lemma reports_record_name s : reports (record_name s).
Proof.
  intros d x d' H. rewrite record_name_run in H. injection H as _ <-.
  left. now destruct (_ <? 10)%nat.
Qed.

Lemma reports_bind {A B : Type} (m : M A) (k : A -> M B) :
  reports m -> (forall a, reports (k a)) -> reports (bind m k).
Proof.
  intros Hm Hk d b d' H. unfold bind in H.
  destruct (m d) as [[a d1]| |] eqn:E; try discriminate.
  destruct (Hk _ _ _ _ H) as [K|K]; [|now right].
  rewrite K. exact (Hm _ _ _ E).
Qed.

Lemma reports_while {A : Type} (cond : M bool) (body : A -> M A) :
  reports cond -> (forall a, reports (body a)) ->
  forall n a, reports (while n cond body a).
Proof.
  intros Hc Hb. induction n as [|n IH]; intros a.
  - apply reports_out_of_fuel.
  - cbn [while]. apply reports_bind; [assumption|].
    intros [|]; [|apply reports_ret].
    apply reports_bind; [apply Hb|]. intros a'. apply IH.
Qed.

Lemma reports_get : reports (get cs).
Proof.
  unfold get. apply reports_bind; [apply reports_gets|]. intros [|c s].
  - apply reports_ret.
  - apply reports_bind; [now apply reports_modify|]. intros _.
    apply reports_ret.
Qed.

Lemma reports_unget c : reports (unget c).
Proof.
  unfold unget. destruct (c =? -1); [apply reports_ret|].
  now apply reports_modify.
Qed.

Ltac rep :=
  repeat match goal with
  | |- reports (bind _ _) => apply reports_bind; [ | intros ? ]
  | |- reports (ret _) => apply reports_ret
  | |- reports (gets _) => apply reports_gets
  | |- reports out_of_fuel => apply reports_out_of_fuel
  | |- reports error_empty => apply reports_gets
  | |- reports (get _) => apply reports_get
  | |- reports (unget _) => apply reports_unget
  | |- reports (trim _) => apply reports_modify; reflexivity
  | |- reports (fail bad_number) =>
      apply (reports_fail "bad number" ""); cbn; tauto
  | |- reports (fail (_ ++ _)) => apply reports_fail; cbn; tauto
  | |- reports (modify_type _) => apply reports_modify; reflexivity
  | |- reports alloc => apply reports_alloc
  | |- reports (record_name _) => apply reports_record_name
  | |- reports (modify _) => apply reports_modify; reflexivity
  | |- reports (while _ _ _ _) => apply reports_while; [ | intros ? ]
  | |- reports (if ?b then _ else _) => destruct b
  | |- reports (match ?x with _ => _ end) => destruct x
  | H : reports ?m |- reports ?m => exact H
  | H : forall _, reports _ |- reports _ => apply H
  | H : forall _ _, reports _ |- reports _ => apply H
  end.

Lemma reports_consume lit : reports (consume lit).
Proof. unfold consume. rep. Qed.

Lemma reports_read_number : reports read_number.
Proof.
  unfold read_number.
  apply reports_bind; [apply reports_consume|]. intros neg. rep.
Qed.

Lemma reports_read_string : reports read_string.
Proof. unfold read_string. rep. Qed.

Lemma reports_read_name_body v : reports (read_name_body v).
Proof. unfold read_name_body. pose proof reports_read_string. rep. Qed.

Lemma reports_read_name_loop : forall n v, reports (read_name_loop n v).
Proof.
  induction n as [|n IH]; intros v; cbn [read_name_loop].
  - rep.
  - pose proof (reports_consume "@"). pose proof reports_read_name_body. rep.
Qed.

Lemma reports_read_name n : reports (read_name n).
Proof. apply reports_read_name_loop. Qed.

Lemma reports_read_func_class : reports (read_func_class cs).
Proof. unfold read_func_class. rep. Qed.

Lemma reports_read_calling_conv : reports (read_calling_conv cs).
Proof. unfold read_calling_conv. rep. Qed.

Lemma reports_read_storage_class : reports (read_storage_class cs).
Proof. unfold read_storage_class. rep. Qed.

Lemma reports_read_storage_class_for_return :
  reports read_storage_class_for_return.
Proof.
  unfold read_storage_class_for_return. pose proof reports_consume. rep.
Qed.

Lemma reports_read_prim_type : reports (read_prim_type cs).
Proof.
  unfold read_prim_type, read_prim_type_default.
  pose proof reports_consume. rep.
Qed.

Lemma reports_read_array_lens : forall n, reports (read_array_lens n).
Proof.
  induction n as [|n IH]; cbn [read_array_lens];
    pose proof reports_read_number; rep.
Qed.

Lemma reports_read_array_qualifier : reports read_array_qualifier.
Proof.
  unfold read_array_qualifier, read_array_qualifier_letter.
  pose proof reports_consume. rep.
Qed.

Lemma reports_read_type :
  forall n,
    (forall ty, reports (read_var_type cs n ty)) /\
    (forall p ty, reports (read_class cs n p ty)).
Proof.
  pose proof reports_consume. pose proof reports_read_name.
  pose proof reports_read_number. pose proof reports_read_array_lens.
  pose proof reports_read_array_qualifier.
  pose proof reports_read_storage_class.
  pose proof reports_read_prim_type. pose proof reports_read_string.
  induction n as [|n [IHv IHc]]; split; intros.
  - cbn. rep.
  - cbn. rep.
  - cbn [read_var_type].
    unfold read_pointee, read_function_pointer, read_array. rep.
  - cbn [read_class]. cbv zeta. rep.
Qed.

Lemma reports_read_func_return_type n ty :
  reports (read_func_return_type cs n ty).
Proof.
  unfold read_func_return_type.
  pose proof reports_consume. pose proof (proj1 (reports_read_type n)). rep.
Qed.

Lemma reports_read_params n stop : reports (read_params cs n stop).
Proof.
  unfold read_params. pose proof (proj1 (reports_read_type n)). rep.
Qed.

Lemma reports_parse_name n : reports (parse_name n).
Proof.
  unfold parse_name.
  pose proof reports_consume. pose proof reports_read_name. rep.
Qed.

Lemma reports_parse n : reports (parse cs n).
Proof.
  unfold parse.
  pose proof reports_consume. pose proof reports_parse_name.
  pose proof (proj1 (reports_read_type n)).
  pose proof reports_read_calling_conv.
  pose proof reports_read_storage_class_for_return.
  pose proof reports_read_params. pose proof reports_read_func_class.
  pose proof reports_read_storage_class.
  pose proof reports_read_func_return_type. rep.
Qed.

(** X14.  The parser knows eight messages.  A reader leaves [error] as
    it is or sets it to one of them, followed by the text that it
    appends; [demangle] fails with no other message. *)
Theorem errors_come_from_the_catalogue :
  (forall fuel,
     reports read_number /\ reports read_string /\ reports (read_name fuel) /\
     reports (read_func_class cs) /\ reports (read_calling_conv cs) /\
     reports (read_prim_type cs) /\
     (forall ty, reports (read_var_type cs fuel ty)) /\
     reports (parse cs fuel)) /\
  (forall fuel s msg,
     demangle cs fuel s = Done (Err msg) ->
     exists known tail, In known error_messages /\ msg = known ++ tail).
Proof.
  split.
  - intros fuel.
    split; [apply reports_read_number|].
    split; [apply reports_read_string|].
    split; [apply reports_read_name|].
    split; [apply reports_read_func_class|].
    split; [apply reports_read_calling_conv|].
    split; [apply reports_read_prim_type|].
    split; [apply (proj1 (reports_read_type fuel))|].
    apply reports_parse.
  - intros fuel s msg H. unfold demangle in H.
    destruct (parse cs fuel (init s)) as [[u d]| |] eqn:E; try discriminate H.
    destruct (reports_parse fuel _ _ _ E) as [K|K].
    + cbn in K. rewrite K in H. destruct (str d); discriminate H.
    + destruct (error d) eqn:Ee.
      * destruct (str d); discriminate H.
      * injection H as <-. exact K.
Qed.

(** ** Literals *)

(** X15.  [consume] reads a literal exactly when the input begins with
    it, and then reads the literal and no more; otherwise it returns
    false and leaves the state as it was. *)
Theorem consume_reads_exactly_the_literal :
  forall lit d,
    (forall r, input d = lit ++ r ->
       consume lit d = Done (true, set_input d r)) /\
    ((forall r, input d <> lit ++ r) -> consume lit d = Done (false, d)).
Proof.
  intros lit d. rewrite consume_run. split.
  - intros r Hin. now rewrite Hin, startswith_app, drop_app.
  - intros H. destruct (startswith (input d) lit) eqn:E; [|reflexivity].
    elim (H _ (startswith_split lit _ E)).
Qed.

(** ** Functions over primitive types *)

Lemma prim_code_not_at (code : ascii) pr :
  switch (chr code) prim_type_table = Some pr -> startswith_char (String code "") "@" = false.
Proof.
  intros H. cbn [startswith_char].
  destruct (Ascii.eqb code "@") eqn:E; [|reflexivity].
  apply Ascii.eqb_eq in E. subst code. discriminate H.
Qed.

Lemma params_loop_prims ps rest n :
  Forall (fun cp => switch (chr (fst cp)) prim_type_table = Some (snd cp)) ps ->
  forall m d,
    input d = fold_right (fun cp s => String (fst cp) s) (String "@" rest) ps ->
    error d = "" ->
    (type_index d + List.length ps <= type_buffer_size)%nat ->
    (List.length ps < m)%nat ->
    while m
      (e <- error_empty ;;
       s <- gets input ;;
       ret (e && negb (String.eqb s "") && negb (startswith_char s "@")))
      (fun _ =>
         tp <- alloc ;;
         tp' <- read_var_type cs (S n) tp ;;
         modify_type (fun t => push_param t tp'))
      tt d
    = Done (tt,
            mkDemangler (String "@" rest)
              (fold_left push_param
                 (map (fun cp => set_prim fresh (snd cp)) ps) (type d))
              (symbol d) (type_index d + List.length ps) (type_buffer2 d)
              (repeated_names d) "").
Proof.
  induction 1 as [|[code pr] ps Hc _ IH]; intros m d Hin He Hti Hm;
    (destruct m as [|m]; [cbn in Hm; lia|]); cbn [while fold_right] in *.
  - unfold bind, error_empty, gets, ret. rewrite He, Hin. cbn.
    rewrite Nat.add_0_r. destruct d; cbn in *. now subst.
  - cbn [fst snd] in *. unfold bind at 1. unfold bind at 1.
    unfold error_empty at 1, gets at 1. rewrite He.
    unfold bind at 1, gets at 1. rewrite Hin. unfold ret at 1.
    cbn [String.eqb andb negb startswith_char].
    pose proof (prim_code_not_at code pr Hc) as Hat.
    cbn [startswith_char] in Hat. rewrite Hat. cbn [negb].
    unfold bind at 1. unfold bind at 1. unfold alloc at 1.
    cbn [List.length] in Hti.
    destruct (type_index d <? type_buffer_size)%nat eqn:El;
      [|apply Nat.ltb_ge in El; lia].
    unfold bind at 1.
    rewrite (read_var_type_prim code pr Hc n fresh
               (set_type_index d (S (type_index d))) _ Hin).
    unfold modify_type, modify.
    rewrite IH.
    + cbn [input type symbol type_index type_buffer2 repeated_names error
           set_type set_input set_type_index map fold_left List.length snd].
      replace (S (type_index d) + List.length ps)%nat
        with (type_index d + S (List.length ps))%nat by lia.
      reflexivity.
    + reflexivity.
    + exact He.
    + cbn [type_index set_type set_input set_type_index]. lia.
    + cbn [List.length] in Hm. lia.
Qed.

Lemma write_prim pr os :
  In pr (map snd prim_type_table) ->
  write_pre (set_prim fresh pr) os = Some (os ++ prim_keyword pr) /\
  write_post (set_prim fresh pr) os = Some os.
Proof.
  cbn [map snd prim_type_table In]. intros H.
  repeat (destruct H as [<-|H]; [split; reflexivity|]). elim H.
Qed.

Lemma prim_code_value (code : ascii) pr :
  switch (chr code) prim_type_table = Some pr ->
  In pr (map snd prim_type_table).
Proof.
  intros H. destruct (switch_In _ _ _ H) as (c & Hc & _).
  apply (in_map snd) in Hc. exact Hc.
Qed.

Lemma write_params_prims ps :
  Forall (fun cp => switch (chr (fst cp)) prim_type_table = Some (snd cp)) ps ->
  forall first os,
    write_params_with write_pre write_post
      (map (fun cp => set_prim fresh (snd cp)) ps) first os
    = Some match ps with
           | [] => os
           | _ :: _ =>
               os ++ (if first : bool then "" else ",")
                  ++ String.concat "," (map (fun cp => prim_keyword (snd cp)) ps)
           end.
Proof.
  induction 1 as [|[code pr] ps Hc Hps IH]; intros first os;
    cbn [map write_params_with snd]; [reflexivity|].
  destruct (write_prim pr (if first then os else os ++ ",")
              (prim_code_value code pr Hc)) as [-> _].
  cbn [obind].
  destruct (write_prim pr ((if first then os else os ++ ",") ++ prim_keyword pr)
              (prim_code_value code pr Hc)) as [_ ->].
  cbn [obind]. rewrite IH. f_equal. cbn [String.concat map snd].
  destruct ps as [|cp ps]; cbn [map];
    destruct first; cbn [append]; rewrite ?append_assoc; reflexivity.
Qed.

Lemma fold_push_param l :
  forall t,
    fold_left push_param l t
    = mkType (prim t) (sclass t) (ptr t) (calling_conv t) (func_class t)
        (len t) (name t) (params t ++ l).
Proof.
  induction l as [|x l IH]; intros t; cbn [fold_left].
  - rewrite app_nil_r. now destruct t.
  - rewrite IH. cbn. now rewrite <- app_assoc.
Qed.

Lemma prim_keyword_space pr :
  In pr (map snd prim_type_table) ->
  write_space (prim_keyword pr) = prim_keyword pr ++ " ".
Proof.
  cbn [map snd prim_type_table In]. intros H.
  repeat (destruct H as [<-|H]; [reflexivity|]). elim H.
Qed.

Lemma prim_code_not_question (code : ascii) pr rest lit :
  switch (chr code) prim_type_table = Some pr ->
  startswith (String code rest) (String "?" lit) = false.
Proof.
  intros H. cbn [startswith].
  destruct (Ascii.eqb code "?") eqn:E; [|reflexivity].
  apply Ascii.eqb_eq in E. subst code. discriminate H.
Qed.

Lemma str_function rpr ps n0 outer d :
  In rpr (map snd prim_type_table) ->
  Forall (fun cp => switch (chr (fst cp)) prim_type_table = Some (snd cp)) ps ->
  startswith n0 "?0" = false -> startswith n0 "?1" = false ->
  type d
  = fold_left push_param (map (fun cp => set_prim fresh (snd cp)) ps)
      (set_ptr (set_calling_conv (set_prim fresh Function) Cdecl)
         (set_prim fresh rpr)) ->
  symbol d = n0 :: outer ->
  str d
  = Some (prim_keyword rpr ++ " "
            ++ String.concat "::" (rev (n0 :: outer))
            ++ "("
            ++ String.concat "," (map (fun cp => prim_keyword (snd cp)) ps)
            ++ ")").
Proof.
  intros Hr Hps H0 H1 Ht Hs. unfold str. rewrite Ht, Hs, fold_push_param.
  set (l := map (fun cp => set_prim fresh (snd cp)) ps).
  set (r := set_prim fresh rpr).
  cbn [prim sclass ptr calling_conv func_class len name params set_ptr
       set_calling_conv set_prim fresh app write_pre write_post].
  subst r. destruct (write_prim rpr "" Hr) as [-> _]. cbn [obind append].
  rewrite (write_name_ordinary n0 outer _ H0 H1), (prim_keyword_space _ Hr).
  subst l. rewrite write_params_prims by exact Hps. cbn [obind]. f_equal.
  destruct ps; cbn [append]; rewrite ?append_assoc; reflexivity.
Qed.

(** X16.  A function that is not a member, over primitive types.  The
    symbol is '?', the mangled name, "YA", the code of the return type,
    the codes of the parameters and '@'; the bytes after it are not
    read.  For up to nineteen parameters [demangle] returns the keyword
    of the return type, a space, the qualified name, and the keywords
    of the parameters in parentheses, separated by commas. *)
Theorem demangle_function_of_primitive_types :
  forall n0 outer rc rpr ps rest k,
    Forall (fun id => id <> "" /\ find_at id = None /\
                      starts_with_digit id = false) (n0 :: outer) ->
    startswith n0 "?0" = false -> startswith n0 "?1" = false ->
    switch (chr rc) prim_type_table = Some rpr ->
    Forall (fun cp => switch (chr (fst cp)) prim_type_table = Some (snd cp))
      ps ->
    (List.length ps < type_buffer_size)%nat ->
    demangle cs (List.length outer + List.length ps + 2 + k)
      (String "?"
         (fold_right (fun id s => id ++ String "@" s)
            (String "@"
               (String "Y" (String "A" (String rc
                  (fold_right (fun cp s => String (fst cp) s)
                     (String "@" rest) ps)))))
            (n0 :: outer)))
    = Done (Ok (prim_keyword rpr ++ " "
                  ++ String.concat "::" (rev (n0 :: outer))
                  ++ "("
                  ++ String.concat ","
                       (map (fun cp => prim_keyword (snd cp)) ps)
                  ++ ")")).
Proof.
  intros n0 outer rc rpr ps rest k Hids H0 H1 Hr Hps Hn.
  replace (List.length outer + List.length ps + 2 + k)%nat
    with (S (S (List.length outer + List.length ps + k))) by lia.
  unfold demangle, parse. unfold bind at 1. rewrite parse_name_mangled.
  unfold bind at 1. unfold read_name.
  rewrite (read_name_loop_run (n0 :: outer)
             (String "Y" (String "A" (String rc
                (fold_right (fun cp s => String (fst cp) s)
                   (String "@" rest) ps))))
             Hids _ [] (init _) eq_refl)
    by (cbn [List.length]; lia).
  unfold modify at 1. unfold bind at 1. rewrite consume_run.
  cbn [input set_input set_symbol set_repeated_names startswith Ascii.eqb
       Bool.eqb andb String.length drop].
  unfold bind at 1. rewrite consume_run.
  cbn [input set_input set_symbol set_repeated_names startswith Ascii.eqb
       Bool.eqb andb String.length drop].
  unfold bind at 1. unfold modify_type at 1, modify at 1.
  unfold bind at 1. unfold read_calling_conv.
  erewrite switch_known by reflexivity. unfold ret at 1.
  unfold bind at 1. unfold modify_type at 1, modify at 1.
  unfold bind at 1. unfold alloc at 1.
  cbn [type_index set_type set_input set_symbol set_repeated_names init
       Nat.ltb Nat.leb type_buffer_size].
  unfold bind at 1. unfold read_storage_class_for_return.
  repeat (unfold bind at 1; rewrite consume_run;
          cbn [input set_type set_type_index set_input];
          rewrite (prim_code_not_question rc rpr _ _ Hr)).
  unfold ret at 1. unfold bind at 1.
  erewrite read_var_type_prim by (try exact Hr; reflexivity).
  unfold bind at 1. unfold modify_type at 1, modify at 1.
  unfold read_params.
  rewrite (params_loop_prims ps rest _ Hps);
    [|reflexivity|reflexivity
     |cbn [type_index set_type set_input set_type_index]; unfold type_buffer_size in *; lia
     |lia].
  cbv beta iota. cbn [error].
  erewrite (str_function rpr ps n0 outer);
    [reflexivity|exact (prim_code_value rc rpr Hr)|exact Hps|exact H0|exact H1
    |reflexivity|reflexivity].
Qed.

(** ** The end of a parameter list *)

(** A byte that begins no type, where a type is expected. *)
Lemma read_var_type_unknown (c : ascii) rest n ty d :
  c = "Z"%char \/ c = "@"%char ->
  input d = String c rest ->
  read_var_type cs (S n) ty d
  = Done (set_prim ty Unknown,
          set_error d ("unknown primitive type: " ++ input d)).
Proof.
  intros Hc Hin. cbn [read_var_type].
  destruct Hc as [-> | ->];
    repeat (unfold bind at 1; rewrite consume_run, Hin;
            cbn [startswith Ascii.eqb Bool.eqb andb]);
    unfold bind at 1; unfold read_prim_type;
    (erewrite switch_unknown; [|exact Hin|reflexivity]);
    match goal with
    | |- context [char_to_int cs ?c =? -1] =>
        change (char_to_int cs c =? -1) with false
    end;
    unfold read_prim_type_default;
    repeat (unfold bind at 1; rewrite consume_run, Hin;
            cbn [startswith Ascii.eqb Bool.eqb andb]);
    unfold bind, gets, fail, modify, ret; rewrite ?Hin; reflexivity.
Qed.

(** X17.  The parameter list of a function that is not a member ends
    at '@' or at the end of the input, that of a member function at 'Z'
    or at the end of the input, and nowhere else: [read_params] entered
    without an error at the other of the two bytes takes a node, finds
    no type, and sets the error to "unknown primitive type: " followed
    by the input, of which it has read nothing. *)
Theorem parameter_list_ends_at_one_byte_only :
  forall n d c stop rest,
    error d = "" -> input d = String c rest ->
    (type_index d < type_buffer_size)%nat ->
    (c = stop ->
     read_params cs (S n) stop d = Done (tt, d)) /\
    ((c = "Z"%char /\ stop = "@"%char) \/ (c = "@"%char /\ stop = "Z"%char) ->
     read_params cs (S (S n)) stop d
     = Done (tt,
             set_type
               (set_error (set_type_index d (S (type_index d)))
                  ("unknown primitive type: " ++ input d))
               (push_param (type d) (set_prim fresh Unknown)))).
Proof.
  intros n d c stop rest He Hin Hti. split.
  - intros ->. unfold read_params. cbn [while].
    unfold bind, error_empty, gets, ret. rewrite He, Hin.
    cbn [String.eqb startswith_char]. rewrite Ascii.eqb_refl. reflexivity.
  - intros Hc. unfold read_params. cbn [while].
    unfold bind at 1. unfold bind at 1.
    unfold error_empty at 1, gets at 1. rewrite He.
    unfold bind at 1, gets at 1. rewrite Hin. unfold ret at 1.
    assert (Es : startswith_char (String c rest) stop = false)
      by (destruct Hc as [[-> ->]|[-> ->]]; reflexivity).
    rewrite Es. cbn [String.eqb andb negb].
    unfold bind at 1. unfold bind at 1. unfold alloc at 1.
    destruct (type_index d <? type_buffer_size)%nat eqn:El;
      [|apply Nat.ltb_ge in El; lia].
    unfold bind at 1.
    rewrite (read_var_type_unknown c rest (S n) fresh
               (set_type_index d (S (type_index d))))
      by (tauto || exact Hin).
    unfold modify_type, modify.
    unfold bind, error_empty, gets, ret.
    cbn [error set_type set_error set_type_index input type append andb].
    rewrite ?Hin. reflexivity.
Qed.

(** ** Nodes taken and nodes in the tree

    Every node that [alloc] hands out is stored in one [ptr] or one
    [params] slot of the tree under construction. *)
Lemma nodes_set_ptr ty t :
  ptr ty = None -> nodes (set_ptr ty t) = (nodes ty + nodes t)%nat.
Proof.
  destruct ty as [pr sc p cc fc l nm ps]. cbn. intros ->.
  unfold list_sum. lia.
Qed.

Lemma nodes_push_param ty t :
  nodes (push_param ty t) = (nodes ty + nodes t)%nat.
Proof.
  destruct ty as [pr sc p cc fc l nm ps].
  cbn [nodes push_param prim sclass ptr calling_conv func_class len name
       params].
  rewrite map_app, list_sum_app. cbn [map list_sum fold_right]. lia.
Qed.

Lemma nodes_array_chain ls :
  forall tp l elem,
    ptr tp = None ->
    nodes (array_chain tp (l :: ls) elem)
    = (nodes tp + List.length ls + nodes elem)%nat.
Proof.
  induction ls as [|l' ls IH]; intros tp l elem Hp.
  - cbn [array_chain]. rewrite nodes_set_ptr by (destruct tp; exact Hp).
    destruct tp; cbn in *. unfold list_sum. lia.
  - change (array_chain tp (l :: l' :: ls) elem)
      with (set_ptr (set_len (set_prim tp Array) l)
              (array_chain fresh (l' :: ls) elem)).
    rewrite nodes_set_ptr by (destruct tp; exact Hp).
    rewrite (IH fresh l' elem eq_refl).
    destruct tp; cbn in *. unfold list_sum. lia.
Qed.

Lemma tallies_ret {A : Type} (f : A -> nat) b a :
  f a = b -> tallies f b (ret a).
Proof. intros H d x d' [= <- <-]. now rewrite H. Qed.

Lemma tallies_out_of_fuel {A : Type} (f : A -> nat) b :
  tallies f b out_of_fuel.
Proof. intros d x d' H. discriminate. Qed.

Lemma tallies_bind {A B : Type} (g : A -> nat) (f : B -> nat) b1 b
    (b2 : A -> nat) (Q : A -> Prop) (m : M A) (k : A -> M B) :
  yields Q m -> tallies g b1 m ->
  (forall a, Q a -> (b2 a + b1 = b + g a)%nat) ->
  (forall a, Q a -> tallies f (b2 a) (k a)) ->
  tallies f b (bind m k).
Proof.
  intros Hq Hm Hb Hk d r d' H. unfold bind in H.
  destruct (m d) as [[a d1]| |] eqn:E; try discriminate.
  pose proof (Hq _ _ _ E) as Qa. pose proof (Hm _ _ _ E).
  pose proof (Hk a Qa _ _ _ H). pose proof (Hb a Qa). lia.
Qed.

(** A step that takes no node. *)
Lemma tallies_bind_keep {A B : Type} (f : B -> nat) b (m : M A)
    (k : A -> M B) :
  (forall i, preserves (fun d => type_index d = i) m) ->
  (forall a, tallies f b (k a)) -> tallies f b (bind m k).
Proof.
  intros Hm Hk d r d' H. unfold bind in H.
  destruct (m d) as [[a d1]| |] eqn:E; try discriminate.
  pose proof (Hm _ _ _ _ E eq_refl) as K1. cbv beta in K1.
  pose proof (Hk a _ _ _ H). lia.
Qed.

Lemma tallies_alloc {B : Type} (f : B -> nat) b (k : TypeNode -> M B) :
  tallies f (b + 1) (k fresh) -> tallies f b (bind alloc k).
Proof.
  intros Hk d r d' H. unfold bind, alloc in H.
  destruct (type_index d <? type_buffer_size)%nat; [|discriminate].
  pose proof (Hk _ _ _ H) as K. cbn in K. lia.
Qed.

Lemma index_kept_consume lit i :
  preserves (fun d => type_index d = i) (consume lit).
Proof. apply preserves_consume. auto. Qed.

Lemma index_kept_read_number i :
  preserves (fun d => type_index d = i) read_number.
Proof. apply preserves_read_number; auto. Qed.

Lemma index_kept_read_string i :
  preserves (fun d => type_index d = i) read_string.
Proof. apply preserves_read_string; auto. Qed.

Lemma index_kept_read_name n i :
  preserves (fun d => type_index d = i) (read_name n).
Proof. apply preserves_read_name; auto. Qed.

Lemma index_kept_read_storage_class i :
  preserves (fun d => type_index d = i) (read_storage_class cs).
Proof. apply preserves_read_storage_class; auto. Qed.

Lemma index_kept_read_storage_class_for_return i :
  preserves (fun d => type_index d = i) read_storage_class_for_return.
Proof. apply preserves_read_storage_class_for_return; auto. Qed.

Lemma index_kept_read_calling_conv i :
  preserves (fun d => type_index d = i) (read_calling_conv cs).
Proof. apply preserves_read_calling_conv; auto. Qed.

Lemma index_kept_read_func_class i :
  preserves (fun d => type_index d = i) (read_func_class cs).
Proof. apply preserves_read_func_class; auto. Qed.

Lemma index_kept_read_prim_type i :
  preserves (fun d => type_index d = i) (read_prim_type cs).
Proof. apply preserves_read_prim_type; auto. Qed.

Lemma index_kept_read_array_qualifier i :
  preserves (fun d => type_index d = i) read_array_qualifier.
Proof. apply preserves_read_array_qualifier; auto. Qed.

Lemma index_kept_fail msg i : preserves (fun d => type_index d = i) (fail msg).
Proof. intros d a d' [= _ <-] H. exact H. Qed.

Lemma yields_any {A : Type} (m : M A) : yields (fun _ => True) m.
Proof. intros d a d' _. exact I. Qed.

Lemma tallies_read_array_lens :
  forall n, tallies (@List.length Z) 0 (read_array_lens n).
Proof.
  induction n as [|n IH]; cbn [read_array_lens].
  - now apply tallies_ret.
  - apply tallies_bind_keep; [apply index_kept_read_number|]. intros l.
    apply tallies_alloc.
    apply (tallies_bind (@List.length Z) _ 0 _ (fun ls => S (List.length ls))
             _ _ _ (yields_any _) IH).
    + intros ls _. lia.
    + intros ls _. now apply tallies_ret.
Qed.

Lemma tallies_while {A : Type} (f : A -> nat) (cond : M bool)
    (body : A -> M A) :
  (forall i, preserves (fun d => type_index d = i) cond) ->
  (forall a, tallies f (f a) (body a)) ->
  forall n a, tallies f (f a) (while n cond body a).
Proof.
  intros Hc Hb. induction n as [|n IH]; intros a.
  - apply tallies_out_of_fuel.
  - cbn [while]. apply tallies_bind_keep; [exact Hc|]. intros [|].
    + apply (tallies_bind f f (f a) (f a) (fun a' => f a') _ _ _
               (yields_any _) (Hb a)).
      * intros a' _. lia.
      * intros a' _. apply IH.
    + now apply tallies_ret.
Qed.

Lemma index_kept_template_cond i :
  preserves (fun d => type_index d = i)
    (e <- error_empty ;;
     if e : bool then a <- consume "@" ;; ret (negb a) else ret false).
Proof.
  apply preserves_bind; [apply preserves_gets|]. intros [|].
  - apply preserves_bind; [apply index_kept_consume|]. intros a.
    apply preserves_ret.
  - apply preserves_ret.
Qed.

Lemma index_kept_function_cond i :
  preserves (fun d => type_index d = i)
    (e <- error_empty ;;
     if e : bool then
       a <- consume "@Z" ;;
       if a : bool then ret false else z <- consume "Z" ;; ret (negb z)
     else ret false).
Proof.
  apply preserves_bind; [apply preserves_gets|]. intros [|].
  - apply preserves_bind; [apply index_kept_consume|]. intros [|].
    + apply preserves_ret.
    + apply preserves_bind; [apply index_kept_consume|]. intros z.
      apply preserves_ret.
  - apply preserves_ret.
Qed.

(** The body of a parameter loop adds the node it took, and those taken
    for the type read into it, to the parameters. *)
Lemma tallies_parameter (read : TypeNode -> M TypeNode) a :
  tallies nodes 1 (read fresh) ->
  tallies nodes (nodes a)
    (tp <- alloc ;; tp' <- read tp ;; ret (push_param a tp')).
Proof.
  intros Hr. apply tallies_alloc.
  apply (tallies_bind nodes nodes 1 _ (fun tp' => (nodes a + nodes tp')%nat)
           _ _ _ (yields_any _) Hr).
  - intros tp' _. lia.
  - intros tp' _. apply tallies_ret. apply nodes_push_param.
Qed.

Lemma tallies_read_pointee (read : TypeNode -> M TypeNode) ty :
  (forall sc, tallies nodes 1 (read (set_sclass fresh sc))) ->
  ptr ty = None ->
  tallies nodes (nodes ty) (read_pointee cs read ty).
Proof.
  intros Hr Hp. unfold read_pointee.
  apply tallies_bind_keep; [intros i; apply index_kept_consume|]. intros _.
  apply tallies_alloc.
  apply tallies_bind_keep; [apply index_kept_read_storage_class|]. intros sc.
  apply (tallies_bind nodes nodes 1 _ (fun p' => (nodes ty + nodes p')%nat)
           _ _ _ (yields_any _) (Hr sc)).
  - intros p' _. lia.
  - intros p' _. apply tallies_ret. now apply nodes_set_ptr.
Qed.

Lemma tallies_read_function_pointer (read : TypeNode -> M TypeNode) n ty :
  tallies nodes 1 (read fresh) -> ptr ty = None ->
  tallies nodes (nodes ty) (read_function_pointer read n ty).
Proof.
  intros Hr Hp. unfold read_function_pointer.
  apply tallies_alloc. apply tallies_alloc.
  apply (tallies_bind nodes nodes 1 _ (fun r' => (nodes ty + 1 + nodes r')%nat)
           _ _ _ (yields_any _) Hr).
  { intros r' _. lia. }
  intros r' _.
  apply (tallies_bind nodes nodes
           (nodes (set_ptr (set_prim fresh Function) r')) _
           (fun fn' => (nodes ty + nodes fn')%nat) _ _ _ (yields_any _)).
  - apply tallies_while; [apply index_kept_function_cond|].
    intros a. now apply tallies_parameter.
  - intros fn' _. rewrite nodes_set_ptr by reflexivity. cbn. lia.
  - intros fn' _. apply tallies_ret.
    rewrite nodes_set_ptr by (destruct ty; exact Hp). now destruct ty.
Qed.

Lemma tallies_read_array (read : TypeNode -> M TypeNode) ty :
  tallies nodes 1 (read fresh) -> ptr ty = None ->
  tallies nodes (nodes ty) (read_array read ty).
Proof.
  intros Hr Hp. unfold read_array.
  apply tallies_bind_keep; [apply index_kept_read_number|]. intros dim.
  destruct (dim <=? 0) eqn:Ed.
  - apply tallies_bind_keep; [intros i; apply index_kept_fail|]. intros _.
    now apply tallies_ret.
  - apply Z.leb_gt in Ed.
    apply (tallies_bind (@List.length Z) nodes 0 _
             (fun ls => (nodes ty + List.length ls)%nat)
             (fun ls => List.length ls = Z.to_nat dim) _ _
             (yields_read_array_lens _) (tallies_read_array_lens _)).
    { intros ls _. lia. }
    intros ls Hl.
    apply tallies_bind_keep; [apply index_kept_read_array_qualifier|].
    intros sc.
    apply (tallies_bind nodes nodes 1 _
             (fun elem => (nodes ty + List.length ls - 1 + nodes elem)%nat)
             _ _ _ (yields_any _) Hr).
    { intros elem _. lia. }
    intros elem _. apply tallies_ret.
    destruct ls as [|l ls]; [cbn in Hl; lia|].
    rewrite nodes_array_chain by (destruct sc, ty; exact Hp).
    destruct sc, ty; cbn; unfold list_sum; lia.
Qed.

Lemma tallies_read_type :
  forall n,
    (forall ty, ptr ty = None ->
       tallies nodes (nodes ty) (read_var_type cs n ty)) /\
    (forall p ty, tallies nodes (nodes ty) (read_class cs n p ty)).
Proof.
  induction n as [|n [IHv IHc]]; split; intros;
    try apply tallies_out_of_fuel.
  - destruct ty as [pr0 sc0 p0 cc0 fc0 l0 nm0 ps0]. cbn [ptr] in H. subst p0.
    cbn [read_var_type].
    assert (Hf : forall sc, tallies nodes 1
                   (read_var_type cs n (set_sclass fresh sc)))
      by (intros sc; apply (IHv (set_sclass fresh sc) eq_refl)).
    pose proof (Hf 0) as Hf0. change (set_sclass fresh 0) with fresh in Hf0.
    apply tallies_bind_keep; [intros i; apply index_kept_consume|].
    intros [|]; [apply IHc|].
    apply tallies_bind_keep; [intros i; apply index_kept_consume|].
    intros [|]; [apply IHc|].
    apply tallies_bind_keep; [intros i; apply index_kept_consume|].
    intros [|]; [apply IHc|].
    apply tallies_bind_keep; [intros i; apply index_kept_consume|].
    intros [|].
    { apply tallies_bind_keep; [intros i; apply index_kept_read_name|].
      intros nm. apply tallies_ret. reflexivity. }
    apply tallies_bind_keep; [intros i; apply index_kept_consume|].
    intros [|]; [now apply tallies_read_function_pointer|].
    apply tallies_bind_keep; [intros i; apply index_kept_consume|].
    intros [|].
    { match goal with
      | |- tallies nodes ?b (read_pointee _ _ ?a) => change b with (nodes a)
      end.
      apply tallies_read_pointee; [exact Hf|reflexivity]. }
    apply tallies_bind_keep; [intros i; apply index_kept_consume|].
    intros [|].
    { match goal with
      | |- tallies nodes ?b (read_pointee _ _ ?a) => change b with (nodes a)
      end.
      apply tallies_read_pointee; [exact Hf|reflexivity]. }
    apply tallies_bind_keep; [intros i; apply index_kept_consume|].
    intros [|].
    { match goal with
      | |- tallies nodes ?b (read_pointee _ _ ?a) => change b with (nodes a)
      end.
      apply tallies_read_pointee; [exact Hf|reflexivity]. }
    apply tallies_bind_keep; [intros i; apply index_kept_consume|].
    intros [|]; [now apply tallies_read_array|].
    apply tallies_bind_keep; [intros i; apply index_kept_read_prim_type|].
    intros pr. apply tallies_ret. reflexivity.
  - destruct ty as [pr0 sc0 p0 cc0 fc0 l0 nm0 ps0].
    cbn [read_class]. cbv zeta.
    apply tallies_bind_keep; [intros i; apply index_kept_consume|].
    intros [|].
    + apply tallies_bind_keep; [intros i; apply index_kept_read_string|].
      intros s.
      match goal with
      | |- tallies nodes ?b (while _ _ _ ?a) => change b with (nodes a)
      end.
      apply tallies_while; [apply index_kept_template_cond|].
      intros a. apply tallies_parameter. apply (IHv fresh eq_refl).
    + apply tallies_bind_keep; [intros i; apply index_kept_read_name|].
      intros nm. apply tallies_ret. reflexivity.
Qed.

Lemma alloc_run d a d' :
  alloc d = Done (a, d') ->
  a = fresh /\ d' = set_type_index d (S (type_index d)) /\
  (type_index d < type_buffer_size)%nat.
Proof.
  unfold alloc. destruct (type_index d <? type_buffer_size)%nat eqn:E;
    [|discriminate].
  intros [= <- <-]. apply Nat.ltb_lt in E. auto.
Qed.

Lemma read_params_nodes n stop i0 n0 :
  preserves (fun d => (nodes (type d) + i0 = n0 + type_index d)%nat)
    (read_params cs n stop).
Proof.
  unfold read_params. apply preserves_while.
  - intros d a d' H. unfold bind, error_empty, gets, ret in H.
    now injection H as _ <-.
  - intros _ d a d' H K. unfold bind in H.
    destruct (alloc d) as [[tp d1]| |] eqn:E1; try discriminate H.
    destruct (read_var_type cs n tp d1) as [[tp' d2]| |] eqn:E2;
      try discriminate H.
    injection H as _ <-.
    destruct (alloc_run _ _ _ E1) as (-> & -> & _).
    pose proof (proj1 (tallies_read_type n) fresh eq_refl _ _ _ E2) as T.
    pose proof (type_kept_read_var_type n fresh _ _ _ _ E2 eq_refl) as Ht.
    cbn in T, Ht. cbn [type set_type type_index].
    rewrite nodes_push_param, Ht. lia.
Qed.

(** The two function branches of [parse], from the node taken for the
    return type on. *)
Lemma parse_function_nodes n stop (m : TypeNode -> M TypeNode) d u d' :
  (forall t0 t, preserves (fun d => type d = t0) (m t)) ->
  (forall sc, tallies nodes 1 (m (set_sclass fresh sc))) ->
  (forall msc : M Z,
     (forall t0 i, preserves (fun d => type d = t0 /\ type_index d = i) msc) ->
     (r <- alloc ;;
      sc <- msc ;;
      r' <- m (set_sclass r sc) ;;
      modify_type (fun t => set_ptr t r') ;;; read_params cs n stop) d
     = Done (u, d') ->
     ptr (type d) = None ->
     (nodes (type d') + type_index d = nodes (type d) + type_index d')%nat).
Proof.
  intros Hk Ht msc Hs H Hp. unfold bind at 1 in H.
  destruct (alloc d) as [[r d1]| |] eqn:E1; try discriminate H.
  destruct (alloc_run _ _ _ E1) as (-> & -> & _).
  unfold bind at 1 in H.
  destruct (msc _) as [[sc d2]| |] eqn:E2; try discriminate H.
  destruct (Hs _ _ _ _ _ E2 (conj eq_refl eq_refl)) as [T2 I2].
  unfold bind at 1 in H.
  destruct (m _ d2) as [[r' d3]| |] eqn:E3; try discriminate H.
  pose proof (Ht sc _ _ _ E3) as T3.
  pose proof (Hk _ _ _ _ _ E3 eq_refl) as K3.
  unfold bind at 1, modify_type at 1, modify at 1 in H.
  apply (read_params_nodes n stop (type_index d) (nodes (type d)) _ _ _ H).
  cbv beta in K3. cbn [type set_type type_index set_type_index] in *.
  rewrite nodes_set_ptr by (rewrite K3, T2; exact Hp).
  rewrite K3, T2. lia.
Qed.

Lemma tallies_read_func_return_type n sc :
  tallies nodes 1 (read_func_return_type cs n (set_sclass fresh sc)).
Proof.
  unfold read_func_return_type.
  apply tallies_bind_keep; [intros i; apply index_kept_consume|].
  intros [|]; [now apply tallies_ret|].
  apply (tallies_bind nodes nodes 1 _ (fun t => nodes t) _ _ _ (yields_any _)
           (proj1 (tallies_read_type n) (set_sclass fresh sc) eq_refl)).
  - intros t _. lia.
  - intros t _. apply tallies_bind_keep; [intros i; apply index_kept_consume|].
    intros _. now apply tallies_ret.
Qed.

Lemma triple_preserves {A : Type} (P : Demangler -> Prop) (m : M A) :
  preserves P m -> triple P m (fun _ => P).
Proof. intros H. exact H. Qed.

Lemma parse_nodes n i k :
  triple (fun d => type_index d = i /\ nodes (type d) = k /\
                   ptr (type d) = None)
    (parse cs n)
    (fun _ d' => (nodes (type d') + i = k + type_index d')%nat).
Proof.
  set (Q := fun d => type_index d = i /\ nodes (type d) = k /\
                     ptr (type d) = None).
  assert (Hkeep : forall (A : Type) (m : M A),
            (forall t j, preserves (fun d => type d = t /\ type_index d = j) m) ->
            preserves Q m).
  { intros A m Hm d a d' H (H1 & H2 & H3).
    destruct (Hm _ _ _ _ _ H (conj eq_refl eq_refl)) as [E1 E2].
    unfold Q. rewrite E1, E2. now repeat split. }
  assert (Hmod : forall f,
            (forall t, nodes (f t) = nodes t /\ ptr (f t) = ptr t) ->
            preserves Q (modify_type f)).
  { intros f Hf d a d' [= _ <-] (H1 & H2 & H3). unfold Q. cbn.
    destruct (Hf (type d)) as [E1 E2]. rewrite E1, E2. now repeat split. }
  assert (Htail : forall stop (m : TypeNode -> M TypeNode) (msc : M Z),
            (forall t0 t, preserves (fun d => type d = t0) (m t)) ->
            (forall sc, tallies nodes 1 (m (set_sclass fresh sc))) ->
            (forall t0 j,
               preserves (fun d => type d = t0 /\ type_index d = j) msc) ->
            triple Q
              (r <- alloc ;;
               sc <- msc ;;
               r' <- m (set_sclass r sc) ;;
               modify_type (fun t => set_ptr t r') ;;; read_params cs n stop)
              (fun _ d' => (nodes (type d') + i = k + type_index d')%nat)).
  { intros stop m msc H1 H2 H3 d u d' H (Q1 & Q2 & Q3).
    pose proof (parse_function_nodes n stop m d u d' H1 H2 msc H3 H Q3).
    lia. }
  unfold parse.
  apply (triple_bind _ (fun _ => Q)).
  { apply triple_preserves. unfold parse_name.
    apply preserves_bind;
      [apply Hkeep; intros; apply preserves_consume; auto|].
    intros q. apply preserves_bind.
    - destruct q; [apply preserves_ret|].
      apply preserves_bind.
      + apply Hkeep. intros t j d a d' [= _ <-] H. exact H.
      + intros _. apply Hmod. intros t. now destruct t.
    - intros _. apply preserves_bind;
        [apply Hkeep; intros; apply preserves_read_name; auto|].
      intros v. apply Hkeep. intros t j d a d' [= _ <-] H. exact H. }
  intros _. apply (triple_bind _ (fun _ => Q)).
  { apply triple_preserves, Hkeep. intros. apply preserves_consume. auto. }
  intros [|].
  { intros d u d' H (Q1 & Q2 & Q3). unfold bind, gets in H.
    destruct (read_var_type cs n (type d) d) as [[t' d1]| |] eqn:E;
      try discriminate H.
    injection H as _ <-.
    pose proof (proj1 (tallies_read_type n) _ Q3 _ _ _ E). cbn. lia. }
  apply (triple_bind _ (fun _ => Q)).
  { apply triple_preserves, Hkeep. intros. apply preserves_consume. auto. }
  intros [|].
  - apply (triple_bind _ (fun _ => Q)).
    { apply triple_preserves, Hmod. intros t. now destruct t. }
    intros _. apply (triple_bind _ (fun _ => Q)).
    { apply triple_preserves, Hkeep. intros. apply preserves_read_calling_conv; auto. }
    intros cc. apply (triple_bind _ (fun _ => Q)).
    { apply triple_preserves, Hmod. intros t. now destruct t. }
    intros _. apply Htail.
    + intros t0 t. apply type_kept_read_var_type.
    + intros sc. apply (proj1 (tallies_read_type n)). reflexivity.
    + intros. apply preserves_read_storage_class_for_return; auto.
  - apply (triple_bind _ (fun _ => Q)).
    { apply triple_preserves, Hmod. intros t. now destruct t. }
    intros _. apply (triple_bind _ (fun _ => Q)).
    { apply triple_preserves, Hkeep. intros. apply preserves_read_func_class; auto. }
    intros fc. apply (triple_bind _ (fun _ => Q)).
    { apply triple_preserves, Hmod. intros t. now destruct t. }
    intros _. apply (triple_bind _ (fun _ => Q)).
    { apply triple_preserves, Hkeep. intros. apply preserves_consume. auto. }
    intros _. apply (triple_bind _ (fun _ => Q)).
    { apply triple_preserves, Hkeep. intros. apply preserves_read_calling_conv; auto. }
    intros cc. apply (triple_bind _ (fun _ => Q)).
    { apply triple_preserves, Hmod. intros t. now destruct t. }
    intros _. apply Htail.
    + intros t0 t. apply type_kept_read_func_return_type.
    + apply tallies_read_func_return_type.
    + intros. apply preserves_read_storage_class; auto.
Qed.

(** X18.  No node is lost.  [read_var_type], entered with a node whose
    [ptr] is null, returns a tree that has as many nodes more than the
    node had as it took from [type_buffer]; after [parse] the tree in
    [type] has one node more than [type_index] counts. *)
Theorem every_node_taken_is_in_the_tree :
  (forall fuel ty d ty' d',
     ptr ty = None ->
     read_var_type cs fuel ty d = Done (ty', d') ->
     (nodes ty' + type_index d = nodes ty + type_index d')%nat) /\
  (forall fuel s u d,
     parse cs fuel (init s) = Done (u, d) ->
     nodes (type d) = S (type_index d)).
Proof.
  split.
  - intros fuel ty d ty' d' Hp H.
    exact (proj1 (tallies_read_type fuel) ty Hp _ _ _ H).
  - intros fuel s u d H.
    pose proof (parse_nodes fuel 0 1 _ _ _ H
                  (conj eq_refl (conj eq_refl eq_refl))) as K.
    cbv beta in K. lia.
Qed.


End Properties.

(** * Closed statements

    The statements above hold for either signedness of [char]; the
    instances below fix it where a value is needed. *)

(** C5, as stated, fails: no amount of fuel makes [demangle] return
    "int * g(int)" for "?g@@YAPAHH@Z". *)
Lemma demangle_pointer_return_has_no_spaces :
  ~ (exists cs fuel,
       demangle cs fuel "?g@@YAPAHH@Z" = Done (Ok "int * g(int)")).
Proof.
  intros (cs & fuel & H).
  pose proof (demangle_g cs) as H0.
  pose proof (demangle_fuel_irrelevant cs _ _ _ _ _ H H0) as E.
  assert (E' : Done (Ok "int * g(int)") = Done (Ok "int*g(int)"))
    by (apply E; discriminate).
  discriminate E'.
Qed.

(** C4, as stated, fails.  On "?x@@" the name is read and the input is
    used up; [read_func_class] sets the first error, the call of
    [read_calling_conv] that follows is not skipped and replaces the
    message, and [demangle] returns the message written last, by
    [read_prim_type]. *)
Lemma later_error_replaces_first_error :
  exists d0 d1 d2,
    parse_name 8 (init "?x@@") = Done (tt, d0) /\
    read_func_class true d0 = Done (0, d1) /\
    error d1 = "unknown func class: " /\
    read_calling_conv true d1 = Done (Cdecl, d2) /\
    error d2 = "unknown calling convention: " /\
    error d2 <> error d1 /\
    demangle true 8 "?x@@" = Done (Err "unknown primitive type: ") /\
    demangle true 8 "?x@@" <> Done (Err (error d1)).
Proof.
  do 3 eexists.
  repeat split; try (vm_compute; reflexivity); vm_compute; discriminate.
Qed.

(** An instance of [error_stays_set]: [read_calling_conv], entered with
    the message of [read_func_class] in the slot, leaves a message. *)
Lemma error_stays_set_witness :
  errored (set_error (init "") "unknown func class: ") /\
  read_calling_conv true (set_error (init "") "unknown func class: ")
  = Done (Cdecl, set_error (init "") "unknown calling convention: ") /\
  errored (set_error (init "") "unknown calling convention: ").
Proof.
  split; [discriminate|]. split; [reflexivity|].
  pose proof (error_stays_set true) as [(_ & _ & _ & _ & H & _) _].
  apply (H (set_error (init "") "unknown func class: ") Cdecl
           (set_error (init "") "unknown calling convention: ") eq_refl).
  discriminate.
Defined.

(** C6, as stated, fails: the run "IAAAAAAA" has the base-16 value 2^31,
    and [read_number] returns -2^31 for it. *)
Lemma read_number_wraps_around :
  all_hex "IAAAAAAA" = true /\
  hex_value "IAAAAAAA" = 2147483648 /\
  read_number (init "IAAAAAAA@") = Done (-2147483648, init "") /\
  read_number (init "IAAAAAAA@") <> Done (hex_value "IAAAAAAA", init "").
Proof. repeat split. vm_compute. discriminate. Qed.

(** An instance of [read_number_value]: "?BA@" gives -16. *)
Lemma read_number_value_witness :
  all_hex "BA" = true /\ hex_value "BA" < 2 ^ 31 /\
  read_number (init "?BA@") = Done (-16, init "").
Proof.
  split; [reflexivity|]. split; [reflexivity|].
  exact (proj2 (proj2 (read_number_value (init "?BA@") "") "BA"
                  eq_refl eq_refl) eq_refl).
Defined.

(** C8, as stated, fails.  In "?x@@3U?$S@H@" the identifier [S], the
    name of a template, is read while the table holds one entry, and is
    not recorded: it is in the name of the node and not in the table.
    So in "?x@@3U?$S@U1@@@" the back-reference 1, which would cite [S]
    as the second identifier of the symbol, cites nothing. *)
Lemma template_identifier_is_not_recorded :
  exists d,
    parse true 8 (init "?x@@3U?$S@H@") = Done (tt, d) /\
    error d = "" /\
    name (type d) = ["S"] /\
    repeated_names d = ["x"] /\
    (List.length (repeated_names d) < 10)%nat /\
    ~ In "S" (repeated_names d) /\
    demangle true 8 "?x@@3U?$S@H@" = Done (Ok "struct S<int>x") /\
    demangle true 8 "?x@@3U?$S@U1@@@"
    = Done (Err "name reference too large: 1@@@").
Proof.
  eexists. split; [vm_compute; reflexivity|].
  repeat split; try (vm_compute; reflexivity).
  - cbn. lia.
  - cbn. intros [H|[]]. discriminate H.
Qed.

(** The table is not searched for an identifier before it is recorded.
    In "?a@a@1@3H" the identifier [a] occurs twice and is recorded
    twice; the back-reference 1 cites the second entry. *)
Lemma back_reference_counts_repeated_identifiers :
  exists d,
    read_name 8 (init "a@a@1@3H") = Done (["a"; "a"; "a"], d) /\
    repeated_names d = ["a"; "a"] /\
    nth_error (repeated_names d) 1 = Some "a" /\
    nth_error (nodup string_dec (repeated_names d)) 1 = None /\
    demangle true 8 "?a@a@1@3H" = Done (Ok "int a::a::a").
Proof.
  eexists. repeat split; vm_compute; reflexivity.
Qed.

(** An instance of [back_reference_table]: with the table [a; b], the
    back-reference 1 cites [b]; and [read_class] at "?$S@H@", with the
    table [x], reads the arguments of the template with the table
    [x]. *)
Lemma back_reference_table_witness :
  (starts_with_digit (input (mkDemangler "1@3H" fresh [] 0 [] ["a"; "b"] ""))
   = true /\
   read_name_body ["c"] (mkDemangler "1@3H" fresh [] 0 [] ["a"; "b"] "")
   = Done (inr ["c"; "b"], mkDemangler "@3H" fresh [] 0 [] ["a"; "b"] "")) /\
  (startswith (input (mkDemangler "?$S@H@" fresh [] 0 [] ["x"] "")) "?$" = true /\
   read_string (mkDemangler "S@H@" fresh [] 0 [] ["x"] "")
   = Done ("S", mkDemangler "H@" fresh [] 0 [] ["x"] "") /\
   repeated_names (mkDemangler "H@" fresh [] 0 [] ["x"] "") = ["x"] /\
   read_class true 8 Struct fresh (mkDemangler "?$S@H@" fresh [] 0 [] ["x"] "")
   = Done (push_param (set_name (set_prim fresh Struct) ["S"])
             (set_prim fresh Int),
           mkDemangler "" fresh [] 1 [] ["x"] "")).
Proof.
  split.
  - split; [reflexivity|].
    exact (proj1 (proj2 (proj2 (proj2 (proj2 (back_reference_table true)))))
             ["c"] (mkDemangler "1@3H" fresh [] 0 [] ["a"; "b"] "") eq_refl).
  - split; [reflexivity|]. split; [reflexivity|].
    destruct (proj2 (proj2 (proj2 (proj2 (proj2 (back_reference_table true)))))
                7%nat Struct fresh
                (mkDemangler "?$S@H@" fresh [] 0 [] ["x"] "") "S"
                (mkDemangler "H@" fresh [] 0 [] ["x"] "") eq_refl eq_refl)
      as [Ht Hc].
    split; [exact Ht|]. rewrite Hc. reflexivity.
Defined.

Lemma append_inv_tail (a b c : string) : a ++ c = b ++ c -> a = b.
Proof.
  revert b. induction a as [|x a IH]; intros [|y b] H; cbn in H.
  - reflexivity.
  - exfalso. apply (f_equal String.length) in H. cbn in H.
    rewrite length_append in H. lia.
  - exfalso. apply (f_equal String.length) in H. cbn in H.
    rewrite length_append in H. lia.
  - injection H as -> H. f_equal. now apply IH.
Qed.

(** An instance of [variable_symbol_ignores_trailing_bytes]: "?x@@3H"
    followed by any bytes is demangled as "int x". *)
Lemma variable_symbol_ignores_trailing_bytes_witness :
  variable_symbol 8 "?x@@3HA" /\
  demangle true 8 "?x@@3HA" = Done (Ok "int x") /\
  forall r, demangle true 8 ("?x@@3H" ++ r) = Done (Ok "int x").
Proof.
  assert (V : variable_symbol 8 "?x@@3HA").
  { split; [reflexivity|]. eexists. split; [vm_compute; reflexivity|].
    reflexivity. }
  assert (D : demangle true 8 "?x@@3HA" = Done (Ok "int x"))
    by (vm_compute; reflexivity).
  split; [exact V|]. split; [exact D|].
  destruct (variable_symbol_ignores_trailing_bytes true 8 "?x@@3HA" "int x"
              V D) as (p & rest & Hs & (d0 & ty & d' & _ & _ & Hp & Hi) & Hr).
  vm_compute in Hp. injection Hp as Hp. subst rest.
  assert (Hi : input d' = "A")
    by (change "A" with (input (set_type
          (mkDemangler "A" fresh ["x"] 0 [] ["x"] "") (set_prim fresh Int)));
        rewrite Hp; reflexivity).
  rewrite Hi in Hs. change "?x@@3HA" with ("?x@@3H" ++ "A") in Hs.
  apply append_inv_tail in Hs. subst p. intros r. apply Hr.
Defined.

(** * The signedness of [char]

    The parser depends on it only through the value [get] returns:
    where [char] is signed, the byte 255 is read as the end of the
    input. *)

Lemma no_byte_255_suffix p :
  forall s, no_byte_255 (p ++ s) = true -> no_byte_255 s = true.
Proof.
  induction p as [|c p IH]; intros s H; cbn in H; [exact H|].
  apply andb_true_iff in H as [_ H]. now apply IH.
Qed.

Lemma agree_refl {A : Type} (m : M A) : agree m m.
Proof. intros d _. reflexivity. Qed.

Lemma agree_bind {A B : Type} (m1 m2 : M A) (k1 k2 : A -> M B) :
  agree m1 m2 -> advances m1 -> (forall a, agree (k1 a) (k2 a)) ->
  agree (bind m1 k1) (bind m2 k2).
Proof.
  intros Hm Ha Hk d Hd. unfold bind. rewrite <- (Hm d Hd).
  destruct (m1 d) as [[a d1]| |] eqn:E; try reflexivity.
  apply Hk. destruct (proj1 (Ha _ _ _ E)) as [p Hp]. rewrite Hp in Hd.
  exact (no_byte_255_suffix p _ Hd).
Qed.

Lemma agree_bind_same {A B : Type} (m : M A) (k1 k2 : A -> M B) :
  advances m -> (forall a, agree (k1 a) (k2 a)) ->
  agree (bind m k1) (bind m k2).
Proof. intros Ha Hk. apply agree_bind; [apply agree_refl|exact Ha|exact Hk]. Qed.

Lemma agree_while {A : Type} (cond : M bool) (body1 body2 : A -> M A) :
  advances cond -> (forall a, advances (body1 a)) ->
  (forall a, agree (body1 a) (body2 a)) ->
  forall n a, agree (while n cond body1 a) (while n cond body2 a).
Proof.
  intros Hc Ha Hb. induction n as [|n IH]; intros a; [apply agree_refl|].
  cbn [while]. apply agree_bind_same; [exact Hc|]. intros [|].
  - apply agree_bind; [apply Hb|apply Ha|]. intros a'. apply IH.
  - apply agree_refl.
Qed.

Lemma switch_outside {A : Type} (tbl : list (ascii * A)) z :
  Forall (fun kv => chr (fst kv) < 128) tbl -> z < 0 \/ 128 <= z ->
  switch z tbl = None.
Proof.
  intros Ht Hz. induction Ht as [|[k v] tbl Hk _ IH]; [reflexivity|].
  cbn [switch]. cbn [fst] in Hk. pose proof (chr_range k).
  destruct (z =? chr k) eqn:E; [apply Z.eqb_eq in E; lia|exact IH].
Qed.

(** A [switch] over the byte that [get] returned, with case labels
    below 128. *)
Lemma agree_switch {A B : Type} (tbl : list (ascii * A)) (K : A -> M B)
    (D : M B) :
  Forall (fun kv => chr (fst kv) < 128) tbl ->
  agree (c <- get true ;;
         match switch c tbl with
         | Some x => K x
         | None => unget c ;;; D
         end)
        (c <- get false ;;
         match switch c tbl with
         | Some x => K x
         | None => unget c ;;; D
         end).
Proof.
  intros Ht d Hd.
  assert (Hc : input d = "" \/ exists c s, input d = String c s)
    by (destruct (input d); eauto).
  destruct Hc as [Hin|(c & s & Hin)].
  - unfold bind at 1 3. now rewrite !(get_nil _ d Hin).
  - rewrite Hin in Hd. cbn [no_byte_255] in Hd.
    apply andb_true_iff in Hd as [Hc _]. apply negb_true_iff in Hc.
    apply Z.eqb_neq in Hc. pose proof (chr_range c) as Hr.
    destruct (128 <=? chr c) eqn:E.
    + apply Z.leb_le in E.
      assert (E1 : char_to_int true c = chr c - 256)
        by (unfold char_to_int; apply Z.leb_le in E; now rewrite E).
      assert (E2 : char_to_int false c = chr c)
        by (unfold char_to_int; now destruct (128 <=? chr c)).
      rewrite (switch_unknown true tbl K D d c s Hin)
        by (apply switch_outside; [exact Ht|rewrite E1; lia]).
      rewrite (switch_unknown false tbl K D d c s Hin)
        by (apply switch_outside; [exact Ht|rewrite E2; lia]).
      rewrite E1, E2.
      destruct (chr c - 256 =? -1) eqn:N1; [apply Z.eqb_eq in N1; lia|].
      destruct (chr c =? -1) eqn:N2; [apply Z.eqb_eq in N2; lia|].
      reflexivity.
    + assert (E1 : char_to_int true c = char_to_int false c)
        by (unfold char_to_int; now rewrite E).
      unfold bind at 1 3.
      rewrite (get_cons true d c s Hin), (get_cons false d c s Hin), E1.
      reflexivity.
Qed.

Lemma agree_read_storage_class :
  agree (read_storage_class true) (read_storage_class false).
Proof. apply agree_switch. repeat constructor. Qed.

Lemma agree_read_calling_conv :
  agree (read_calling_conv true) (read_calling_conv false).
Proof. apply agree_switch. repeat constructor. Qed.

Lemma agree_read_func_class :
  agree (read_func_class true) (read_func_class false).
Proof. apply agree_switch. repeat constructor. Qed.

Lemma agree_read_prim_type :
  agree (read_prim_type true) (read_prim_type false).
Proof. apply agree_switch. repeat constructor. Qed.

Ltac advs :=
  repeat match goal with
  | |- advances (consume _) => apply advances_consume
  | |- advances alloc => apply advances_alloc
  | |- advances read_number => apply advances_read_number
  | |- advances read_string => apply advances_read_string
  | |- advances (read_name _) => apply advances_read_name
  | |- advances (read_array_lens _) => apply advances_read_array_lens
  | |- advances read_array_qualifier => apply advances_read_array_qualifier
  | |- advances (read_storage_class _) => apply advances_read_storage_class
  | |- advances read_storage_class_for_return =>
      apply advances_read_storage_class_for_return
  | |- advances (read_calling_conv _) => apply advances_read_calling_conv
  | |- advances (read_func_class _) => apply advances_read_func_class
  | |- advances (read_prim_type _) => apply advances_read_prim_type
  | |- advances (read_var_type _ _ _) => apply advances_read_type
  | |- advances (read_func_return_type _ _ _) =>
      apply advances_read_func_return_type
  | |- advances (parse_name _) => apply advances_parse_name
  | |- advances (bind _ _) => apply advances_bind; [ | intros ? ]
  | |- advances (ret _) => apply advances_ret
  | |- advances (gets _) => apply advances_gets
  | |- advances error_empty => apply advances_gets
  | |- advances (modify_type _) => apply advances_modify_type
  | |- advances (modify _) => apply advances_modify; reflexivity
  | |- advances (while _ _ _ _) => apply advances_while; [ | intros ? ]
  | |- advances (if ?b then _ else _) => destruct b
  | H : forall _, advances _ |- advances _ => apply H
  end.

Ltac agr :=
  repeat match goal with
  | |- agree ?m ?m => apply agree_refl
  | |- agree (read_storage_class _) _ => apply agree_read_storage_class
  | |- agree (read_calling_conv _) _ => apply agree_read_calling_conv
  | |- agree (read_func_class _) _ => apply agree_read_func_class
  | |- agree (read_prim_type _) _ => apply agree_read_prim_type
  | H : forall _, agree _ _ |- agree _ _ => apply H
  | H : forall _ _, agree _ _ |- agree _ _ => apply H
  | |- agree (bind ?m _) (bind ?m _) =>
      apply agree_bind_same; [ solve [advs] | intros ? ]
  | |- agree (bind _ _) (bind _ _) =>
      apply agree_bind; [ | solve [advs] | intros ? ]
  | |- agree (if ?b then _ else _) (if ?b then _ else _) => destruct b
  | |- agree (while _ _ _ _) (while _ _ _ _) =>
      apply agree_while; [ solve [advs] | intros ?; solve [advs] | intros ? ]
  end.

Lemma agree_read_type :
  forall n,
    (forall ty, agree (read_var_type true n ty) (read_var_type false n ty)) /\
    (forall p ty, agree (read_class true n p ty) (read_class false n p ty)).
Proof.
  induction n as [|n [IHv IHc]]; split; intros; try apply agree_refl.
  - pose proof (fun t => proj1 (advances_read_type true n) t) as Ha.
    cbn [read_var_type].
    unfold read_pointee, read_function_pointer, read_array. agr.
  - pose proof (fun t => proj1 (advances_read_type true n) t) as Ha.
    cbn [read_class]. cbv zeta. agr.
Qed.

Lemma agree_parse n : agree (parse true n) (parse false n).
Proof.
  pose proof (proj1 (agree_read_type n)) as Hv.
  pose proof (fun t => proj1 (advances_read_type true n) t) as Ha.
  unfold parse, read_params, read_func_return_type. agr.
Qed.



(** ** Instances of the further properties *)

Lemma cursor_only_advances_witness :
  exists d,
    parse true 8 (init "?x@@3HA") = Done (tt, d) /\ input d = "A" /\
    (exists p, "?x@@3HA" = p ++ input d) /\
    (String.length (input d) <= String.length "?x@@3HA")%nat.
Proof.
  eexists. split; [vm_compute; reflexivity|]. split; [reflexivity|].
  destruct (cursor_only_advances true 8)
    as (_ & _ & _ & _ & _ & _ & _ & _ & _ & _ & H).
  apply (H "?x@@3HA" tt). vm_compute. reflexivity.
Defined.

Lemma parse_builds_well_formed_tree_witness :
  exists d,
    parse true 8 (set_type (init "?g@@YAPAHH@Z") (set_prim fresh Ptr))
    = Done (tt, d) /\
    error d = "" /\ well_formed (type d) = true.
Proof.
  eexists. split; [vm_compute; reflexivity|]. split; [reflexivity|].
  apply (proj2 (parse_builds_well_formed_tree true) 8%nat "?g@@YAPAHH@Z"
           Ptr tt).
  - vm_compute. reflexivity.
  - reflexivity.
Defined.

Lemma printer_never_follows_null_ptr_witness :
  well_formed (set_ptr (set_prim fresh Ptr) (set_prim fresh Int)) = true /\
  write_pre (set_ptr (set_prim fresh Ptr) (set_prim fresh Int)) "" <> None /\
  demangle true 8 "?x@@3PAH" <> Done NullDeref.
Proof.
  split; [reflexivity|]. split.
  - apply (proj1 (printer_never_follows_null_ptr true)). reflexivity.
  - apply (proj2 (printer_never_follows_null_ptr true)).
Defined.

Lemma printer_only_appends_witness :
  write_pre (set_prim fresh Int) "const " = Some "const int" /\
  exists suf, "const int" = "const " ++ suf.
Proof.
  split; [reflexivity|].
  destruct (printer_only_appends "const ") as (_ & _ & H & _).
  apply (H (set_prim fresh Int)). reflexivity.
Defined.

Lemma read_string_splits_at_first_at_witness :
  find_at "ab" = None /\
  read_string (init "ab@cd") = Done ("ab", init "cd").
Proof.
  split; [reflexivity|].
  apply (proj1 (read_string_splits_at_first_at (init "ab@cd")) "ab" "cd");
    reflexivity.
Defined.

Lemma read_name_reads_back_identifiers_witness :
  read_name 3 (init "x@ns@@3H")
  = Done (["x"; "ns"], mkDemangler "3H" fresh [] 0 [] ["x"; "ns"] "").
Proof.
  apply (read_name_reads_back_identifiers ["x"; "ns"] "3H" 3
           (init "x@ns@@3H")).
  - constructor; [|constructor; [|constructor]];
      (split; [discriminate|split; reflexivity]).
  - reflexivity.
  - cbn. lia.
Defined.

Lemma read_name_returns_within_input_length_witness :
  read_name 50 (init "x@@") <> OutOfFuel /\
  read_name (S (String.length "x@@")) (init "x@@") = read_name 50 (init "x@@").
Proof.
  split; [discriminate|].
  apply (proj1 (read_name_returns_within_input_length (init "x@@")) 50%nat);
    [reflexivity|discriminate].
Defined.

Lemma unknown_code_is_pushed_back_witness :
  switch (char_to_int true "Z") calling_conv_table = None /\
  read_calling_conv true (init "Zx")
  = Done (Cdecl, set_error (init "Zx") "unknown calling convention: Zx").
Proof.
  split; [reflexivity|].
  destruct (proj1 (unknown_code_is_pushed_back true (init "Zx")) "Z"%char "x"
              eq_refl ltac:(discriminate))
    as (_ & _ & _ & H & _).
  apply H. reflexivity.
Defined.

Lemma readers_read_a_prefix_witness :
  read_number (init "BA@xyz") = Done (16, init "xyz") /\
  exists p,
    p <> "" /\ "BA@xyz" = p ++ "xyz" /\
    forall r,
      read_number (set_input (init "BA@xyz") (p ++ r))
      = Done (16, set_input (init "xyz") r).
Proof.
  split; [reflexivity|].
  destruct (readers_read_a_prefix true) as (_ & _ & H).
  exact (proj2 (H (init "BA@xyz") 16 (init "xyz") eq_refl eq_refl)).
Defined.

Lemma write_name_joins_scopes_witness :
  write_name ["x"; "ns"] "int" = "int ns::x".
Proof.
  apply (proj1 (write_name_joins_scopes "x" ["ns"] "int")); reflexivity.
Defined.

Lemma demangle_variable_of_primitive_type_witness :
  demangle true 3 "?x@ns@@3HA" = Done (Ok "int ns::x").
Proof.
  apply (demangle_variable_of_primitive_type true "x" ["ns"] "H"%char Int "A" 0%nat).
  - constructor; [|constructor; [|constructor]];
      (split; [discriminate|split; reflexivity]).
  - reflexivity.
  - reflexivity.
  - reflexivity.
Defined.


Lemma demangle_writes_something_witness :
  demangle true 8 "?x@@3H" = Done (Ok "int x") /\ "int x" <> "".
Proof.
  split; [reflexivity|].
  apply (demangle_writes_something true 8 "?x@@3H"). reflexivity.
Defined.

Lemma errors_come_from_the_catalogue_witness :
  demangle true 8 "?x@@" = Done (Err "unknown primitive type: ") /\
  exists known tail,
    In known error_messages /\ "unknown primitive type: " = known ++ tail.
Proof.
  split; [reflexivity|].
  apply (proj2 (errors_come_from_the_catalogue true) 8%nat "?x@@").
  reflexivity.
Defined.

Lemma consume_reads_exactly_the_literal_witness :
  consume "P6A" (init "P6AHH@Z") = Done (true, init "HH@Z").
Proof.
  apply (proj1 (consume_reads_exactly_the_literal "P6A" (init "P6AHH@Z"))).
  reflexivity.
Defined.

Lemma demangle_function_of_primitive_types_witness :
  demangle true 4 "?f@@YAXHH@Z" = Done (Ok "void f(int,int)").
Proof.
  apply (demangle_function_of_primitive_types true "f" [] "X"%char Void
           [("H"%char, Int); ("H"%char, Int)] "Z" 0%nat).
  - constructor; [|constructor].
    split; [discriminate|split; reflexivity].
  - reflexivity.
  - reflexivity.
  - reflexivity.
  - repeat constructor.
  - cbn. unfold type_buffer_size. lia.
Defined.

Lemma parameter_list_ends_at_one_byte_only_witness :
  read_params true 2 "@" (init "Z")
  = Done (tt,
          mkDemangler "Z" (push_param fresh (set_prim fresh Unknown)) [] 1 []
            [] "unknown primitive type: Z") /\
  demangle true 8 "?f@@YAXXZ" = Done (Err "unknown primitive type: Z").
Proof.
  split; [|reflexivity].
  apply (proj2 (parameter_list_ends_at_one_byte_only true 0%nat (init "Z")
                  "Z"%char "@"%char "" eq_refl eq_refl
                  ltac:(unfold type_buffer_size; cbn; lia))).
  left. split; reflexivity.
Defined.


Lemma every_node_taken_is_in_the_tree_witness :
  exists d,
    parse true 8 (init "?g@@YAPAHH@Z") = Done (tt, d) /\
    type_index d = 3%nat /\ nodes (type d) = 4%nat /\
    nodes (type d) = S (type_index d).
Proof.
  eexists. split; [vm_compute; reflexivity|].
  split; [reflexivity|]. split; [reflexivity|].
  apply (proj2 (every_node_taken_is_in_the_tree true) 8%nat "?g@@YAPAHH@Z" tt).
  vm_compute. reflexivity.
Defined.
